(** * The aggregator of hardcoded-disablers: scatter, gather, assemble

    A shallow embedding of [aggregator/main.go].  The handler of
    [/analyze] validates the request, [aggregateAnalysis] starts eight
    goroutines, each of which calls one downstream service through
    [callMicroservice] and then, holding the mutex, writes its part of
    the shared [AnalyseResponse] or appends to the shared error slice;
    [wg.Wait] joins them.

    The standard library of Go is modelled at the level the program
    uses it: JSON text is the tree its scanner delimits, the HTTP
    client is a function from the request posted to the reply that came
    back, and the runtime's scheduler is the list of goroutines in the
    order in which they take their steps. *)

From stdpp Require Import gmap strings list functions pretty.
From Stdlib Require Import ZArith Ascii Floats.SpecFloat.

#[local] Set Warnings "-register-all".
#[local] Open Scope Z_scope.

(** ** Go values *)

(** [float64]: the IEEE 754 double, as the specification floats of the
    standard library. *)
Definition float64 : Type := spec_float.

(** The zero value of a [float64] is [+0]. *)
Definition zeroFloat : float64 := S754_zero false.

Definition isFinite (f : float64) : bool :=
  match f with
  | S754_zero _ | S754_finite _ _ _ => true
  | S754_infinity _ | S754_nan => false
  end.

(** The integer a finite float truncates to, toward zero: the mantissa
    shifted by the exponent, with the sign put back. *)
Definition truncate (f : float64) : option Z :=
  match f with
  | S754_zero _ => Some 0
  | S754_finite s m e => Some (cond_Zopp s (Z.shiftl (Z.pos m) e))
  | S754_infinity _ | S754_nan => None
  end.

(** [int] is 64 bits wide on the platforms the images are built for. *)
Definition minInt : Z := - 2 ^ 63.
Definition maxInt : Z := 2 ^ 63 - 1.

Definition fitsInt (z : Z) : bool := (minInt <=? z) && (z <=? maxInt).

(** Go errors.  [Wrap] is [fmt.Errorf("<prefix>: %w", err)],
    [StatusError] is [fmt.Errorf("service returned status %d", code)];
    the others are the errors of [net/http], [io] and [encoding/json]
    that the program passes on or drops. *)
Inductive error : Type :=
| TransportError (cause : string)
| StatusError (code : Z)
| ReadError (cause : string)
| SyntaxError
| UnmarshalTypeError (value : string) (target : string)
| UnsupportedValueError
| Wrap (prefix : string) (err : error).

(** A result together with Go's [error] return: [Err] is [err != nil]. *)
Inductive result (A : Type) : Type :=
| Ok (a : A)
| Err (err : error).
Arguments Ok {A} a.
Arguments Err {A} err.

Definition isErr {A} (r : result A) : bool :=
  match r with Ok _ => false | Err _ => true end.

(** ** encoding/json *)

Module Json.

(** JSON text, as the scanner delimits it.  A string is the Go string
    it unquotes to.  A number literal is carried as the [float64]
    that [strconv.ParseFloat] reads off it; a literal beyond the range
    of [float64] is carried as the infinity that [ParseFloat] hands
    back together with its range error. *)
Inductive json : Type :=
| JNull
| JBool (b : bool)
| JNumber (f : float64)
| JString (s : string)
| JArray (elems : list json)
| JObject (members : list (string * json)).

(** What [interface{}] holds after decoding: [nil], [bool],
    [float64], [string], [[]interface{}], [map[string]interface{}]. *)
Inductive any : Type :=
| Nil
| Bool (b : bool)
| Float64 (f : float64)
| Str (s : string)
| Slice (elems : list any)
| Map (m : gmap string any).

(** The word [UnmarshalTypeError.Value] describes a JSON value by. *)
Definition kind (j : json) : string :=
  match j with
  | JNull => "null"
  | JBool _ => "bool"
  | JNumber _ => "number"
  | JString _ => "string"
  | JArray _ => "array"
  | JObject _ => "object"
  end.

(** [decodeState.convertNumber]: [ParseFloat] at 64 bits, and its
    range error turned into an [UnmarshalTypeError]. *)
Definition convertNumber (f : float64) : result any :=
  if isFinite f then Ok (Float64 f)
  else Err (UnmarshalTypeError "number" "float64").

(** [decodeState.arrayInterface] and [decodeState.objectInterface],
    over the decoder of the elements.  Members of an object go into
    the map in the order of the text, so of two members with one name
    the later one stays.  The error returned is the first one met. *)
Section Interface.

Variable valueInterface : json → result any.

Fixpoint arrayInterface (l : list json) : result (list any) :=
  match l with
  | [] => Ok []
  | x :: l' =>
      match valueInterface x with
      | Err e => Err e
      | Ok a =>
          match arrayInterface l' with
          | Err e => Err e
          | Ok r => Ok (a :: r)
          end
      end
  end.

Fixpoint objectInterface (l : list (string * json)) (m : gmap string any)
  : result (gmap string any) :=
  match l with
  | [] => Ok m
  | (k, x) :: l' =>
      match valueInterface x with
      | Err e => Err e
      | Ok a => objectInterface l' (<[k := a]> m)
      end
  end.

End Interface.

(** [decodeState.valueInterface]: a JSON value into an empty
    interface. *)
Fixpoint valueInterface (j : json) : result any :=
  match j with
  | JNull => Ok Nil
  | JBool b => Ok (Bool b)
  | JNumber f => convertNumber f
  | JString s => Ok (Str s)
  | JArray elems =>
      match arrayInterface valueInterface elems with
      | Err e => Err e
      | Ok r => Ok (Slice r)
      end
  | JObject members =>
      match objectInterface valueInterface members ∅ with
      | Err e => Err e
      | Ok m => Ok (Map m)
      end
  end.

(** Upper case of an ASCII letter; every other byte is kept. *)
Definition upper (c : ascii) : ascii :=
  let n := N_of_ascii c in
  if ((97 <=? n) && (n <=? 122))%N then ascii_of_N (n - 32) else c.

(** [foldName]: the key a struct field is looked up by when no
    field has exactly the name of the member.  ASCII letters go to
    upper case; of the runes beyond ASCII only U+017F (long s, bytes
    C5 BF) and U+212A (Kelvin sign, bytes E2 84 AA) fold to an ASCII
    letter.  Go folds the other runes among themselves, which never
    makes them equal to the all-ASCII field names of this program, so
    they are kept as they are. *)
Fixpoint foldName (s : string) : string :=
  match s with
  | EmptyString => EmptyString
  | String c rest =>
      match N_of_ascii c, rest with
      | 197%N, String c1 rest1 =>
          if (N_of_ascii c1 =? 191)%N then String "S"%char (foldName rest1)
          else String c (foldName rest)
      | 226%N, String c1 (String c2 rest2) =>
          if ((N_of_ascii c1 =? 132) && (N_of_ascii c2 =? 170))%N
          then String "K"%char (foldName rest2)
          else String c (foldName rest)
      | _, _ => String (upper c) (foldName rest)
      end
  end.

(** The field of a struct a member of an object is stored into: the
    one of exactly that name or, when there is none, the first one
    with the same folded name; [None], and the member is skipped,
    when there is none either. *)
Definition findField {F : Type} (fields : list (string * F)) (key : string)
  : option F :=
  match list_find (λ nf : string * F, nf.1 = key) fields with
  | Some (_, nf) => Some nf.2
  | None =>
      match list_find (λ nf : string * F, foldName nf.1 = foldName key) fields with
      | Some (_, nf) => Some nf.2
      | None => None
      end
  end.

(** [decodeState.saveError]: only the first error is kept. *)
Definition saveError (saved : option error) (e : error) : option error :=
  match saved with
  | Some e0 => Some e0
  | None => Some e
  end.

(** The index expression [m[k]] of a map of interfaces: [nil] when
    the key is absent. *)
Definition index (m : gmap string any) (k : string) : any :=
  default Nil (m !! k).

(** The type assertions [v.(string)], [v.(float64)], [v.(bool)] and
    [v.(map[string]interface{})], in their comma-ok form. *)
Definition assertString (v : any) : option string :=
  match v with Str s => Some s | _ => None end.

Definition assertFloat64 (v : any) : option float64 :=
  match v with Float64 f => Some f | _ => None end.

Definition assertBool (v : any) : option bool :=
  match v with Bool b => Some b | _ => None end.

Definition assertMap (v : any) : option (gmap string any) :=
  match v with Map m => Some m | _ => None end.

End Json.
Import Json.

(** ** The types of main.go *)

Module Main.

(** The anonymous struct behind [OpRequest.Deps]. *)
Record OpRequestDeps : Type := {
  Deps_Normalized : option string;
  Deps_Transliterated : option string;
  Deps_Tokens : list string
}.

Record OpRequest : Type := {
  OpRequest_Text : option string;
  OpRequest_Deps : option OpRequestDeps
}.

Record OpResponse : Type := {
  Key : string;
  Value : any;
  CacheHit : bool
}.

Record AnalyseRequest : Type := {
  AnalyseRequest_Text : string
}.

Record AnalyseResponse : Type := {
  Normalized : string;
  Transliterated : string;
  Slug : string;
  Tokens : Z;
  UniqueWords : Z;
  BigramCount : Z;
  CharCount : Z;
  UniqueChars : Z;
  Hash64 : string;
  Entropy : float64;
  Palindrome : bool;
  Degraded : bool
}.

(** Assignments to the fields of the shared response. *)
Definition set_Normalized (v : string) (r : AnalyseResponse) : AnalyseResponse :=
  {| Normalized := v; Transliterated := Transliterated r; Slug := Slug r;
     Tokens := Tokens r; UniqueWords := UniqueWords r;
     BigramCount := BigramCount r; CharCount := CharCount r;
     UniqueChars := UniqueChars r; Hash64 := Hash64 r; Entropy := Entropy r;
     Palindrome := Palindrome r; Degraded := Degraded r |}.

Definition set_Transliterated (v : string) (r : AnalyseResponse) : AnalyseResponse :=
  {| Normalized := Normalized r; Transliterated := v; Slug := Slug r;
     Tokens := Tokens r; UniqueWords := UniqueWords r;
     BigramCount := BigramCount r; CharCount := CharCount r;
     UniqueChars := UniqueChars r; Hash64 := Hash64 r; Entropy := Entropy r;
     Palindrome := Palindrome r; Degraded := Degraded r |}.

Definition set_Slug (v : string) (r : AnalyseResponse) : AnalyseResponse :=
  {| Normalized := Normalized r; Transliterated := Transliterated r; Slug := v;
     Tokens := Tokens r; UniqueWords := UniqueWords r;
     BigramCount := BigramCount r; CharCount := CharCount r;
     UniqueChars := UniqueChars r; Hash64 := Hash64 r; Entropy := Entropy r;
     Palindrome := Palindrome r; Degraded := Degraded r |}.

Definition set_Tokens (v : Z) (r : AnalyseResponse) : AnalyseResponse :=
  {| Normalized := Normalized r; Transliterated := Transliterated r;
     Slug := Slug r; Tokens := v; UniqueWords := UniqueWords r;
     BigramCount := BigramCount r; CharCount := CharCount r;
     UniqueChars := UniqueChars r; Hash64 := Hash64 r; Entropy := Entropy r;
     Palindrome := Palindrome r; Degraded := Degraded r |}.

Definition set_UniqueWords (v : Z) (r : AnalyseResponse) : AnalyseResponse :=
  {| Normalized := Normalized r; Transliterated := Transliterated r;
     Slug := Slug r; Tokens := Tokens r; UniqueWords := v;
     BigramCount := BigramCount r; CharCount := CharCount r;
     UniqueChars := UniqueChars r; Hash64 := Hash64 r; Entropy := Entropy r;
     Palindrome := Palindrome r; Degraded := Degraded r |}.

Definition set_BigramCount (v : Z) (r : AnalyseResponse) : AnalyseResponse :=
  {| Normalized := Normalized r; Transliterated := Transliterated r;
     Slug := Slug r; Tokens := Tokens r; UniqueWords := UniqueWords r;
     BigramCount := v; CharCount := CharCount r;
     UniqueChars := UniqueChars r; Hash64 := Hash64 r; Entropy := Entropy r;
     Palindrome := Palindrome r; Degraded := Degraded r |}.

Definition set_UniqueChars (v : Z) (r : AnalyseResponse) : AnalyseResponse :=
  {| Normalized := Normalized r; Transliterated := Transliterated r;
     Slug := Slug r; Tokens := Tokens r; UniqueWords := UniqueWords r;
     BigramCount := BigramCount r; CharCount := CharCount r;
     UniqueChars := v; Hash64 := Hash64 r; Entropy := Entropy r;
     Palindrome := Palindrome r; Degraded := Degraded r |}.

Definition set_Hash64 (v : string) (r : AnalyseResponse) : AnalyseResponse :=
  {| Normalized := Normalized r; Transliterated := Transliterated r;
     Slug := Slug r; Tokens := Tokens r; UniqueWords := UniqueWords r;
     BigramCount := BigramCount r; CharCount := CharCount r;
     UniqueChars := UniqueChars r; Hash64 := v; Entropy := Entropy r;
     Palindrome := Palindrome r; Degraded := Degraded r |}.

Definition set_Entropy (v : float64) (r : AnalyseResponse) : AnalyseResponse :=
  {| Normalized := Normalized r; Transliterated := Transliterated r;
     Slug := Slug r; Tokens := Tokens r; UniqueWords := UniqueWords r;
     BigramCount := BigramCount r; CharCount := CharCount r;
     UniqueChars := UniqueChars r; Hash64 := Hash64 r; Entropy := v;
     Palindrome := Palindrome r; Degraded := Degraded r |}.

Definition set_Palindrome (v : bool) (r : AnalyseResponse) : AnalyseResponse :=
  {| Normalized := Normalized r; Transliterated := Transliterated r;
     Slug := Slug r; Tokens := Tokens r; UniqueWords := UniqueWords r;
     BigramCount := BigramCount r; CharCount := CharCount r;
     UniqueChars := UniqueChars r; Hash64 := Hash64 r; Entropy := Entropy r;
     Palindrome := v; Degraded := Degraded r |}.

Definition set_Degraded (v : bool) (r : AnalyseResponse) : AnalyseResponse :=
  {| Normalized := Normalized r; Transliterated := Transliterated r;
     Slug := Slug r; Tokens := Tokens r; UniqueWords := UniqueWords r;
     BigramCount := BigramCount r; CharCount := CharCount r;
     UniqueChars := UniqueChars r; Hash64 := Hash64 r; Entropy := Entropy r;
     Palindrome := Palindrome r; Degraded := v |}.

(** ** Encoding and decoding the structs *)

(** [json.Marshal] of an [OpRequest].  Both fields are pointers tagged
    [omitempty]: a nil one leaves no member behind, a non-nil one is
    written even when it points to the empty string; a slice tagged
    [omitempty] is left out when it has no element.  No value of this
    type makes [Marshal] fail. *)
Definition marshalDeps (d : OpRequestDeps) : json :=
  JObject
    (match Deps_Normalized d with
     | Some s => [("normalized", JString s)]
     | None => []
     end ++
     match Deps_Transliterated d with
     | Some s => [("transliterated", JString s)]
     | None => []
     end ++
     match Deps_Tokens d with
     | [] => []
     | ts => [("tokens", JArray (JString <$> ts))]
     end).

Definition Marshal (payload : OpRequest) : result json :=
  Ok (JObject
        (match OpRequest_Text payload with
         | Some s => [("text", JString s)]
         | None => []
         end ++
         match OpRequest_Deps payload with
         | Some d => [("deps", marshalDeps d)]
         | None => []
         end)).

(** The fields of [OpResponse] by their JSON names.  The struct has no
    field for the member [error] that the services put next to [value]. *)
Inductive OpResponseField : Type := fKey | fValue | fCacheHit.

Definition opResponseFields : list (string * OpResponseField) :=
  [("key", fKey); ("value", fValue); ("cache_hit", fCacheHit)].

Definition zeroOpResponse : OpResponse :=
  {| Key := ""; Value := Nil; CacheHit := false |}.

(** One member stored into its field.  [null] leaves a string or a
    bool as it is and makes an interface nil; a value of the wrong kind
    is an [UnmarshalTypeError], after which decoding goes on. *)
Definition storeOpResponse (f : OpResponseField) (j : json)
    (v : OpResponse) (saved : option error) : OpResponse * option error :=
  match f with
  | fKey =>
      match j with
      | JString s => ({| Key := s; Value := Value v; CacheHit := CacheHit v |}, saved)
      | JNull => (v, saved)
      | _ => (v, saveError saved (UnmarshalTypeError (kind j) "OpResponse.key"))
      end
  | fValue =>
      match valueInterface j with
      | Ok a => ({| Key := Key v; Value := a; CacheHit := CacheHit v |}, saved)
      | Err e => (v, saveError saved e)
      end
  | fCacheHit =>
      match j with
      | JBool b => ({| Key := Key v; Value := Value v; CacheHit := b |}, saved)
      | JNull => (v, saved)
      | _ => (v, saveError saved (UnmarshalTypeError (kind j) "OpResponse.cache_hit"))
      end
  end.

Fixpoint objectOpResponse (members : list (string * json))
    (v : OpResponse) (saved : option error) : OpResponse * option error :=
  match members with
  | [] => (v, saved)
  | (k, j) :: rest =>
      match findField opResponseFields k with
      | Some f =>
          let '(v', saved') := storeOpResponse f j v saved in
          objectOpResponse rest v' saved'
      | None => objectOpResponse rest v saved
      end
  end.

(** [json.Unmarshal(body, &opResp)] on a zero [opResp].  [None] is a
    body that is not one well-formed JSON text. *)
Definition UnmarshalOpResponse (body : option json) : result OpResponse :=
  match body with
  | None => Err SyntaxError
  | Some JNull => Ok zeroOpResponse
  | Some (JObject members) =>
      match objectOpResponse members zeroOpResponse None with
      | (v, None) => Ok v
      | (_, Some e) => Err e
      end
  | Some j => Err (UnmarshalTypeError (kind j) "OpResponse")
  end.

(** [json.NewDecoder(r.Body).Decode(&req)] on a zero [req].  [None] is
    a body at whose head the decoder finds no JSON value: an empty
    body, or one with a syntax error before its first value ends.
    [Decode] stops reading where the first value ends. *)
Fixpoint objectAnalyseRequest (members : list (string * json))
    (v : AnalyseRequest) (saved : option error) : AnalyseRequest * option error :=
  match members with
  | [] => (v, saved)
  | (k, j) :: rest =>
      match findField [("text", tt)] k with
      | Some _ =>
          match j with
          | JString s =>
              objectAnalyseRequest rest {| AnalyseRequest_Text := s |} saved
          | JNull => objectAnalyseRequest rest v saved
          | _ =>
              objectAnalyseRequest rest v
                (saveError saved (UnmarshalTypeError (kind j) "AnalyseRequest.text"))
          end
      | None => objectAnalyseRequest rest v saved
      end
  end.

Definition DecodeAnalyseRequest (body : option json) : result AnalyseRequest :=
  match body with
  | None => Err SyntaxError
  | Some JNull => Ok {| AnalyseRequest_Text := "" |}
  | Some (JObject members) =>
      match objectAnalyseRequest members {| AnalyseRequest_Text := "" |} None with
      | (v, None) => Ok v
      | (_, Some e) => Err e
      end
  | Some j => Err (UnmarshalTypeError (kind j) "AnalyseRequest")
  end.

(** The encoder's view of an [AnalyseResponse]: the members in the
    order of the fields, none of them tagged [omitempty].  A float that
    is not finite has no JSON form and makes [Encode] fail. *)
Inductive scalar : Type :=
| VString (s : string)
| VInt (z : Z)
| VFloat (f : float64)
| VBool (b : bool).

Definition EncodeAnalyseResponse (r : AnalyseResponse)
  : result (list (string * scalar)) :=
  if isFinite (Entropy r) then
    Ok [("normalized", VString (Normalized r));
        ("transliterated", VString (Transliterated r));
        ("slug", VString (Slug r));
        ("tokens", VInt (Tokens r));
        ("unique_words", VInt (UniqueWords r));
        ("bigram_count", VInt (BigramCount r));
        ("char_count", VInt (CharCount r));
        ("unique_chars", VInt (UniqueChars r));
        ("hash64", VString (Hash64 r));
        ("entropy", VFloat (Entropy r));
        ("palindrome", VBool (Palindrome r));
        ("degraded", VBool (Degraded r))]
  else Err UnsupportedValueError.

(** ** net/http *)

Definition StatusOK : Z := 200.
Definition StatusBadRequest : Z := 400.
Definition StatusMethodNotAllowed : Z := 405.
Definition StatusInternalServerError : Z := 500.

(** [time.Second], in the nanoseconds a [time.Duration] counts. *)
Definition Second : Z := 1000000000.

(** One call of [client.Post]: where to, the content type, the body and
    the [Timeout] of the client it is made through. *)
Record HttpPost : Type := {
  post_url : string;
  post_contentType : string;
  post_body : json;
  post_timeout : Z
}.

(** What [io.ReadAll(resp.Body)] gives: an error, or the bytes, which
    are one well-formed JSON text or are not. *)
Inductive Body : Type :=
| ReadFailed (cause : string)
| Bytes (text : option json).

(** What [client.Post] gives: an error (no connection, the timeout
    passed before the header came, ...) or a response. *)
Inductive HttpReply : Type :=
| PostFailed (cause : string)
| Response (StatusCode : Z) (body : Body).

(** The inbound request, as far as the handler looks at it. *)
Record Request : Type := {
  Method : string;
  RequestBody : option json
}.

(** What a handler leaves in its [http.ResponseWriter]. *)
Inductive Written : Type :=
| Plain (text : string)
| Encoded (members : list (string * scalar))
| Nothing.

Record ResponseWriter : Type := {
  Code : Z;
  ContentType : string;
  Wrote : Written
}.

(** [http.Error(w, error, code)]. *)
Definition httpError (msg : string) (code : Z) : ResponseWriter :=
  {| Code := code;
     ContentType := "text/plain; charset=utf-8";
     Wrote := Plain (msg +:+ String "010"%char EmptyString) |}.

(** ** The eight services *)

Inductive Dep : Type :=
| normalizer | transliterator | slugger | tokenizer
| counter | hasher | entropy | palindrome.

#[global] Instance Dep_eq_dec : EqDecision Dep.
Proof. solve_decision. Defined.

(** The goroutines in the order in which [aggregateAnalysis] starts them. *)
Definition services : list Dep :=
  [normalizer; transliterator; slugger; tokenizer;
   counter; hasher; entropy; palindrome].

(** The prefix each goroutine puts before the error of its call. *)
Definition serviceName (d : Dep) : string :=
  match d with
  | normalizer => "normalizer"
  | transliterator => "transliterator"
  | slugger => "slugger"
  | tokenizer => "tokenizer"
  | counter => "counter"
  | hasher => "hasher"
  | entropy => "entropy"
  | palindrome => "palindrome"
  end.

(** A goroutine of [aggregateAnalysis]: about to call its service,
    back from the call with its result, or past [wg.Done]. *)
Inductive Goroutine : Type :=
| Calling
| Returned (r : result OpResponse)
| Done.

(** The goroutines, the variables their closures share ([response]
    and [errors], written under the mutex only), and the calls of
    [client.Post] made so far. *)
Record State : Type := {
  goroutines : Dep → Goroutine;
  response : AnalyseResponse;
  errors : list error;
  posted : list HttpPost
}.

Section Aggregator.

(** The conversion [int(f)] of a float whose truncation is no [int]
    (or that is no number): the language leaves the result to the
    implementation. *)
Variable convOverflow : float64 → Z.

(** [os.Getenv]. *)
Variable Getenv : string → string.

(** The network: the reply to the request that the goroutine of a
    service posts. *)
Variable roundTrip : Dep → HttpPost → HttpReply.

(** [int(f)] for a [float64] [f]. *)
Definition int (f : float64) : Z :=
  match truncate f with
  | Some z => if fitsInt z then z else convOverflow f
  | None => convOverflow f
  end.

Definition getEnv (key defaultValue : string) : string :=
  let value := Getenv key in
  if bool_decide (value ≠ "") then value else defaultValue.

Definition normalizerURL : string :=
  getEnv "NORMALIZER_URL" "http://normalizer.disablers.svc.cluster.local:8080".
Definition transliteratorURL : string :=
  getEnv "TRANSLITERATOR_URL" "http://transliterator.disablers.svc.cluster.local:8082".
Definition sluggerURL : string :=
  getEnv "SLUGGER_URL" "http://slugger.disablers.svc.cluster.local:8083".
Definition tokenizerURL : string :=
  getEnv "TOKENIZER_URL" "http://tokenizer.disablers.svc.cluster.local:8084".
Definition counterURL : string :=
  getEnv "COUNTER_URL" "http://counter.disablers.svc.cluster.local:8085".
Definition hasherURL : string :=
  getEnv "HASHER_URL" "http://hasher.disablers.svc.cluster.local:8086".
Definition entropyURL : string :=
  getEnv "ENTROPY_URL" "http://entropy.disablers.svc.cluster.local:8087".
Definition palindromeURL : string :=
  getEnv "PALINDROME_URL" "http://palindrome.disablers.svc.cluster.local:8088".

(** The URL the goroutine of each service passes to [callMicroservice]. *)
Definition serviceURL (d : Dep) : string :=
  match d with
  | normalizer => normalizerURL
  | transliterator => transliteratorURL
  | slugger => sluggerURL
  | tokenizer => tokenizerURL
  | counter => counterURL
  | hasher => hasherURL
  | entropy => entropyURL
  | palindrome => palindromeURL
  end.

(** [callMicroservice url text], over the remote end [remote] of the
    connection: the calls of [client.Post] it makes, and what it
    returns. *)
Definition callMicroservice (remote : HttpPost → HttpReply)
    (url text : string) : list HttpPost * result OpResponse :=
  let payload := {| OpRequest_Text := Some text; OpRequest_Deps := None |} in
  match Marshal payload with
  | Err err => ([], Err err)
  | Ok jsonData =>
      let req := {| post_url := url +:+ "/op";
                    post_contentType := "application/json";
                    post_body := jsonData;
                    post_timeout := 10 * Second |} in
      ([req],
       match remote req with
       | PostFailed cause => Err (TransportError cause)
       | Response code body =>
           if bool_decide (code ≠ StatusOK) then Err (StatusError code)
           else
             match body with
             | ReadFailed cause => Err (ReadError cause)
             | Bytes text =>
                 match UnmarshalOpResponse text with
                 | Err err => Err err
                 | Ok opResp => Ok opResp
                 end
             end
       end)
  end.

(** The branch [err == nil] of a goroutine: the type assertion on
    [resp.Value] and, when it holds, the assignment under the mutex. *)
Definition assemble (d : Dep) (resp : OpResponse) (response : AnalyseResponse)
  : AnalyseResponse :=
  match d with
  | normalizer =>
      match assertString (Value resp) with
      | Some v => set_Normalized v response
      | None => response
      end
  | transliterator =>
      match assertString (Value resp) with
      | Some v => set_Transliterated v response
      | None => response
      end
  | slugger =>
      match assertString (Value resp) with
      | Some v => set_Slug v response
      | None => response
      end
  | tokenizer =>
      match assertFloat64 (Value resp) with
      | Some v => set_Tokens (int v) response
      | None => response
      end
  | counter =>
      match assertMap (Value resp) with
      | Some data =>
          let response :=
            match assertFloat64 (index data "unique_words") with
            | Some v => set_UniqueWords (int v) response
            | None => response
            end in
          let response :=
            match assertFloat64 (index data "bigram_count") with
            | Some v => set_BigramCount (int v) response
            | None => response
            end in
          match assertFloat64 (index data "unique_chars") with
          | Some v => set_UniqueChars (int v) response
          | None => response
          end
      | None => response
      end
  | hasher =>
      match assertString (Value resp) with
      | Some v => set_Hash64 v response
      | None => response
      end
  | entropy =>
      match assertFloat64 (Value resp) with
      | Some v => set_Entropy v response
      | None => response
      end
  | palindrome =>
      match assertBool (Value resp) with
      | Some v => set_Palindrome v response
      | None => response
      end
  end.

(** What a goroutine does to the shared variables once its call is
    back: its assignment, or its [append] to [errors]. *)
Definition merge (d : Dep) (r : result OpResponse)
    (shared : AnalyseResponse * list error) : AnalyseResponse * list error :=
  match r with
  | Ok resp => (assemble d resp shared.1, shared.2)
  | Err err => (shared.1, shared.2 ++ [Wrap (serviceName d) err])
  end.

(** The state in which the goroutines are started. *)
Definition start (text : string) : State :=
  {| goroutines := λ _, Calling;
     response :=
       {| Normalized := ""; Transliterated := ""; Slug := "";
          Tokens := 0; UniqueWords := 0; BigramCount := 0;
          CharCount := Z.of_nat (String.length text);
          UniqueChars := 0; Hash64 := ""; Entropy := zeroFloat;
          Palindrome := false; Degraded := false |};
     errors := [];
     posted := [] |}.

(** One step of the goroutine of [d]: its call, or, the call being
    back, its section under the mutex and [wg.Done].  A goroutine past
    [wg.Done] has no step. *)
Definition step (text : string) (d : Dep) (s : State) : option State :=
  match goroutines s d with
  | Calling =>
      let '(sent, r) := callMicroservice (roundTrip d) (serviceURL d) text in
      Some {| goroutines := <[d := Returned r]> (goroutines s);
              response := response s;
              errors := errors s;
              posted := posted s ++ sent |}
  | Returned r =>
      let '(response', errors') := merge d r (response s, errors s) in
      Some {| goroutines := <[d := Done]> (goroutines s);
              response := response';
              errors := errors';
              posted := posted s |}
  | Done => None
  end.

(** The goroutines run as the scheduler picks them. *)
Fixpoint run (text : string) (sched : list Dep) (s : State) : option State :=
  match sched with
  | [] => Some s
  | d :: sched' =>
      match step text d s with
      | Some s' => run text sched' s'
      | None => None
      end
  end.

Definition isDone (g : Goroutine) : bool :=
  match g with Done => true | _ => false end.

(** The wait group is at zero. *)
Definition joined (s : State) : bool :=
  forallb (λ d, isDone (goroutines s d)) services.

(** The state [wg.Wait] returns in, under a schedule that lets every
    goroutine finish; [None] under one that does not. *)
Definition Wait (text : string) (sched : list Dep) : option State :=
  match run text sched (start text) with
  | Some s => if joined s then Some s else None
  | None => None
  end.

(** [aggregateAnalysis text]: the response, the error, and the calls
    of [client.Post] made on the way. *)
Definition aggregateAnalysis (text : string) (sched : list Dep)
  : option (AnalyseResponse * option error * list HttpPost) :=
  match Wait text sched with
  | None => None
  | Some s =>
      let response :=
        if (0 <? Z.of_nat (length (errors s))) then set_Degraded true (response s)
        else response s in
      Some (response, None, posted s)
  end.

(** [handleAnalyze]: what is left in the response writer, and the
    calls of [client.Post] made on the way. *)
Definition handleAnalyze (r : Request) (sched : list Dep)
  : option (ResponseWriter * list HttpPost) :=
  if bool_decide (Method r ≠ "POST") then
    Some (httpError "Method not allowed" StatusMethodNotAllowed, [])
  else
    match DecodeAnalyseRequest (RequestBody r) with
    | Err _ => Some (httpError "Invalid JSON" StatusBadRequest, [])
    | Ok req =>
        if bool_decide (AnalyseRequest_Text req = "") then
          Some (httpError "Text field is required" StatusBadRequest, [])
        else
          match aggregateAnalysis (AnalyseRequest_Text req) sched with
          | None => None
          | Some (_, Some _, sent) =>
              Some (httpError "Internal server error" StatusInternalServerError, sent)
          | Some (response, None, sent) =>
              Some ({| Code := StatusOK;
                       ContentType := "application/json";
                       Wrote :=
                         match EncodeAnalyseResponse response with
                         | Ok members => Encoded members
                         | Err _ => Nothing
                         end |}, sent)
          end
    end.

(** ** The run seen from outside *)

(** The one request and the result of the call that the goroutine of
    [d] makes. *)
Definition request (text : string) (d : Dep) : list HttpPost :=
  (callMicroservice (roundTrip d) (serviceURL d) text).1.

Definition outcome (text : string) (d : Dep) : result OpResponse :=
  (callMicroservice (roundTrip d) (serviceURL d) text).2.

(** The sections under the mutex, entered in the order [order]. *)
Definition gather (text : string) (order : list Dep)
    (shared : AnalyseResponse * list error) : AnalyseResponse * list error :=
  foldl (λ acc d, merge d (outcome text d) acc) shared order.

(** The error a goroutine appends, if its call failed. *)
Definition failure (text : string) (d : Dep) : option error :=
  match outcome text d with
  | Ok _ => None
  | Err err => Some (Wrap (serviceName d) err)
  end.

(** The table of the assembler, row by row: what each field holds
    after the join, read off the results of the calls. *)
Definition stringOf (r : result OpResponse) : string :=
  match r with
  | Ok resp => default "" (assertString (Value resp))
  | Err _ => ""
  end.

Definition intOf (v : any) : Z :=
  match assertFloat64 v with
  | Some f => int f
  | None => 0
  end.

Definition memberOf (r : result OpResponse) (k : string) : Z :=
  match r with
  | Ok resp =>
      match assertMap (Value resp) with
      | Some data => intOf (index data k)
      | None => 0
      end
  | Err _ => 0
  end.

Definition assembled (text : string) : AnalyseResponse :=
  {| Normalized := stringOf (outcome text normalizer);
     Transliterated := stringOf (outcome text transliterator);
     Slug := stringOf (outcome text slugger);
     Tokens :=
       match outcome text tokenizer with
       | Ok resp => intOf (Value resp)
       | Err _ => 0
       end;
     UniqueWords := memberOf (outcome text counter) "unique_words";
     BigramCount := memberOf (outcome text counter) "bigram_count";
     CharCount := Z.of_nat (String.length text);
     UniqueChars := memberOf (outcome text counter) "unique_chars";
     Hash64 := stringOf (outcome text hasher);
     Entropy :=
       match outcome text entropy with
       | Ok resp => default zeroFloat (assertFloat64 (Value resp))
       | Err _ => zeroFloat
       end;
     Palindrome :=
       match outcome text palindrome with
       | Ok resp => default false (assertBool (Value resp))
       | Err _ => false
       end;
     Degraded := false |}.

(** The result a goroutine holds between its call and its section
    is the result of its call. *)
Definition coherent (text : string) (s : State) : Prop :=
  ∀ d r, goroutines s d = Returned r → r = outcome text d.

End Aggregator.

End Main.
Import Main.

(** ** Schedules, shapes and failures *)

(** A schedule under which the join completes picks every goroutine
    twice: once for its call, once for its section under the mutex. *)
Definition fair (sched : list Dep) : bool :=
  forallb (λ d, Nat.eqb (count_occ Dep_eq_dec sched d) 2) services.

(** The steps a goroutine still has to take. *)
Definition pending (g : Goroutine) : nat :=
  match g with
  | Calling => 2
  | Returned _ => 1
  | Done => 0
  end.

(** The shape of [value] each goroutine asserts. *)
Definition expectedShape (d : Dep) (v : any) : bool :=
  match d with
  | normalizer | transliterator | slugger | hasher => bool_decide (is_Some (assertString v))
  | tokenizer | entropy => bool_decide (is_Some (assertFloat64 v))
  | counter => bool_decide (is_Some (assertMap v))
  | palindrome => bool_decide (is_Some (assertBool v))
  end.

(** The fields a service is the source of are at their zero values. *)
Definition fieldsZero (d : Dep) (r : AnalyseResponse) : Prop :=
  match d with
  | normalizer => Normalized r = ""
  | transliterator => Transliterated r = ""
  | slugger => Slug r = ""
  | tokenizer => Tokens r = 0
  | counter => UniqueWords r = 0 ∧ BigramCount r = 0 ∧ UniqueChars r = 0
  | hasher => Hash64 r = ""
  | entropy => Entropy r = zeroFloat
  | palindrome => Palindrome r = false
  end.

(** The ways a call fails: in the transport (no response, or the body
    cannot be read to its end), by its status, or in decoding. *)
Inductive CallFailure : HttpReply → error → Prop :=
| transportFailure cause :
    CallFailure (PostFailed cause) (TransportError cause)
| statusFailure code body :
    code ≠ StatusOK →
    CallFailure (Response code body) (StatusError code)
| readFailure cause :
    CallFailure (Response StatusOK (ReadFailed cause)) (ReadError cause)
| decodeFailure text err :
    UnmarshalOpResponse text = Err err →
    CallFailure (Response StatusOK (Bytes text)) err.

(** The request a call posts for [text] to the service at [url]: the
    body has the one member [text]. *)
Definition opPost (url text : string) : HttpPost :=
  {| post_url := url +:+ "/op";
     post_contentType := "application/json";
     post_body := JObject [("text", JString text)];
     post_timeout := 10 * Second |}.


(** The envelope a service of this repository answers with when it
    turns its input down: the members in the order of its struct, with
    [error] after [cache_hit]. *)
Definition envelope (key : string) (value : json) (cacheHit : bool)
    (msg : string) : json :=
  JObject [("key", JString key); ("value", value);
           ("cache_hit", JBool cacheHit); ("error", JString msg)].

(** The number of code points of a well-formed UTF-8 string: the bytes
    that are not continuation bytes. *)
Fixpoint runeCount (s : string) : nat :=
  match s with
  | EmptyString => 0
  | String c rest =>
      let n := N_of_ascii c in
      if ((128 <=? n) && (n <? 192))%N then runeCount rest
      else S (runeCount rest)
  end.

(** ** The addresses of the services *)

(** The variable of the environment that holds the address of each
    service, and the address the service has in the cluster, which is
    used when the variable is not set or is empty. *)
Definition addressVariable (d : Dep) : string :=
  match d with
  | normalizer => "NORMALIZER_URL"
  | transliterator => "TRANSLITERATOR_URL"
  | slugger => "SLUGGER_URL"
  | tokenizer => "TOKENIZER_URL"
  | counter => "COUNTER_URL"
  | hasher => "HASHER_URL"
  | entropy => "ENTROPY_URL"
  | palindrome => "PALINDROME_URL"
  end.

Definition clusterAddress (d : Dep) : string :=
  match d with
  | normalizer => "http://normalizer.disablers.svc.cluster.local:8080"
  | transliterator => "http://transliterator.disablers.svc.cluster.local:8082"
  | slugger => "http://slugger.disablers.svc.cluster.local:8083"
  | tokenizer => "http://tokenizer.disablers.svc.cluster.local:8084"
  | counter => "http://counter.disablers.svc.cluster.local:8085"
  | hasher => "http://hasher.disablers.svc.cluster.local:8086"
  | entropy => "http://entropy.disablers.svc.cluster.local:8087"
  | palindrome => "http://palindrome.disablers.svc.cluster.local:8088"
  end.

Definition baseURL (Getenv : string → string) (d : Dep) : string :=
  if bool_decide (Getenv (addressVariable d) = "") then clusterAddress d
  else Getenv (addressVariable d).

(** The eight addresses with [/op] behind them, when no variable of
    the environment is set. *)
Definition clusterEndpoints : list string :=
  ["http://normalizer.disablers.svc.cluster.local:8080/op";
   "http://transliterator.disablers.svc.cluster.local:8082/op";
   "http://slugger.disablers.svc.cluster.local:8083/op";
   "http://tokenizer.disablers.svc.cluster.local:8084/op";
   "http://counter.disablers.svc.cluster.local:8085/op";
   "http://hasher.disablers.svc.cluster.local:8086/op";
   "http://entropy.disablers.svc.cluster.local:8087/op";
   "http://palindrome.disablers.svc.cluster.local:8088/op"].

(** ** The body of a request on the wire *)

(** The bytes of a body as the scanner of the decoder splits them: the
    first JSON value it delimits, white space before it skipped, and
    the bytes behind that value; or no value at all, when the body is
    empty, breaks off inside its first value or has a syntax error
    there. *)
Inductive Wire : Type :=
| Garbled
| Leading (first : json) (rest : string).

(** The white space of JSON: space, tab, line feed, carriage return. *)
Definition isSpace (c : ascii) : bool :=
  let n := N_of_ascii c in
  ((n =? 32) || (n =? 9) || (n =? 10) || (n =? 13))%N.

(** The body is one JSON text: one value, with nothing but white space
    behind it. *)
Definition wellFormed (body : Wire) : bool :=
  match body with
  | Garbled => false
  | Leading _ rest => forallb isSpace (String.list_ascii_of_string rest)
  end.

(** What a handler that reads its body with
    [json.NewDecoder(r.Body).Decode] sees of a request: [Decode] reads
    the stream up to the end of its first value and returns; the bytes
    behind that value are never looked at. *)
Definition received (method : string) (body : Wire) : Request :=
  {| Method := method;
     RequestBody :=
       match body with
       | Garbled => None
       | Leading first _ => Some first
       end |}.

(** ** Instances to run the model on *)

Module Examples.

(** amd64: a conversion out of range gives the smallest [int]. *)
Definition amd64 : float64 → Z := λ _, minInt.

(** No variable of the environment is set. *)
Definition unset : string → string := λ _, "".

(** Every goroutine makes its call, then every goroutine merges. *)
Definition callsFirst : list Dep := services ++ services.

(** Every goroutine runs to its end before the next one starts. *)
Definition oneByOne : list Dep := services ≫= (λ d, [d; d]).

(** Calls and merges interleaved, the merges in another order. *)
Definition interleaved : list Dep :=
  [palindrome; counter; counter; normalizer; tokenizer; palindrome;
   hasher; slugger; tokenizer; entropy; transliterator; hasher;
   normalizer; entropy; slugger; transliterator].

(** No service can be reached. *)
Definition allDown : Dep → HttpPost → HttpReply :=
  λ _ _, PostFailed "connection refused".

(** 7.0, 6.0 and 15.0, and 3.25 for the entropy. *)
Definition f7 : float64 := S754_finite false 7 0.
Definition f6 : float64 := S754_finite false 6 0.
Definition f15 : float64 := S754_finite false 15 0.
Definition f3_25 : float64 := S754_finite false 13 (-2).

(** 7.75 and -7.75. *)
Definition f7_75 : float64 := S754_finite false 31 (-2).
Definition fm7_75 : float64 := S754_finite true 31 (-2).

(** 2^70, which no [int] holds. *)
Definition fHuge : float64 := S754_finite false 1 70.

(** 12.0 and -12.0, with the mantissa 3 and the exponent 2. *)
Definition f12 : float64 := S754_finite false 3 2.

Definition reply200 (key : string) (value : json) : HttpReply :=
  Response StatusOK
    (Bytes (Some (JObject [("key", JString key); ("value", value);
                           ("cache_hit", JBool false)]))).

(** Every service answers as in the end-to-end scenario. *)
Definition panama : Dep → HttpPost → HttpReply :=
  λ d _,
    match d with
    | normalizer => reply200 "normalized" (JString "a man a plan a canal panama")
    | transliterator =>
        reply200 "transliterated" (JString "a man a plan a canal panama")
    | slugger => reply200 "slug" (JString "a-man-a-plan-a-canal-panama")
    | tokenizer => reply200 "tokens" (JNumber f7)
    | counter =>
        reply200 "counts"
          (JObject [("unique_words", JNumber f6);
                    ("bigram_count", JNumber f6);
                    ("unique_chars", JNumber f15)])
    | hasher => reply200 "hash64" (JString "89abcdef01234567")
    | entropy => reply200 "entropy" (JNumber f3_25)
    | palindrome => reply200 "palindrome" (JBool true)
    end.

(** As [panama], with one reply replaced. *)
Definition except (d0 : Dep) (reply : HttpReply) : Dep → HttpPost → HttpReply :=
  λ d req, if bool_decide (d = d0) then reply else panama d req.

Definition panamaText : string := "A man, a plan, a canal: Panama".

(** "héllo": the e with an acute accent takes the two bytes C3 A9. *)
Definition hello : string :=
  String "h" (String "195" (String "169" "llo")).

Definition post (text : string) : Request :=
  {| Method := "POST";
     RequestBody := Some (JObject [("text", JString text)]) |}.

(** An object with the text [abc], and behind its closing brace the
    bytes [ ]]garbage ], which end no JSON text. *)
Definition trailing : Wire :=
  Leading (JObject [("text", JString "abc")]) "]]garbage".

(** A body that breaks off inside its first value, and one whose first
    value is an array. *)
Definition brokenOff : Wire := Garbled.
Definition anArray : Wire := Leading (JArray [JString "abc"]) "".

(** A variable of the environment set for the tokenizer alone. *)
Definition tokenizerMoved : string → string :=
  λ key, if bool_decide (key = "TOKENIZER_URL") then "http://localhost:9000"
         else "".

End Examples.

(** ** The fields by their source *)

(** The fields of the response that a service is the source of, as the
    encoder writes them. *)
Definition sourced (d : Dep) (r : AnalyseResponse) : list scalar :=
  match d with
  | normalizer => [VString (Normalized r)]
  | transliterator => [VString (Transliterated r)]
  | slugger => [VString (Slug r)]
  | tokenizer => [VInt (Tokens r)]
  | counter =>
      [VInt (UniqueWords r); VInt (BigramCount r); VInt (UniqueChars r)]
  | hasher => [VString (Hash64 r)]
  | entropy => [VFloat (Entropy r)]
  | palindrome => [VBool (Palindrome r)]
  end.

(** The zero values of those fields. *)
Definition unsourced (d : Dep) : list scalar :=
  match d with
  | normalizer | transliterator | slugger | hasher => [VString ""]
  | tokenizer => [VInt 0]
  | counter => [VInt 0; VInt 0; VInt 0]
  | entropy => [VFloat zeroFloat]
  | palindrome => [VBool false]
  end.

(** What a value of the shape its goroutine asserts puts into the
    fields of a service; [None] for a value of another shape.  A
    member of the counter's object that is missing or no number counts
    as 0. *)
Definition stored (convOverflow : float64 → Z) (d : Dep) (v : any)
  : option (list scalar) :=
  match d, v with
  | (normalizer | transliterator | slugger | hasher), Str s => Some [VString s]
  | tokenizer, Float64 f => Some [VInt (int convOverflow f)]
  | counter, Map data =>
      Some [VInt (intOf convOverflow (index data "unique_words"));
            VInt (intOf convOverflow (index data "bigram_count"));
            VInt (intOf convOverflow (index data "unique_chars"))]
  | entropy, Float64 f => Some [VFloat f]
  | palindrome, Bool b => Some [VBool b]
  | _, _ => None
  end.

(** The calls that failed, in the order in which the goroutines are
    started. *)
Definition failed (Getenv : string → string)
    (roundTrip : Dep → HttpPost → HttpReply) (text : string) : list Dep :=
  filter (λ d, isErr (outcome Getenv roundTrip text d) = true) services.

(** * The services behind the aggregator

    The transliterator, whose source stands behind that of the
    aggregator in [aggregator/main.go]; the slugger and the normalizer
    that validates, of [build.sh]; and the normalizer that does not,
    of [unnamed/part_001].  Their handlers are functions from a
    request and the request counter to a reply and the counter.  The
    tables of Unicode are variables of the sections that need them;
    the functions of the packages [unicode/utf8], [strings] and
    [regexp] are written out on the bytes of a string. *)

(** ** unicode/utf8 *)

Module Utf8.

(** [utf8.RuneError], U+FFFD. *)
Definition RuneError : Z := 65533.

Definition byte (c : ascii) : Z := Z.of_N (N_of_ascii c).

Definition char (z : Z) : ascii := ascii_of_N (Z.to_N z).

(** A continuation byte, 80 to BF. *)
Definition continues (c : ascii) : bool :=
  (128 <=? byte c) && (byte c <=? 191).

(** [utf8.DecodeRuneInString]: the first rune of [s] and its width in
    bytes.  A byte that starts no well-formed encoding is [RuneError]
    with width 1.  The second byte of an encoding has to lie in the
    range its first byte accepts, which keeps out the overlong forms,
    the surrogates and the values beyond U+10FFFF. *)
Definition DecodeRuneInString (s : string) : Z * nat :=
  match s with
  | EmptyString => (RuneError, 0%nat)
  | String c0 rest =>
      let s0 := byte c0 in
      if s0 <? 128 then (s0, 1%nat)
      else if (s0 <? 194) || (244 <? s0) then (RuneError, 1%nat)
      else
        let lo := if s0 =? 224 then 160 else if s0 =? 240 then 144 else 128 in
        let hi := if s0 =? 237 then 159 else if s0 =? 244 then 143 else 191 in
        match rest with
        | EmptyString => (RuneError, 1%nat)
        | String c1 rest1 =>
            let s1 := byte c1 in
            if (s1 <? lo) || (hi <? s1) then (RuneError, 1%nat)
            else if s0 <? 224 then
              (Z.lor (Z.shiftl (Z.land s0 31) 6) (Z.land s1 63), 2%nat)
            else
              match rest1 with
              | EmptyString => (RuneError, 1%nat)
              | String c2 rest2 =>
                  let s2 := byte c2 in
                  if negb (continues c2) then (RuneError, 1%nat)
                  else if s0 <? 240 then
                    (Z.lor (Z.shiftl (Z.land s0 15) 12)
                       (Z.lor (Z.shiftl (Z.land s1 63) 6) (Z.land s2 63)),
                     3%nat)
                  else
                    match rest2 with
                    | EmptyString => (RuneError, 1%nat)
                    | String c3 _ =>
                        let s3 := byte c3 in
                        if negb (continues c3) then (RuneError, 1%nat)
                        else
                          (Z.lor (Z.shiftl (Z.land s0 7) 18)
                             (Z.lor (Z.shiftl (Z.land s1 63) 12)
                                (Z.lor (Z.shiftl (Z.land s2 63) 6)
                                   (Z.land s3 63))),
                           4%nat)
                    end
              end
        end
  end.

(** [s[n:]] and [s[:n]] for [n] within the string. *)
Fixpoint from (n : nat) (s : string) : string :=
  match n, s with
  | S n', String _ rest => from n' rest
  | _, _ => s
  end.

Fixpoint upto (n : nat) (s : string) : string :=
  match n, s with
  | S n', String c rest => String c (upto n' rest)
  | _, _ => EmptyString
  end.

(** The runes a [for ... range] over a string goes through, each with
    the bytes it was decoded from.  Every rune takes a byte at least,
    so as many rounds as the string has bytes reach its end. *)
Fixpoint rangeString (rounds : nat) (s : string) : list (Z * string) :=
  match rounds with
  | O => []
  | S rounds' =>
      match s with
      | EmptyString => []
      | _ =>
          let '(r, size) := DecodeRuneInString s in
          (r, upto size s) :: rangeString rounds' (from size s)
      end
  end.

Definition range (s : string) : list (Z * string) :=
  rangeString (String.length s) s.

Definition runes (s : string) : list Z := fst <$> range s.

(** [utf8.AppendRune] to the empty string: the encoding of a rune.  A
    surrogate or a value out of range is encoded as [RuneError]. *)
Definition EncodeRune (r : Z) : string :=
  if (0 <=? r) && (r <=? 127) then String (char r) EmptyString
  else if (0 <=? r) && (r <=? 2047) then
    String (char (Z.lor 192 (Z.shiftr r 6)))
      (String (char (Z.lor 128 (Z.land r 63))) EmptyString)
  else
    let r := if (r <? 0) || (1114111 <? r) || ((55296 <=? r) && (r <=? 57343))
             then RuneError else r in
    if r <=? 65535 then
      String (char (Z.lor 224 (Z.shiftr r 12)))
        (String (char (Z.lor 128 (Z.land (Z.shiftr r 6) 63)))
           (String (char (Z.lor 128 (Z.land r 63))) EmptyString))
    else
      String (char (Z.lor 240 (Z.shiftr r 18)))
        (String (char (Z.lor 128 (Z.land (Z.shiftr r 12) 63)))
           (String (char (Z.lor 128 (Z.land (Z.shiftr r 6) 63)))
              (String (char (Z.lor 128 (Z.land r 63))) EmptyString))).

(** The rune literal ['x'] of the source, read off the string ["x"]. *)
Definition rune (s : string) : Z := (DecodeRuneInString s).1.

(** What the encoder of [encoding/json] makes of a string on the wire
    and the decoder reads back: every byte that starts no well-formed
    encoding becomes U+FFFD, everything else is kept. *)
Definition coerce (s : string) : string :=
  foldr (λ '(r, bytes) acc,
           (if (r =? RuneError) && bool_decide (String.length bytes = 1%nat)
            then EncodeRune RuneError else bytes) +:+ acc)
    EmptyString (range s).

(** A document made of Go strings as the encoder writes it. *)
Fixpoint onWire (j : json) : json :=
  match j with
  | JString s => JString (coerce s)
  | JArray elems => JArray (map onWire elems)
  | JObject members =>
      JObject (map (λ member, (coerce member.1, onWire member.2)) members)
  | _ => j
  end.

(** All bytes below 80. *)
Fixpoint isASCII (s : string) : bool :=
  match s with
  | EmptyString => true
  | String c rest => (byte c <? 128) && isASCII rest
  end.

End Utf8.

(** ** The op contract *)

(** What the services share word for word: the request, the response
    with its [error] member, the validation of the request and the
    handlers of [/healthz] and [/metrics]. *)
Module Op.

Record OpResponse : Type := {
  Key : string;
  Value : option string;
  CacheHit : bool;
  Error : string
}.

Record ValidationResult : Type := {
  Valid : bool;
  ValidationResult_Error : string
}.

(** What a handler of a service leaves in its response writer. *)
Inductive Payload : Type :=
| TextBody (text : string)
| JsonBody (j : json).

Record Reply : Type := {
  Status : Z;
  Header : string;
  Sent : Payload
}.

Definition httpError (msg : string) (code : Z) : Reply :=
  {| Status := code;
     Header := "text/plain; charset=utf-8";
     Sent := TextBody (msg +:+ String "010"%char EmptyString) |}.

(** [len(s)]. *)
Definition len (s : string) : Z := Z.of_nat (String.length s).

(** An [int64] after an addition: the sum, wrapped around. *)
Definition wrap64 (z : Z) : Z := (z + 2 ^ 63) `mod` 2 ^ 64 - 2 ^ 63.

(** *** Decoding the request *)

Inductive OpRequestField : Type := fText | fDeps.

Definition opRequestFields : list (string * OpRequestField) :=
  [("text", fText); ("deps", fDeps)].

Inductive DepsField : Type := fNormalized | fTransliterated | fTokens.

Definition depsFields : list (string * DepsField) :=
  [("normalized", fNormalized); ("transliterated", fTransliterated);
   ("tokens", fTokens)].

Definition zeroDeps : OpRequestDeps :=
  {| Deps_Normalized := None; Deps_Transliterated := None; Deps_Tokens := [] |}.

Definition zeroOpRequest : OpRequest :=
  {| OpRequest_Text := None; OpRequest_Deps := None |}.

(** A member stored into a field of type [*string]: a string is
    pointed to, [null] makes the pointer nil, and anything else is an
    error, found after a nil pointer has been made to point to an
    empty string. *)
Definition storePointer (target : string) (j : json) (old : option string)
    (saved : option error) : option string * option error :=
  match j with
  | JString s => (Some s, saved)
  | JNull => (None, saved)
  | _ => (Some (default "" old),
          saveError saved (UnmarshalTypeError (kind j) target))
  end.

(** The elements of an array stored into a [[]string].  The decoder
    writes into the slice that is there, slot by slot: [null] and a
    value that is no string leave in a slot what the array behind the
    slice holds there, which is the empty string unless an earlier
    member [tokens] has written it. *)
Fixpoint arrayStrings (elems : list json) (backing : list string)
    (saved : option error) : list string * option error :=
  match elems with
  | [] => ([], saved)
  | j :: elems' =>
      let current := hd "" backing in
      let '(x, saved) :=
        match j with
        | JString s => (s, saved)
        | JNull => (current, saved)
        | _ => (current,
                saveError saved
                  (UnmarshalTypeError (kind j) "OpRequest.deps.tokens (string)"))
        end in
      let '(xs, saved) := arrayStrings elems' (tl backing) saved in
      (x :: xs, saved)
  end.

(** The struct behind [Deps] while it is decoded: its fields, and the
    array behind [Tokens], of which the slice shows the first
    elements. *)
Record DecodingDeps : Type := {
  deps : OpRequestDeps;
  backing : list string
}.

Definition storeDeps (f : DepsField) (j : json) (v : DecodingDeps)
    (saved : option error) : DecodingDeps * option error :=
  match f with
  | fNormalized =>
      let '(p, saved) :=
        storePointer "OpRequest.deps.normalized" j
          (Deps_Normalized (deps v)) saved in
      ({| deps := {| Deps_Normalized := p;
                     Deps_Transliterated := Deps_Transliterated (deps v);
                     Deps_Tokens := Deps_Tokens (deps v) |};
          backing := backing v |}, saved)
  | fTransliterated =>
      let '(p, saved) :=
        storePointer "OpRequest.deps.transliterated" j
          (Deps_Transliterated (deps v)) saved in
      ({| deps := {| Deps_Normalized := Deps_Normalized (deps v);
                     Deps_Transliterated := p;
                     Deps_Tokens := Deps_Tokens (deps v) |};
          backing := backing v |}, saved)
  | fTokens =>
      match j with
      | JNull =>
          ({| deps := {| Deps_Normalized := Deps_Normalized (deps v);
                         Deps_Transliterated := Deps_Transliterated (deps v);
                         Deps_Tokens := [] |};
              backing := [] |}, saved)
      | JArray elems =>
          let '(xs, saved) := arrayStrings elems (backing v) saved in
          ({| deps := {| Deps_Normalized := Deps_Normalized (deps v);
                         Deps_Transliterated := Deps_Transliterated (deps v);
                         Deps_Tokens := xs |};
              backing :=
                match xs with
                | [] => []
                | _ => xs ++ drop (length xs) (backing v)
                end |}, saved)
      | _ =>
          (v, saveError saved (UnmarshalTypeError (kind j) "OpRequest.deps.tokens"))
      end
  end.

Fixpoint objectDeps (members : list (string * json)) (v : DecodingDeps)
    (saved : option error) : DecodingDeps * option error :=
  match members with
  | [] => (v, saved)
  | (k, j) :: rest =>
      match findField depsFields k with
      | Some f =>
          let '(v', saved') := storeDeps f j v saved in
          objectDeps rest v' saved'
      | None => objectDeps rest v saved
      end
  end.

(** The request while it is decoded.  [Deps] is a pointer: the struct
    it points to is made when the first value other than [null] is
    stored into it and is written into again by a later one. *)
Record DecodingRequest : Type := {
  text : option string;
  pointee : option DecodingDeps
}.

Definition storeOpRequest (f : OpRequestField) (j : json)
    (v : DecodingRequest) (saved : option error)
  : DecodingRequest * option error :=
  match f with
  | fText =>
      let '(p, saved) := storePointer "OpRequest.text" j (text v) saved in
      ({| text := p; pointee := pointee v |}, saved)
  | fDeps =>
      match j with
      | JNull => ({| text := text v; pointee := None |}, saved)
      | JObject members =>
          let '(d, saved) :=
            objectDeps members
              (default {| deps := zeroDeps; backing := [] |} (pointee v))
              saved in
          ({| text := text v; pointee := Some d |}, saved)
      | _ =>
          ({| text := text v;
              pointee :=
                Some (default {| deps := zeroDeps; backing := [] |} (pointee v)) |},
           saveError saved (UnmarshalTypeError (kind j) "OpRequest.deps"))
      end
  end.

Fixpoint objectOpRequest (members : list (string * json))
    (v : DecodingRequest) (saved : option error)
  : DecodingRequest * option error :=
  match members with
  | [] => (v, saved)
  | (k, j) :: rest =>
      match findField opRequestFields k with
      | Some f =>
          let '(v', saved') := storeOpRequest f j v saved in
          objectOpRequest rest v' saved'
      | None => objectOpRequest rest v saved
      end
  end.

(** [json.NewDecoder(r.Body).Decode(&req)] on a zero [req].  After an
    error the handlers do not look at [req], which is left out of the
    result then. *)
Definition DecodeOpRequest (body : option json) : result OpRequest :=
  match body with
  | None => Err SyntaxError
  | Some JNull => Ok zeroOpRequest
  | Some (JObject members) =>
      match objectOpRequest members {| text := None; pointee := None |} None with
      | (v, None) =>
          Ok {| OpRequest_Text := text v;
                OpRequest_Deps := deps <$> pointee v |}
      | (_, Some e) => Err e
      end
  | Some j => Err (UnmarshalTypeError (kind j) "OpRequest")
  end.

(** [json.NewEncoder(w).Encode(response)].  [error] is tagged
    [omitempty]. *)
Definition EncodeOpResponse (response : OpResponse) : json :=
  JObject
    ([("key", JString (Utf8.coerce (Key response)));
      ("value",
       match Value response with
       | None => JNull
       | Some s => JString (Utf8.coerce s)
       end);
      ("cache_hit", JBool (CacheHit response))]
     ++ (if bool_decide (Error response = "") then []
         else [("error", JString (Utf8.coerce (Error response)))])).

(** *** Validating the request *)

(** The loop of [validateDeps] over the tokens, from index [i] on. *)
Fixpoint tokensLoop (i : nat) (tokens : list string) : string :=
  match tokens with
  | [] => ""
  | token :: rest =>
      if 100 <? len token then
        "deps.tokens[" +:+ pretty i +:+ "] too long (max 100 characters)"
      else tokensLoop (S i) rest
  end.

Definition validateDeps (deps : OpRequestDeps) : string :=
  if match Deps_Normalized deps with
     | Some s => 10000 <? len s
     | None => false
     end
  then "deps.normalized too long (max 10000 characters)"
  else if match Deps_Transliterated deps with
          | Some s => 10000 <? len s
          | None => false
          end
  then "deps.transliterated too long (max 10000 characters)"
  else if 1000 <? Z.of_nat (length (Deps_Tokens deps))
  then "deps.tokens array too large (max 1000 items)"
  else tokensLoop 0 (Deps_Tokens deps).

(** The loop of [isValidUTF8] over the runes of the string. *)
Fixpoint noReplacementChar (rs : list Z) : bool :=
  match rs with
  | [] => true
  | r :: rs' => if r =? Utf8.RuneError then false else noReplacementChar rs'
  end.

Definition isValidUTF8 (s : string) : bool :=
  noReplacementChar (Utf8.runes s).

Definition validateInput (req : OpRequest) : ValidationResult :=
  let invalid msg := {| Valid := false; ValidationResult_Error := msg |} in
  match OpRequest_Text req, OpRequest_Deps req with
  | None, None =>
      invalid "Request body must contain either 'text' or 'deps' field"
  | text, deps =>
      let textError :=
        match text with
        | Some s =>
            if len s =? 0 then Some "Text field cannot be empty string"
            else if negb (isValidUTF8 s) then
              Some "Text contains invalid UTF-8 characters"
            else None
        | None => None
        end in
      match textError with
      | Some msg => invalid msg
      | None =>
          match deps with
          | Some d =>
              let err := validateDeps d in
              if bool_decide (err ≠ "") then invalid err
              else {| Valid := true; ValidationResult_Error := "" |}
          | None => {| Valid := true; ValidationResult_Error := "" |}
          end
      end
  end.

(** *** The other endpoints *)

Definition handleHealth (r : Request) : Reply :=
  if bool_decide (Method r ≠ "GET") then
    httpError "Method not allowed" StatusMethodNotAllowed
  else
    {| Status := StatusOK;
       Header := "application/json";
       Sent := JsonBody (JObject [("ok", JBool true)]) |}.

Definition newline : string := String "010"%char EmptyString.

(** [handleMetrics], reading the counter. *)
Definition handleMetrics (r : Request) (requestCounter : Z) : Reply :=
  if bool_decide (Method r ≠ "GET") then
    httpError "Method not allowed" StatusMethodNotAllowed
  else
    let count := requestCounter in
    {| Status := StatusOK;
       Header := "text/plain";
       Sent :=
         TextBody
           ("# HELP op_requests_total Total number of requests to /op endpoint"
            +:+ newline
            +:+ "# TYPE op_requests_total counter" +:+ newline
            +:+ "op_requests_total " +:+ pretty count +:+ newline) |}.

End Op.

(** ** package strings *)

Module Strings.

(** [strings.ReplaceAll(s, old, new)] for a non-empty [old], which is
    what the callers pass: the occurrences of [old] are found from the
    left and do not overlap.  [skip] counts the bytes still to pass of
    an occurrence already replaced. *)
Fixpoint replaceFrom (old new : string) (skip : nat) (s : string) : string :=
  match s with
  | EmptyString => EmptyString
  | String c rest =>
      match skip with
      | S skip' => replaceFrom old new skip' rest
      | O =>
          if String.prefix old s then
            new +:+ replaceFrom old new (String.length old - 1) rest
          else String c (replaceFrom old new 0 rest)
      end
  end.

Definition ReplaceAll (s old new : string) : string :=
  replaceFrom old new 0 s.

(** [s[:hi]], which panics when [hi] is not within the string. *)
Definition slice (s : string) (hi : Z) : option string :=
  if (0 <=? hi) && (hi <=? Z.of_nat (String.length s))
  then Some (Utf8.upto (Z.to_nat hi) s)
  else None.

(** The table [asciiSpace]: tab, line feed, vertical tab, form feed,
    carriage return and space. *)
Definition asciiSpace (c : ascii) : bool :=
  let b := Utf8.byte c in
  ((9 <=? b) && (b <=? 13)) || (b =? 32).

Definition lowerByte (c : ascii) : ascii :=
  let b := Utf8.byte c in
  if (65 <=? b) && (b <=? 90) then Utf8.char (b + 32) else c.

Fixpoint lowerBytes (s : string) : string :=
  match s with
  | EmptyString => EmptyString
  | String c rest => String (lowerByte c) (lowerBytes rest)
  end.

(** [strings.Fields] on a string of ASCII: the pieces between the
    runs of white space.  [word] holds the bytes of the piece a byte
    is read in the middle of. *)
Fixpoint fieldsFrom (word : string) (s : string) : list string :=
  match s with
  | EmptyString => if bool_decide (word = "") then [] else [word]
  | String c rest =>
      if asciiSpace c then
        if bool_decide (word = "") then fieldsFrom "" rest
        else word :: fieldsFrom "" rest
      else fieldsFrom (word +:+ String c "") rest
  end.

Section Unicode.

(** The tables of [unicode] are no part of the repository: what
    [strings.Map(unicode.ToLower, s)] and
    [strings.FieldsFunc(s, unicode.IsSpace)] make of a string that is
    not all ASCII is taken as it comes. *)
Variable mapToLower : string → string.
Variable fieldsIsSpace : string → list string.

(** [strings.ToLower]: a string of ASCII is lowered byte by byte. *)
Definition ToLower (s : string) : string :=
  if Utf8.isASCII s then lowerBytes s else mapToLower s.

Definition Fields (s : string) : list string :=
  if Utf8.isASCII s then fieldsFrom "" s else fieldsIsSpace s.

End Unicode.

Fixpoint Join (elems : list string) (sep : string) : string :=
  match elems with
  | [] => ""
  | [x] => x
  | x :: rest => x +:+ sep +:+ Join rest sep
  end.

Fixpoint Contains (s substr : string) : bool :=
  String.prefix substr s
  || match s with
     | EmptyString => false
     | String _ rest => Contains rest substr
     end.

(** [strings.LastIndex]: where [substr] starts for the last time in
    [s], or -1.  [i] is the index of the first byte of [s] in the
    whole string and [found] the last start before it. *)
Fixpoint lastIndexFrom (i : Z) (found : Z) (s substr : string) : Z :=
  let found := if String.prefix substr s then i else found in
  match s with
  | EmptyString => found
  | String _ rest => lastIndexFrom (i + 1) found rest substr
  end.

Definition LastIndex (s substr : string) : Z :=
  lastIndexFrom 0 (-1) s substr.

Definition inCutset (cutset : string) (c : ascii) : bool :=
  bool_decide (c ∈ String.list_ascii_of_string cutset).

Fixpoint TrimLeft (s cutset : string) : string :=
  match s with
  | EmptyString => EmptyString
  | String c rest => if inCutset cutset c then TrimLeft rest cutset else s
  end.

Fixpoint TrimRight (s cutset : string) : string :=
  match s with
  | EmptyString => EmptyString
  | String c rest =>
      let rest' := TrimRight rest cutset in
      if bool_decide (rest' = "") && inCutset cutset c then EmptyString
      else String c rest'
  end.

(** [strings.Trim] for a cutset of ASCII, whose members are bytes. *)
Definition Trim (s cutset : string) : string :=
  TrimLeft (TrimRight s cutset) cutset.

Definition HasSuffix (s suffix : string) : bool :=
  (String.length suffix <=? String.length s)%nat
  && bool_decide
       (Utf8.from (String.length s - String.length suffix) s = suffix).

Definition TrimSuffix (s suffix : string) : string :=
  if HasSuffix s suffix
  then Utf8.upto (String.length s - String.length suffix) s
  else s.

End Strings.

(** ** The transliterator *)

Module Transliterator.

Import Op.

(** The map [ligatures] of [replaceLigatures], in the order of the
    source. *)
Definition ligatures : list (string * string) :=
  [("æ", "ae"); ("Æ", "AE"); ("œ", "oe"); ("Œ", "OE"); ("ß", "ss");
   ("ﬀ", "ff"); ("ﬁ", "fi"); ("ﬂ", "fl"); ("ﬃ", "ffi"); ("ﬄ", "ffl");
   ("ﬅ", "st"); ("ﬆ", "st"); ("ij", "ij"); ("IJ", "IJ");
   ("ł", "l"); ("Ł", "L"); ("ø", "o"); ("Ø", "O"); ("đ", "d"); ("Đ", "D");
   ("þ", "th"); ("Þ", "TH"); ("ð", "dh"); ("Ð", "DH")].

(** The map [transliterations] of [applyASCIITransliterations], keyed
    by rune. *)
Definition transliterations : list (Z * string) :=
  (λ kv : string * string, (Utf8.rune kv.1, kv.2)) <$>
  [("α", "a"); ("β", "b"); ("γ", "g"); ("δ", "d"); ("ε", "e");
   ("ζ", "z"); ("η", "h"); ("θ", "th"); ("ι", "i"); ("κ", "k");
   ("λ", "l"); ("μ", "m"); ("ν", "n"); ("ξ", "x"); ("ο", "o");
   ("π", "p"); ("ρ", "r"); ("σ", "s"); ("ς", "s"); ("τ", "t");
   ("υ", "u"); ("φ", "ph"); ("χ", "ch"); ("ψ", "ps"); ("ω", "w");
   ("Α", "A"); ("Β", "B"); ("Γ", "G"); ("Δ", "D"); ("Ε", "E");
   ("Ζ", "Z"); ("Η", "H"); ("Θ", "TH"); ("Ι", "I"); ("Κ", "K");
   ("Λ", "L"); ("Μ", "M"); ("Ν", "N"); ("Ξ", "X"); ("Ο", "O");
   ("Π", "P"); ("Ρ", "R"); ("Σ", "S"); ("Τ", "T"); ("Υ", "U");
   ("Φ", "PH"); ("Χ", "CH"); ("Ψ", "PS"); ("Ω", "W")].

(** [transliterations[r]], with its [exists]. *)
Definition transliteration (r : Z) : option string :=
  snd <$> list_find (λ kv : Z * string, kv.1 = r) transliterations
  ≫= λ found, Some found.2.

Section Text.

(** The tables of [golang.org/x/text/unicode/norm] and of [unicode]
    are no part of the repository: the two normal forms and the class
    of the nonspacing marks are taken as they come. *)
Variables (NFD NFC : string → string) (isMn : Z → bool).

(** The order in which the runtime hands out the entries of
    [ligatures] to the [range] over the map. *)
Variable order : list (string * string).

Definition replaceLigatures (s : string) : string :=
  foldl (λ result '(ligature, replacement),
           Strings.ReplaceAll result ligature replacement) s order.

(** [transform.RemoveFunc(f)] on a string: the runes [f] holds of are
    dropped, the others are copied, and a byte that starts no
    well-formed encoding is written as U+FFFD unless [f] holds of
    that. *)
Definition RemoveFunc (f : Z → bool) (s : string) : string :=
  foldr (λ '(r, bytes) acc,
           if f r then acc
           else if (r =? Utf8.RuneError)
                   && bool_decide (String.length bytes = 1%nat)
                then Utf8.EncodeRune Utf8.RuneError +:+ acc
                else bytes +:+ acc)
    EmptyString (Utf8.range s).

(** [removeDiacritics]: the chain of [NFD], the removal of the
    nonspacing marks and [NFC]. *)
Definition removeDiacritics (s : string) : string :=
  NFC (RemoveFunc isMn (NFD s)).

Definition applyASCIITransliterations (s : string) : string :=
  foldr (λ r result,
           match transliteration r with
           | Some replacement => replacement +:+ result
           | None =>
               if r <=? 127 then Utf8.EncodeRune r +:+ result
               else Utf8.EncodeRune r +:+ result
           end)
    EmptyString (Utf8.runes s).

Definition transliterateText (s : string) : string :=
  let normalized := NFD s in
  let text := replaceLigatures normalized in
  let text := removeDiacritics text in
  let text := applyASCIITransliterations text in
  text.

End Text.

Section Handler.

(** The text of an error of [encoding/json], [err.Error()]. *)
Variable errorText : error → string.

(** The function of that name above, at some tables and some order of
    the map. *)
Variable transliterateText : string → string.

(** [handleOp], from the counter before the request to the counter
    after it. *)
Definition handleOp (r : Request) (requestCounter : Z) : Reply * Z :=
  let requestCounter := wrap64 (requestCounter + 1) in
  if bool_decide (Method r ≠ "POST") then
    (httpError "Method not allowed" StatusMethodNotAllowed, requestCounter)
  else
    let '(transliteratedValue, errorMsg) :=
      match DecodeOpRequest (RequestBody r) with
      | Err err => (None, "Invalid JSON: " +:+ errorText err)
      | Ok req =>
          let validationResult := validateInput req in
          if negb (Valid validationResult) then
            (None, ValidationResult_Error validationResult)
          else
            let fromText :=
              match OpRequest_Text req with
              | Some text =>
                  if bool_decide (text ≠ "") then (text, true) else ("", false)
              | None => ("", false)
              end in
            let '(inputText, hasInput) :=
              match OpRequest_Deps req with
              | Some deps =>
                  match Deps_Normalized deps with
                  | Some normalized =>
                      if bool_decide (normalized ≠ "") then (normalized, true)
                      else fromText
                  | None => fromText
                  end
              | None => fromText
              end in
            if hasInput then
              if 10000 <? len inputText then
                (None, "Input text too long (max 10000 characters)")
              else
                let transliterated := transliterateText inputText in
                (Some transliterated, "")
            else (None, "No normalized text in deps or text provided")
      end in
    let response :=
      {| Key := "transliterated";
         Value := transliteratedValue;
         CacheHit := false;
         Error := errorMsg |} in
    ({| Status := StatusOK;
        Header := "application/json";
        Sent := JsonBody (EncodeOpResponse response) |}, requestCounter).

(** The service as the remote end of a call of the aggregator: the
    request posted is handed to [handleOp] as it reads on the wire,
    and what [handleOp] wrote comes back as the reply. *)
Definition remote (requestCounter : Z) (req : HttpPost) : HttpReply :=
  let w := (handleOp {| Method := "POST";
                        RequestBody := Some (Utf8.onWire (post_body req)) |}
              requestCounter).1 in
  Response (Status w)
    (Bytes match Sent w with
           | JsonBody j => Some j
           | TextBody _ => None
           end).

End Handler.

End Transliterator.

(** ** What the properties of the services are stated with *)

(** The bytes the first rune of a string goes over the wire as. *)
Definition chunk (s : string) : string :=
  if ((Utf8.DecodeRuneInString s).1 =? Utf8.RuneError)
     && bool_decide
          (String.length (Utf8.upto (Utf8.DecodeRuneInString s).2 s) = 1%nat)
  then Utf8.EncodeRune Utf8.RuneError
  else Utf8.upto (Utf8.DecodeRuneInString s).2 s.

(** A request as the service that decodes it sees it. *)
Definition asSent (payload : OpRequest) : OpRequest :=
  {| OpRequest_Text := Utf8.coerce <$> OpRequest_Text payload;
     OpRequest_Deps :=
       (λ d, {| Deps_Normalized := Utf8.coerce <$> Deps_Normalized d;
                Deps_Transliterated := Utf8.coerce <$> Deps_Transliterated d;
                Deps_Tokens := Utf8.coerce <$> Deps_Tokens d |})
       <$> OpRequest_Deps payload |}.

(** The texts the transliterator takes from the aggregator: not empty,
    no byte out of place, no U+FFFD, ten thousand bytes at most. *)
Definition accepted (text : string) : bool :=
  bool_decide (text ≠ "") && Op.isValidUTF8 text && (Op.len text <=? 10000).

(** The answer of the transliterator to a POST. *)
Definition answer (value : option string) (errorMsg : string) : Op.Reply :=
  {| Op.Status := StatusOK;
     Op.Header := "application/json";
     Op.Sent :=
       Op.JsonBody
         (Op.EncodeOpResponse
            {| Op.Key := "transliterated";
               Op.Value := value;
               Op.CacheHit := false;
               Op.Error := errorMsg |}) |}.

(** The counter of the transliterator after a list of requests to
    [/op], one after the other. *)
Definition serve (errorText : error → string)
    (transliterateText : string → string) (requests : list Request)
    (requestCounter : Z) : Z :=
  foldl (λ counter r,
           (Transliterator.handleOp errorText transliterateText r counter).2)
    requestCounter requests.

(** The first entry of a table whose key the string starts with. *)
Definition firstMatch (table : list (string * string)) (s : string)
  : option (string * string) :=
  List.find (λ kv, String.prefix kv.1 s) table.

(** One pass over a string from the left: where a key of the table
    starts, its replacement is written and the key is passed over; any
    other byte is copied.  [skip] counts the bytes of a key still to
    pass. *)
Fixpoint onePassFrom (table : list (string * string)) (skip : nat)
    (s : string) : string :=
  match s with
  | EmptyString => EmptyString
  | String c rest =>
      match skip with
      | S skip' => onePassFrom table skip' rest
      | O =>
          match firstMatch table s with
          | Some (k, v) => v +:+ onePassFrom table (String.length k - 1) rest
          | None => String c (onePassFrom table 0 rest)
          end
      end
  end.

Definition onePass (table : list (string * string)) (s : string) : string :=
  onePassFrom table 0 s.

Definition firstByte (s : string) : option ascii :=
  match s with
  | EmptyString => None
  | String c _ => Some c
  end.

Definition laterBytes (s : string) : list ascii :=
  match s with
  | EmptyString => []
  | String _ rest => String.list_ascii_of_string rest
  end.

(** What the entries of a table owe each other for the order of the
    replacements not to matter: no key and no replacement is empty; no
    key starts with a byte from the inside of a key; a key that is not
    its own replacement does not start with a byte of a replacement,
    and no replacement starts with a byte from its inside; and no key
    starts with another. *)
Definition behaved (table : list (string * string)) : Prop :=
  Forall (λ kv, kv.1 ≠ "" ∧ kv.2 ≠ "") table
  ∧ Forall (λ kv, Forall (λ kv',
      Forall (λ b, firstByte kv'.1 ≠ Some b) (laterBytes kv.1)
      ∧ (kv.1 ≠ kv.2 →
         Forall (λ b, firstByte kv.1 ≠ Some b)
           (String.list_ascii_of_string kv'.2)
         ∧ Forall (λ b, firstByte kv'.2 ≠ Some b) (laterBytes kv.1))
      ∧ (String.prefix kv.1 kv'.1 = true → kv = kv')) table) table.

(** Instances for the services. *)
Module Samples.

(** The text of every error of the decoder. *)
Definition plainly : error → string := λ _, "unexpected end of JSON input".

(** Tables that leave every string as it is and know no nonspacing
    mark: right for ASCII. *)
Definition asIs : string → string := λ s, s.
Definition noMark : Z → bool := λ _, false.

(** The transliteration with these tables, the map in the order of the
    source. *)
Definition plain : string → string :=
  Transliterator.transliterateText asIs asIs noMark Transliterator.ligatures.

(** A request along the pipeline: the text, and what the normalizer
    made of it. *)
Definition chained : Request :=
  {| Method := "POST";
     RequestBody :=
       Some (JObject [("text", JString "Straße");
                      ("deps", JObject [("normalized", JString "straße")])]) |}.

Definition get : Request := {| Method := "GET"; RequestBody := None |}.

(** A POST with no body. *)
Definition empty : Request := {| Method := "POST"; RequestBody := None |}.

End Samples.

(** ** What the properties of the letters are stated with *)

(** What [applyASCIITransliterations] writes for the first rune of a
    string: the replacement the table has for it, or else the bytes
    the rune goes over the wire as. *)
Definition latin (s : string) : string :=
  default (chunk s)
    (Transliterator.transliteration (Utf8.DecodeRuneInString s).1).

(** The runes [applyASCIITransliterations] writes for a rune. *)
Definition letters (r : Z) : list Z :=
  match Transliterator.transliteration r with
  | Some replacement => Utf8.byte <$> String.list_ascii_of_string replacement
  | None => [r]
  end.

(** ** The normalizers *)

(** [normalizeText] and [stripDiacritics], which the two normalizers
    share word for word. *)
Module Normalize.

Section Text.

(** The tables of [golang.org/x/text/unicode/norm] and of [unicode],
    taken as they come. *)
Variables (NFKC NFD : string → string) (isMn : Z → bool).
Variable mapToLower : string → string.
Variable fieldsIsSpace : string → list string.

(** The loop of [stripDiacritics] over the runes of [t]. *)
Definition withoutMarks (t : string) : list Z :=
  foldr (λ r out, if isMn r then out else r :: out) [] (Utf8.runes t).

(** [string(out)] for a slice of runes. *)
Definition stringOfRunes (out : list Z) : string :=
  foldr (λ r s, Utf8.EncodeRune r +:+ s) EmptyString out.

Definition stripDiacritics (s : string) : string :=
  let t := NFD s in
  stringOfRunes (withoutMarks t).

Definition normalizeText (s : string) : string :=
  let imported := NFKC s in
  let imported := Strings.ToLower mapToLower imported in
  let imported :=
    Strings.Join (Strings.Fields fieldsIsSpace imported) " " in
  let imported := stripDiacritics imported in
  imported.

End Text.

End Normalize.

(** The normalizer that validates its requests. *)
Module Normalizer.

Import Op.

Section Handler.

Variable errorText : error → string.
Variable normalizeText : string → string.

Definition handleOp (r : Request) (requestCounter : Z) : Reply * Z :=
  let requestCounter := wrap64 (requestCounter + 1) in
  if bool_decide (Method r ≠ "POST") then
    (httpError "Method not allowed" StatusMethodNotAllowed, requestCounter)
  else
    let '(normalizedValue, errorMsg) :=
      match DecodeOpRequest (RequestBody r) with
      | Err err => (None, "Invalid JSON: " +:+ errorText err)
      | Ok req =>
          let validationResult := validateInput req in
          if negb (Valid validationResult) then
            (None, ValidationResult_Error validationResult)
          else
            match OpRequest_Text req with
            | Some text =>
                if bool_decide (text ≠ "") then
                  if 10000 <? len text then
                    (None, "Text too long (max 10000 characters)")
                  else
                    let normalized := normalizeText text in
                    (Some normalized, "")
                else (None, "No text provided or empty text")
            | None => (None, "No text provided or empty text")
            end
      end in
    let response :=
      {| Key := "normalized";
         Value := normalizedValue;
         CacheHit := false;
         Error := errorMsg |} in
    ({| Status := StatusOK;
        Header := "application/json";
        Sent := JsonBody (EncodeOpResponse response) |}, requestCounter).

(** The service as the remote end of a call of the aggregator. *)
Definition remote (requestCounter : Z) (req : HttpPost) : HttpReply :=
  let w := (handleOp {| Method := "POST";
                        RequestBody := Some (Utf8.onWire (post_body req)) |}
              requestCounter).1 in
  Response (Status w)
    (Bytes match Sent w with
           | JsonBody j => Some j
           | TextBody _ => None
           end).

End Handler.

End Normalizer.

(** The normalizer that does not: its response has no member [error],
    and a body that does not decode is answered 400. *)
Module SimpleNormalizer.

Import Op.

Section Handler.

Variable normalizeText : string → string.

Definition handleOp (r : Request) (requestCounter : Z) : Reply * Z :=
  let requestCounter := wrap64 (requestCounter + 1) in
  if bool_decide (Method r ≠ "POST") then
    (httpError "Method not allowed" StatusMethodNotAllowed, requestCounter)
  else
    match DecodeOpRequest (RequestBody r) with
    | Err err => (httpError "Invalid JSON" StatusBadRequest, requestCounter)
    | Ok req =>
        let normalized := normalizeText <$> OpRequest_Text req in
        let response :=
          {| Key := "normalized";
             Value := normalized;
             CacheHit := false;
             Error := "" |} in
        ({| Status := StatusOK;
            Header := "application/json";
            Sent := JsonBody (EncodeOpResponse response) |}, requestCounter)
    end.

(** The service as the remote end of a call of the aggregator. *)
Definition remote (requestCounter : Z) (req : HttpPost) : HttpReply :=
  let w := (handleOp {| Method := "POST";
                        RequestBody := Some (Utf8.onWire (post_body req)) |}
              requestCounter).1 in
  Response (Status w)
    (Bytes match Sent w with
           | JsonBody j => Some j
           | TextBody _ => None
           end).

End Handler.

End SimpleNormalizer.

(** ** What the properties of the normalizers are stated with *)

(** A byte of ASCII that is no capital letter. *)
Definition lowered (c : ascii) : bool :=
  (Utf8.byte c <? 128) && bool_decide (Strings.lowerByte c = c).

(** Instances for the normalizers. *)
Module NormSamples.

(** [normalizeText] at tables that leave every string as it is. *)
Definition normal : string → string :=
  Normalize.normalizeText Samples.asIs Samples.asIs Samples.noMark
    Samples.asIs (λ _, []).

End NormSamples.

(** ** The slugger *)

Module Slugger.

Import Op.

(** The class [[a-z0-9]].  It holds bytes of ASCII only, so a string
    has a rune in it where it has such a byte. *)
Definition alphanumeric (c : ascii) : bool :=
  let b := Utf8.byte c in
  ((97 <=? b) && (b <=? 122)) || ((48 <=? b) && (b <=? 57)).

(** The class [\s] of the package [regexp]: tab, line feed, form feed,
    carriage return and space. *)
Definition perlSpace (c : ascii) : bool :=
  let b := Utf8.byte c in
  (b =? 9) || (b =? 10) || (b =? 12) || (b =? 13) || (b =? 32).

(** [reg.ReplaceAllString(text, " ")] for [[^a-z0-9\s]+]: every
    longest run of runes outside the class becomes one space.  The
    class holds bytes of ASCII only, and every byte of another rune,
    or out of place, is outside ASCII: the runs of such runes are the
    runs of the bytes outside the class.  [inMatch] says that the byte
    before was such a byte. *)
Fixpoint replaceAllFrom (inMatch : bool) (text : string) : string :=
  match text with
  | EmptyString => EmptyString
  | String c rest =>
      if alphanumeric c || perlSpace c then String c (replaceAllFrom false rest)
      else if inMatch then replaceAllFrom true rest
      else String " " (replaceAllFrom true rest)
  end.

Definition ReplaceAllString (text : string) : string :=
  replaceAllFrom false text.

(** [regexp.MustCompile(`[a-z0-9]`).MatchString(word)]. *)
Fixpoint MatchString (word : string) : bool :=
  match word with
  | EmptyString => false
  | String c rest => alphanumeric c || MatchString rest
  end.

(** [truncateSlugAtWordBoundary]; [None] is the panic of a slice out
    of range. *)
Definition truncateSlugAtWordBoundary (slug : string) (maxLen : Z)
  : option string :=
  if len slug <=? maxLen then Some slug
  else
    truncated ← Strings.slice slug maxLen;
    let lastHyphen := Strings.LastIndex truncated "-" in
    if 0 <? lastHyphen then Strings.slice slug lastHyphen
    else Some truncated.

(** The loop of [cleanupSlug].  Every round takes a byte at least, so
    as many rounds as the slug has bytes reach its end. *)
Fixpoint removeDuplicateHyphens (rounds : nat) (slug : string) : string :=
  match rounds with
  | O => slug
  | S rounds' =>
      if Strings.Contains slug "--" then
        removeDuplicateHyphens rounds' (Strings.ReplaceAll slug "--" "-")
      else slug
  end.

Definition cleanupSlug (slug : string) : string :=
  let slug := removeDuplicateHyphens (String.length slug) slug in
  let slug := Strings.Trim slug "-" in
  slug.

Section Text.

Variable mapToLower : string → string.
Variable fieldsIsSpace : string → list string.

(** [generateSlug]; [None] is the panic of a slice out of range. *)
Definition generateSlug (s : string) : option string :=
  let text := Strings.ToLower mapToLower s in
  let text := ReplaceAllString text in
  let words := Strings.Fields fieldsIsSpace text in
  let validWords := filter (λ word, MatchString word = true) words in
  if bool_decide (length validWords = 0%nat) then Some ""
  else
    let slug := Strings.Join validWords "-" in
    slug ←
      (if 64 <? len slug then
         slug ← truncateSlugAtWordBoundary slug 64;
         if 64 <? len slug then
           slug ← Strings.slice slug 64;
           Some (Strings.TrimSuffix slug "-")
         else Some slug
       else Some slug);
    Some (cleanupSlug slug).

End Text.

Section Handler.

Variable errorText : error → string.

(** The function of that name above, at some tables. *)
Variable generateSlug : string → option string.

(** [handleOp], from the counter before the request to the counter
    after it.  Where the handler panics nothing has been written, and
    the server closes the connection: there is no reply. *)
Definition handleOp (r : Request) (requestCounter : Z) : option Reply * Z :=
  let requestCounter := wrap64 (requestCounter + 1) in
  if bool_decide (Method r ≠ "POST") then
    (Some (httpError "Method not allowed" StatusMethodNotAllowed),
     requestCounter)
  else
    let outcome : option (option string * string) :=
      match DecodeOpRequest (RequestBody r) with
      | Err err => Some (None, "Invalid JSON: " +:+ errorText err)
      | Ok req =>
          let validationResult := validateInput req in
          if negb (Valid validationResult) then
            Some (None, ValidationResult_Error validationResult)
          else
            let fromText :=
              match OpRequest_Text req with
              | Some text =>
                  if bool_decide (text ≠ "") then (text, true) else ("", false)
              | None => ("", false)
              end in
            let '(inputText, hasInput) :=
              match OpRequest_Deps req with
              | Some deps =>
                  match Deps_Transliterated deps with
                  | Some transliterated =>
                      if bool_decide (transliterated ≠ "")
                      then (transliterated, true)
                      else fromText
                  | None => fromText
                  end
              | None => fromText
              end in
            if hasInput then
              if 10000 <? len inputText then
                Some (None, "Input text too long (max 10000 characters)")
              else
                slug ← generateSlug inputText;
                if bool_decide (slug = "") then
                  Some (None, "No valid characters found for slug generation")
                else Some (Some slug, "")
            else Some (None, "No transliterated text in deps or text provided")
      end in
    match outcome with
    | None => (None, requestCounter)
    | Some (slugValue, errorMsg) =>
        let response :=
          {| Key := "slug";
             Value := slugValue;
             CacheHit := false;
             Error := errorMsg |} in
        (Some {| Status := StatusOK;
                 Header := "application/json";
                 Sent := JsonBody (EncodeOpResponse response) |},
         requestCounter)
    end.

(** The service as the remote end of a call of the aggregator. *)
Definition remote (requestCounter : Z) (req : HttpPost) : HttpReply :=
  match (handleOp {| Method := "POST";
                     RequestBody := Some (Utf8.onWire (post_body req)) |}
           requestCounter).1 with
  | None => PostFailed "EOF"
  | Some w =>
      Response (Status w)
        (Bytes match Sent w with
               | JsonBody j => Some j
               | TextBody _ => None
               end)
  end.

End Handler.

End Slugger.

(** ** What the properties of the slugger are stated with *)


Definition hyphen : ascii := "-"%char.

(** A slug read from the left: words of [[a-z0-9]], one hyphen
    between two words.  [afterWord] says that the byte before was a
    byte of a word. *)
Fixpoint shaped (afterWord : bool) (s : string) : bool :=
  match s with
  | EmptyString => afterWord
  | String c rest =>
      if Slugger.alphanumeric c then shaped true rest
      else if bool_decide (c = hyphen) then afterWord && shaped false rest
      else false
  end.

(** What is left of a slug that is too long. *)
Definition cut (slug : string) : string :=
  if 64 <? Op.len slug then
    let truncated := Utf8.upto 64 slug in
    let lastHyphen := Strings.LastIndex truncated "-" in
    if 0 <? lastHyphen then Utf8.upto (Z.to_nat lastHyphen) slug
    else truncated
  else slug.

(** Every byte of a string is in a class. *)
Fixpoint every (class : ascii → bool) (s : string) : bool :=
  match s with
  | EmptyString => true
  | String c rest => class c && every class rest
  end.

(** The bytes of a slug. *)
Definition slugByte (c : ascii) : bool :=
  Slugger.alphanumeric c || bool_decide (c = hyphen).

(** The words of a text, as [generateSlug] finds them. *)
Definition wordsOf (mapToLower : string → string)
    (fieldsIsSpace : string → list string) (s : string) : list string :=
  Strings.Fields fieldsIsSpace
    (Slugger.ReplaceAllString (Strings.ToLower mapToLower s)).

(** Instances for the slugger. *)
Module SlugSamples.

(** [strings.FieldsFunc] is not asked for anything. *)
Definition noFields : string → list string := λ _, [].

(** [generateSlug] at tables that leave a string that is not ASCII as
    it is. *)
Definition slugs : string → option string :=
  Slugger.generateSlug Samples.asIs noFields.

End SlugSamples.

(** * Properties *)

(** ** The services and the schedules *)

Lemma elem_of_services (d : Dep) : d ∈ services.
Proof. destruct d; unfold services; set_solver. Qed.

Lemma count_occ_services (d : Dep) : count_occ Dep_eq_dec services d = 1%nat.
Proof. by destruct d. Qed.

Lemma fair_spec (sched : list Dep) :
  fair sched = true ↔ ∀ d, count_occ Dep_eq_dec sched d = 2%nat.
Proof.
  unfold fair. rewrite forallb_forall. split.
  - intros H d. apply Nat.eqb_eq, H, list_elem_of_In, elem_of_services.
  - intros H d _. apply Nat.eqb_eq, H.
Qed.

Lemma joined_spec (s : State) :
  joined s = true ↔ ∀ d, goroutines s d = Done.
Proof.
  unfold joined. rewrite forallb_forall. split.
  - intros H d. specialize (H d). rewrite <- list_elem_of_In in H.
    specialize (H (elem_of_services d)). by destruct (goroutines s d).
  - intros H d _. by rewrite H.
Qed.

(** A list in which every service occurs once is the list of the
    services, reordered. *)
Lemma once_each_services (l : list Dep) :
  (∀ d, count_occ Dep_eq_dec l d = 1%nat) → l ≡ₚ services.
Proof.
  intros H. apply (Permutation_count_occ Dep_eq_dec). intros d.
  by rewrite H, count_occ_services.
Qed.

(** ** Decoding *)

(** A float that comes out of the decoder is finite. *)
Lemma valueInterface_finite (j : json) (f : float64) :
  valueInterface j = Ok (Float64 f) → isFinite f = true.
Proof.
  destruct j as [| b | g | s | elems | members]; simpl; try discriminate.
  - unfold convertNumber. destruct (isFinite g) eqn:E; [congruence | discriminate].
  - by destruct (arrayInterface valueInterface elems).
  - by destruct (objectInterface valueInterface members ∅).
Qed.

Lemma storeOpResponse_finite f j v saved :
  (∀ x, Value v = Float64 x → isFinite x = true) →
  ∀ x, Value (storeOpResponse f j v saved).1 = Float64 x → isFinite x = true.
Proof.
  intros Hv x. destruct f; simpl.
  - destruct j; simpl; apply Hv.
  - destruct (valueInterface j) eqn:E; simpl; [| apply Hv].
    intros ->. by apply valueInterface_finite with j.
  - destruct j; simpl; apply Hv.
Qed.

Lemma objectOpResponse_finite members : ∀ v saved,
  (∀ x, Value v = Float64 x → isFinite x = true) →
  ∀ x, Value (objectOpResponse members v saved).1 = Float64 x → isFinite x = true.
Proof.
  induction members as [| [k j] rest IH]; intros v saved Hv; simpl; [done |].
  destruct (findField opResponseFields k) as [f |]; [| by apply IH].
  pose proof (storeOpResponse_finite f j v saved Hv) as H.
  destruct (storeOpResponse f j v saved) as [v' saved']. by apply IH.
Qed.

Lemma UnmarshalOpResponse_finite body resp x :
  UnmarshalOpResponse body = Ok resp →
  Value resp = Float64 x → isFinite x = true.
Proof.
  destruct body as [[| | | | | members] |]; simpl; try discriminate.
  - by intros [= <-].
  - pose proof (objectOpResponse_finite members zeroOpResponse None) as H.
    destruct (objectOpResponse members zeroOpResponse None) as [v [e |]];
      [discriminate |].
    intros [= <-]. apply H. discriminate.
Qed.

(** A member that no field of the struct answers to is skipped,
    wherever it stands and whatever it holds. *)
Lemma objectOpResponse_skip k j before : ∀ after v saved,
  findField opResponseFields k = None →
  objectOpResponse (before ++ (k, j) :: after) v saved
  = objectOpResponse (before ++ after) v saved.
Proof.
  induction before as [| [k' j'] rest IH]; intros after v saved Hk; simpl.
  - by rewrite Hk.
  - destruct (findField opResponseFields k'); [| by apply IH].
    destruct (storeOpResponse _ j' v saved). by apply IH.
Qed.

Lemma findField_error : findField opResponseFields "error" = None.
Proof. reflexivity. Qed.

(** The envelope of a service decodes whenever its value does, to that
    value; its fourth member plays no part. *)
Lemma UnmarshalOpResponse_envelope key value cacheHit msg :
  UnmarshalOpResponse (Some (envelope key value cacheHit msg))
  = match valueInterface value with
    | Ok a => Ok {| Key := key; Value := a; CacheHit := cacheHit |}
    | Err e => Err e
    end.
Proof.
  unfold envelope, UnmarshalOpResponse, objectOpResponse.
  change (findField opResponseFields "key") with (Some fKey).
  change (findField opResponseFields "value") with (Some fValue).
  change (findField opResponseFields "cache_hit") with (Some fCacheHit).
  change (findField opResponseFields "error") with (@None OpResponseField).
  simpl. by destruct (valueInterface value).
Qed.

(** ** The call *)

Section Call.

Variables (remote : HttpPost → HttpReply) (url text : string).

Local Abbreviation req := (opPost url text).

Lemma callMicroservice_posts :
  (callMicroservice remote url text).1 = [req].
Proof. reflexivity. Qed.

Lemma callMicroservice_Err err :
  (callMicroservice remote url text).2 = Err err ↔ CallFailure (remote req) err.
Proof.
  unfold callMicroservice; simpl. fold (opPost url text). split.
  - destruct (remote req) as [cause | code [cause | body]].
    + intros [= <-]. constructor.
    + case_bool_decide as Hc; [intros [= <-]; by constructor |].
      subst code. intros [= <-]. constructor.
    + case_bool_decide as Hc; [intros [= <-]; by constructor |].
      subst code.
      destruct (UnmarshalOpResponse body) eqn:E; [discriminate |].
      intros [= <-]. by constructor.
  - intros H. inversion H as [cause | code body Hc | cause | body e He]; subst.
    + done.
    + by rewrite bool_decide_true.
    + by rewrite bool_decide_false by (intros ?; done).
    + rewrite bool_decide_false by (intros ?; done). by rewrite He.
Qed.

Lemma callMicroservice_Ok resp :
  (callMicroservice remote url text).2 = Ok resp ↔
  ∃ body, remote req = Response StatusOK (Bytes body)
          ∧ UnmarshalOpResponse body = Ok resp.
Proof.
  unfold callMicroservice; simpl. fold (opPost url text). split.
  - destruct (remote req) as [cause | code [cause | body]]; [done | | ].
    + by case_bool_decide.
    + case_bool_decide as Hc; [done |]. subst code.
      destruct (UnmarshalOpResponse body) eqn:E; [| done].
      intros [= <-]. eauto.
  - intros (body & -> & ->). by rewrite bool_decide_false by (intros ?; done).
Qed.

End Call.

(** ** The sections under the mutex *)

Section Merge.

Context (convOverflow : float64 → Z) (Getenv : string → string)
        (roundTrip : Dep → HttpPost → HttpReply) (text : string).

Local Abbreviation merge := (merge convOverflow).
Local Abbreviation outcome := (outcome Getenv roundTrip text).
Local Abbreviation failure := (failure Getenv roundTrip text).
Local Abbreviation gather := (gather convOverflow Getenv roundTrip text).
Local Abbreviation assembled := (assembled convOverflow Getenv roundTrip text).

(** The response a section leaves does not depend on the errors
    appended so far, nor the errors on the response. *)
Lemma merge_fst d r shared errs :
  (merge d r shared).1 = (merge d r (shared.1, errs)).1.
Proof. by destruct r. Qed.

Lemma merge_snd d r shared :
  (merge d r shared).2
  = shared.2 ++ match r with
                | Ok _ => []
                | Err err => [Wrap (serviceName d) err]
                end.
Proof. destruct r; simpl; by rewrite ?app_nil_r. Qed.

(** The sections of two goroutines write fields apart from each
    other: in either order they leave the same response. *)
Lemma assemble_comm d1 d2 resp1 resp2 response :
  d1 ≠ d2 →
  assemble convOverflow d1 resp1 (assemble convOverflow d2 resp2 response)
  = assemble convOverflow d2 resp2 (assemble convOverflow d1 resp1 response).
Proof.
  intros Hne. destruct d1, d2; try done; unfold assemble;
    repeat case_match; reflexivity.
Qed.

Lemma merge_comm d1 d2 r1 r2 shared :
  d1 ≠ d2 →
  (merge d1 r1 (merge d2 r2 shared)).1 = (merge d2 r2 (merge d1 r1 shared)).1.
Proof.
  intros Hne. destruct r1, r2; simpl; try done. by apply assemble_comm.
Qed.

Lemma gather_cons d order shared :
  gather (d :: order) shared = gather order (merge d (outcome d) shared).
Proof. reflexivity. Qed.

Lemma gather_fst order : ∀ shared shared',
  shared.1 = shared'.1 → (gather order shared).1 = (gather order shared').1.
Proof.
  induction order as [| d order IH]; intros shared shared' H; [done |].
  rewrite !gather_cons. apply IH.
  rewrite (merge_fst _ _ shared []), (merge_fst _ _ shared' []).
  by rewrite H.
Qed.

(** The errors are appended in the order of arrival. *)
Lemma gather_snd order : ∀ shared,
  (gather order shared).2 = shared.2 ++ omap failure order.
Proof.
  induction order as [| d order IH]; intros shared.
  - simpl. by rewrite app_nil_r.
  - rewrite gather_cons, IH, merge_snd. simpl (omap _ (_ :: _)).
    unfold failure at 2.
    destruct (outcome d); simpl; by rewrite <- ?app_assoc.
Qed.

(** The response does not depend on the order of arrival. *)
Lemma gather_perm order order' :
  order ≡ₚ order' →
  ∀ shared, (gather order shared).1 = (gather order' shared).1.
Proof.
  induction 1 as [| d l l' _ IH | d1 d2 l | l1 l2 l3 _ IH1 _ IH2];
    intros shared.
  - done.
  - rewrite !gather_cons. apply IH.
  - rewrite !gather_cons. destruct (decide (d1 = d2)) as [-> | Hne]; [done |].
    apply gather_fst. by apply merge_comm.
  - by rewrite IH1.
Qed.

(** Each section, as an assignment to its fields. *)
Lemma merge_normalizer r x errs :
  (merge normalizer r (x, errs)).1
  = set_Normalized
      match r with
      | Ok resp => default (Normalized x) (assertString (Value resp))
      | Err _ => Normalized x
      end x.
Proof. destruct x, r as [resp |]; simpl; [by destruct (assertString _) | done]. Qed.

Lemma merge_transliterator r x errs :
  (merge transliterator r (x, errs)).1
  = set_Transliterated
      match r with
      | Ok resp => default (Transliterated x) (assertString (Value resp))
      | Err _ => Transliterated x
      end x.
Proof. destruct x, r as [resp |]; simpl; [by destruct (assertString _) | done]. Qed.

Lemma merge_slugger r x errs :
  (merge slugger r (x, errs)).1
  = set_Slug
      match r with
      | Ok resp => default (Slug x) (assertString (Value resp))
      | Err _ => Slug x
      end x.
Proof. destruct x, r as [resp |]; simpl; [by destruct (assertString _) | done]. Qed.

Lemma merge_tokenizer r x errs :
  (merge tokenizer r (x, errs)).1
  = set_Tokens
      match r with
      | Ok resp =>
          match assertFloat64 (Value resp) with
          | Some f => int convOverflow f
          | None => Tokens x
          end
      | Err _ => Tokens x
      end x.
Proof. destruct x, r as [resp |]; simpl; [by destruct (assertFloat64 _) | done]. Qed.

Lemma merge_counter r x errs :
  (merge counter r (x, errs)).1
  = let member k old :=
      match r with
      | Ok resp =>
          match assertMap (Value resp) with
          | Some data =>
              match assertFloat64 (index data k) with
              | Some f => int convOverflow f
              | None => old
              end
          | None => old
          end
      | Err _ => old
      end in
    set_UniqueChars (member "unique_chars" (UniqueChars x))
      (set_BigramCount (member "bigram_count" (BigramCount x))
         (set_UniqueWords (member "unique_words" (UniqueWords x)) x)).
Proof.
  destruct x, r as [resp |]; simpl; [| done].
  destruct (assertMap _) as [data |]; [| done].
  by destruct (assertFloat64 (index data "unique_words")),
             (assertFloat64 (index data "bigram_count")),
             (assertFloat64 (index data "unique_chars")).
Qed.

Lemma merge_hasher r x errs :
  (merge hasher r (x, errs)).1
  = set_Hash64
      match r with
      | Ok resp => default (Hash64 x) (assertString (Value resp))
      | Err _ => Hash64 x
      end x.
Proof. destruct x, r as [resp |]; simpl; [by destruct (assertString _) | done]. Qed.

Lemma merge_entropy r x errs :
  (merge entropy r (x, errs)).1
  = set_Entropy
      match r with
      | Ok resp => default (Entropy x) (assertFloat64 (Value resp))
      | Err _ => Entropy x
      end x.
Proof. destruct x, r as [resp |]; simpl; [by destruct (assertFloat64 _) | done]. Qed.

Lemma merge_palindrome r x errs :
  (merge palindrome r (x, errs)).1
  = set_Palindrome
      match r with
      | Ok resp => default (Palindrome x) (assertBool (Value resp))
      | Err _ => Palindrome x
      end x.
Proof. destruct x, r as [resp |]; simpl; [by destruct (assertBool _) | done]. Qed.

(** Merged in the order in which the goroutines are started, the
    sections leave the response that the table of the assembler
    describes. *)
Lemma gather_services errs :
  (gather services (response (start text), errs)).1 = assembled.
Proof.
  unfold gather, services, foldl.
  rewrite (surjective_pairing (merge normalizer _ _)), merge_normalizer.
  rewrite (surjective_pairing (merge transliterator _ _)), merge_transliterator.
  rewrite (surjective_pairing (merge slugger _ _)), merge_slugger.
  rewrite (surjective_pairing (merge tokenizer _ _)), merge_tokenizer.
  rewrite (surjective_pairing (merge counter _ _)), merge_counter.
  rewrite (surjective_pairing (merge hasher _ _)), merge_hasher.
  rewrite (surjective_pairing (merge entropy _ _)), merge_entropy.
  rewrite merge_palindrome.
  unfold assembled, stringOf, memberOf, intOf. simpl.
  repeat match goal with |- context [outcome ?d] => destruct (outcome d) end;
  reflexivity.
Qed.

Lemma gather_assembled order errs :
  order ≡ₚ services →
  (gather order (response (start text), errs)).1 = assembled.
Proof. intros H. rewrite (gather_perm _ _ H). apply gather_services. Qed.

End Merge.

(** ** The goroutines under a schedule *)

Section Run.

Context (convOverflow : float64 → Z) (Getenv : string → string)
        (roundTrip : Dep → HttpPost → HttpReply) (text : string).

Local Abbreviation step := (step convOverflow Getenv roundTrip text).
Local Abbreviation run := (run convOverflow Getenv roundTrip text).
Local Abbreviation Wait := (Wait convOverflow Getenv roundTrip text).
Local Abbreviation request := (request Getenv roundTrip text).
Local Abbreviation outcome := (outcome Getenv roundTrip text).
Local Abbreviation failure := (failure Getenv roundTrip text).
Local Abbreviation gather := (gather convOverflow Getenv roundTrip text).
Local Abbreviation assembled := (assembled convOverflow Getenv roundTrip text).

Local Abbreviation coherent := (coherent Getenv roundTrip text).

Lemma run_cons d sched s :
  run (d :: sched) s
  = match step d s with Some s' => run sched s' | None => None end.
Proof. reflexivity. Qed.

Lemma step_Calling d s :
  goroutines s d = Calling →
  step d s = Some {| goroutines := <[d := Returned (outcome d)]> (goroutines s);
                     response := response s;
                     errors := errors s;
                     posted := posted s ++ request d |}.
Proof.
  intros H. unfold Main.step, Main.outcome, Main.request.
  rewrite H. by destruct (callMicroservice _ _ _).
Qed.

Lemma step_Returned d r s :
  goroutines s d = Returned r →
  step d s = Some {| goroutines := <[d := Done]> (goroutines s);
                     response := (merge convOverflow d r (response s, errors s)).1;
                     errors := (merge convOverflow d r (response s, errors s)).2;
                     posted := posted s |}.
Proof.
  intros H. unfold Main.step. rewrite H.
  by destruct (merge _ _ _ _).
Qed.

(** Under a schedule that picks every goroutine as often as it has
    steps left, the run ends with every goroutine past [wg.Done]; the
    sections have been entered in some order [order], the calls made
    in some order [calls]. *)
Lemma run_pending sched : ∀ s,
  (∀ d, count_occ Dep_eq_dec sched d = pending (goroutines s d)) →
  coherent s →
  ∃ s' order calls,
    run sched s = Some s'
    ∧ (∀ d, goroutines s' d = Done)
    ∧ (response s', errors s') = gather order (response s, errors s)
    ∧ posted s' = posted s ++ (calls ≫= request)
    ∧ (∀ d, count_occ Dep_eq_dec order d
            = if isDone (goroutines s d) then 0%nat else 1%nat)
    ∧ (∀ d, count_occ Dep_eq_dec calls d
            = match goroutines s d with Calling => 1%nat | _ => 0%nat end).
Proof.
  induction sched as [| d sched IH]; intros s Hcount Hco.
  - exists s, [], []. simpl. rewrite app_nil_r.
    assert (Hd : ∀ d, goroutines s d = Done).
    { intros d. specialize (Hcount d). simpl in Hcount.
      by destruct (goroutines s d). }
    repeat split; try done; intros d; by rewrite Hd.
  - pose proof (Hcount d) as Hd. rewrite count_occ_cons_eq in Hd by done.
    destruct (goroutines s d) as [| r |] eqn:Hg; simpl in Hd; [| | done].
    + (* the call *)
      destruct (IH {| goroutines := <[d := Returned (outcome d)]> (goroutines s);
                      response := response s;
                      errors := errors s;
                      posted := posted s ++ request d |})
        as (s' & order & calls & Hrun & Hdone & Hg' & Hp & Ho & Hc).
      { intros d'. simpl. destruct (decide (d = d')) as [<- | Hne].
        - rewrite fn_lookup_insert. simpl. lia.
        - rewrite fn_lookup_insert_ne by done.
          rewrite <- Hcount. by rewrite count_occ_cons_neq. }
      { intros d' r'. simpl. destruct (decide (d = d')) as [<- | Hne].
        - rewrite fn_lookup_insert. by intros [= <-].
        - rewrite fn_lookup_insert_ne by done. apply Hco. }
      exists s', order, (d :: calls). simpl in Hrun, Hg', Hp, Ho, Hc.
      rewrite run_cons, (step_Calling d s Hg). repeat split; try done.
      * by rewrite Hp, <- app_assoc.
      * intros d'. rewrite Ho. destruct (decide (d = d')) as [<- | Hne].
        -- by rewrite fn_lookup_insert, Hg.
        -- by rewrite fn_lookup_insert_ne.
      * intros d'. destruct (decide (d = d')) as [<- | Hne].
        -- rewrite count_occ_cons_eq, Hc, fn_lookup_insert, Hg; done.
        -- rewrite count_occ_cons_neq, Hc, fn_lookup_insert_ne; done.
    + (* the section under the mutex *)
      pose proof (Hco d r Hg) as ->.
      destruct (IH {| goroutines := <[d := Done]> (goroutines s);
                      response := (merge convOverflow d (outcome d) (response s, errors s)).1;
                      errors := (merge convOverflow d (outcome d) (response s, errors s)).2;
                      posted := posted s |})
        as (s' & order & calls & Hrun & Hdone & Hg' & Hp & Ho & Hc).
      { intros d'. simpl. destruct (decide (d = d')) as [<- | Hne].
        - rewrite fn_lookup_insert. simpl. lia.
        - rewrite fn_lookup_insert_ne by done.
          rewrite <- Hcount. by rewrite count_occ_cons_neq. }
      { intros d' r'. simpl. destruct (decide (d = d')) as [<- | Hne].
        - by rewrite fn_lookup_insert.
        - rewrite fn_lookup_insert_ne by done. apply Hco. }
      exists s', (d :: order), calls. simpl in Hrun, Hg', Hp, Ho, Hc.
      rewrite run_cons, (step_Returned d _ s Hg). repeat split; try done.
      * by rewrite Hg', gather_cons, <- surjective_pairing.
      * intros d'. destruct (decide (d = d')) as [<- | Hne].
        -- rewrite count_occ_cons_eq, Ho, fn_lookup_insert, Hg; done.
        -- rewrite count_occ_cons_neq, Ho, fn_lookup_insert_ne; done.
      * intros d'. rewrite Hc. destruct (decide (d = d')) as [<- | Hne].
        -- by rewrite fn_lookup_insert, Hg.
        -- by rewrite fn_lookup_insert_ne.
Qed.

(** Conversely, a run that ends with every goroutine past [wg.Done]
    has picked every goroutine as often as it had steps left. *)
Lemma run_joined sched : ∀ s s',
  run sched s = Some s' →
  (∀ d, goroutines s' d = Done) →
  ∀ d, count_occ Dep_eq_dec sched d = pending (goroutines s d).
Proof.
  induction sched as [| d sched IH]; intros s s' Hrun Hdone d'.
  - injection Hrun as <-. by rewrite Hdone.
  - simpl in Hrun. destruct (step d s) as [s1 |] eqn:Hstep; [| done].
    pose proof (IH s1 s' Hrun Hdone d') as H1.
    unfold Main.step in Hstep.
    destruct (goroutines s d) as [| r |] eqn:Hg; [| | done].
    + destruct (callMicroservice _ _ _) as [sent r]. injection Hstep as <-.
      simpl in H1. destruct (decide (d = d')) as [<- | Hne].
      * rewrite fn_lookup_insert in H1.
        rewrite count_occ_cons_eq, H1, Hg; done.
      * rewrite fn_lookup_insert_ne in H1 by done.
        by rewrite count_occ_cons_neq.
    + destruct (merge _ _ _ _) as [x errs]. injection Hstep as <-.
      simpl in H1. destruct (decide (d = d')) as [<- | Hne].
      * rewrite fn_lookup_insert in H1.
        rewrite count_occ_cons_eq, H1, Hg; done.
      * rewrite fn_lookup_insert_ne in H1 by done.
        by rewrite count_occ_cons_neq.
Qed.

(** [wg.Wait] returns under exactly the fair schedules. *)
Lemma Wait_fair sched s : Wait sched = Some s → fair sched = true.
Proof.
  unfold Main.Wait. destruct (run sched (start text)) as [s' |] eqn:Hrun; [| done].
  destruct (joined s') eqn:Hj; [| done]. intros [= ->].
  apply fair_spec. intros d.
  by rewrite (run_joined _ _ _ Hrun (proj1 (joined_spec s) Hj) d).
Qed.

(** Under a fair schedule [wg.Wait] returns, with the response that
    the table of the assembler describes, the errors of the failed
    calls in some order of arrival, and one request posted for each
    service. *)
Lemma Wait_returns sched :
  fair sched = true →
  ∃ s order calls,
    Wait sched = Some s
    ∧ order ≡ₚ services ∧ calls ≡ₚ services
    ∧ response s = assembled
    ∧ errors s = omap failure order
    ∧ posted s = calls ≫= request.
Proof.
  intros Hfair. rewrite fair_spec in Hfair.
  destruct (run_pending sched (start text)) as
    (s & order & calls & Hrun & Hdone & Hg & Hp & Ho & Hc); [done.. |].
  exists s, order, calls. unfold Main.Wait. rewrite Hrun.
  rewrite (proj2 (joined_spec s) Hdone).
  assert (Hperm : order ≡ₚ services) by by apply once_each_services.
  repeat split; try done.
  - by apply once_each_services.
  - change (response s) with (response s, errors s).1. rewrite Hg.
    by apply gather_assembled.
  - change (errors s) with (response s, errors s).2. rewrite Hg.
    by rewrite gather_snd.
Qed.

(** No step writes [CharCount] or [Degraded]. *)
Lemma merge_CharCount d r shared :
  CharCount (merge convOverflow d r shared).1 = CharCount shared.1
  ∧ Degraded (merge convOverflow d r shared).1 = Degraded shared.1.
Proof.
  destruct r as [resp |]; [| done]. destruct shared as [x errs].
  simpl. destruct d; unfold assemble; repeat case_match; done.
Qed.

Lemma step_CharCount d s s' :
  step d s = Some s' →
  CharCount (response s') = CharCount (response s)
  ∧ Degraded (response s') = Degraded (response s).
Proof.
  unfold Main.step. destruct (goroutines s d) as [| r |]; [| | done].
  - destruct (callMicroservice _ _ _). by intros [= <-].
  - pose proof (merge_CharCount d r (response s, errors s)) as H.
    destruct (merge _ _ _ _). by intros [= <-].
Qed.

Lemma run_CharCount sched : ∀ s s',
  run sched s = Some s' →
  CharCount (response s') = CharCount (response s)
  ∧ Degraded (response s') = Degraded (response s).
Proof.
  induction sched as [| d sched IH]; intros s s'; simpl.
  - by intros [= <-].
  - destruct (step d s) as [s1 |] eqn:Hstep; [| done]. intros Hrun.
    destruct (IH _ _ Hrun) as [-> ->]. by apply step_CharCount with d.
Qed.

End Run.

(** ** What [aggregateAnalysis] returns *)

Lemma serviceName_inj (d d' : Dep) : serviceName d = serviceName d' → d = d'.
Proof. by destruct d, d'. Qed.

Section Aggregate.

Context (convOverflow : float64 → Z) (Getenv : string → string)
        (roundTrip : Dep → HttpPost → HttpReply) (text : string).

Local Abbreviation Wait := (Wait convOverflow Getenv roundTrip text).
Local Abbreviation aggregateAnalysis :=
  (aggregateAnalysis convOverflow Getenv roundTrip text).
Local Abbreviation request := (request Getenv roundTrip text).
Local Abbreviation outcome := (outcome Getenv roundTrip text).
Local Abbreviation failure := (failure Getenv roundTrip text).
Local Abbreviation assembled := (assembled convOverflow Getenv roundTrip text).

Lemma request_opPost d : request d = [opPost (serviceURL Getenv d) text].
Proof. apply callMicroservice_posts. Qed.

Lemma outcome_Err d err :
  outcome d = Err err
  ↔ CallFailure (roundTrip d (opPost (serviceURL Getenv d) text)) err.
Proof. apply callMicroservice_Err. Qed.

Lemma outcome_Ok d resp :
  outcome d = Ok resp
  ↔ ∃ body,
      roundTrip d (opPost (serviceURL Getenv d) text)
      = Response StatusOK (Bytes body)
      ∧ UnmarshalOpResponse body = Ok resp.
Proof. apply callMicroservice_Ok. Qed.

Lemma outcome_finite d resp x :
  outcome d = Ok resp → Value resp = Float64 x → isFinite x = true.
Proof.
  intros (body & _ & H)%outcome_Ok. by apply UnmarshalOpResponse_finite with body.
Qed.

Lemma failure_Some d e :
  failure d = Some e ↔ ∃ err, outcome d = Err err ∧ e = Wrap (serviceName d) err.
Proof.
  unfold Main.failure. destruct (outcome d) as [resp | err]; split.
  - done.
  - by intros (? & ? & _).
  - intros [= <-]. eauto.
  - by intros (? & [= <-] & ->).
Qed.

(** The errors recorded are those of the calls that failed, each
    under the name of its service. *)
Lemma elem_of_errors order e :
  order ≡ₚ services →
  e ∈ omap failure order
  ↔ ∃ d err, outcome d = Err err ∧ e = Wrap (serviceName d) err.
Proof.
  intros Hperm. rewrite list_elem_of_omap. split.
  - intros (d & _ & (err & ? & ?)%failure_Some). eauto.
  - intros (d & err & H1 & H2). exists d. split.
    + rewrite Hperm. apply elem_of_services.
    + apply failure_Some. eauto.
Qed.

Lemma errors_nil order :
  order ≡ₚ services →
  omap failure order = [] ↔ ∀ d, isErr (outcome d) = false.
Proof.
  intros Hperm. split.
  - intros Hnil d. destruct (outcome d) as [resp | err] eqn:E; [done |].
    assert (H : Wrap (serviceName d) err ∈ omap failure order)
      by (apply elem_of_errors; eauto).
    rewrite Hnil in H. by apply not_elem_of_nil in H.
  - intros Hok. destruct (omap failure order) as [| e l] eqn:E; [done |].
    assert (H : e ∈ omap failure order) by (rewrite E; left).
    apply elem_of_errors in H as (d & err & H & _); [| done].
    specialize (Hok d). by rewrite H in Hok.
Qed.

Lemma assembled_finite : isFinite (Entropy assembled) = true.
Proof.
  simpl. destruct (outcome entropy) as [resp |] eqn:E; [| done].
  destruct (Value resp) eqn:V; try done. simpl.
  by apply outcome_finite with entropy resp.
Qed.


(** A service whose call came back with a value of another shape, or
    did not come back, is the source of no field. *)
Lemma assembled_mismatch d resp :
  outcome d = Ok resp → expectedShape d (Value resp) = false →
  fieldsZero d assembled.
Proof.
  intros Hok Hshape.
  destruct d; simpl in *; unfold stringOf, memberOf, intOf; rewrite Hok;
    destruct (Value resp); done.
Qed.

(** The whole of a run under a fair schedule. *)
Lemma aggregateAnalysis_fair sched :
  fair sched = true →
  ∃ s order calls,
    Wait sched = Some s
    ∧ order ≡ₚ services ∧ calls ≡ₚ services
    ∧ response s = assembled
    ∧ errors s = omap failure order
    ∧ posted s = calls ≫= request
    ∧ aggregateAnalysis sched
      = Some (if bool_decide (errors s = []) then assembled
              else set_Degraded true assembled, None, posted s).
Proof.
  intros Hfair.
  destruct (Wait_returns convOverflow Getenv roundTrip text sched Hfair)
    as (s & order & calls & HW & Ho & Hc & Hr & He & Hp).
  exists s, order, calls. repeat split; try done.
  unfold Main.aggregateAnalysis. rewrite HW, Hr.
  destruct (errors s); simpl; done.
Qed.

(** A run that ends is a run under a fair schedule. *)
Lemma aggregateAnalysis_Some sched r :
  aggregateAnalysis sched = Some r → fair sched = true.
Proof.
  unfold Main.aggregateAnalysis.
  destruct (Wait sched) as [s |] eqn:E; [| done]. intros _.
  by apply Wait_fair in E.
Qed.

End Aggregate.

(** ** Every order of arrival is the order of some schedule *)

Section Orders.
Context (convOverflow : float64 → Z) (Getenv : string → string)
        (roundTrip : Dep → HttpPost → HttpReply) (text : string).

Local Abbreviation run := (run convOverflow Getenv roundTrip text).
Local Abbreviation outcome := (outcome Getenv roundTrip text).
Local Abbreviation request := (request Getenv roundTrip text).
Local Abbreviation gather := (gather convOverflow Getenv roundTrip text).

Lemma run_app l1 : ∀ l2 s,
  run (l1 ++ l2) s = run l1 s ≫= run l2.
Proof.
  induction l1 as [| d l1 IH]; intros l2 s; [done |].
  simpl. destruct (Main.step _ _ _ _ d s); [apply IH | done].
Qed.

Lemma run_calls calls : ∀ s,
  NoDup calls →
  (∀ d, d ∈ calls → goroutines s d = Calling) →
  ∃ s', run calls s = Some s'
        ∧ (∀ d, goroutines s' d
                = if bool_decide (d ∈ calls) then Returned (outcome d)
                  else goroutines s d)
        ∧ response s' = response s
        ∧ errors s' = errors s
        ∧ posted s' = posted s ++ (calls ≫= request).
Proof.
  induction calls as [| d calls IH]; intros s Hnd Hcall.
  - exists s. simpl. by rewrite app_nil_r.
  - pose proof (NoDup_cons_1_1 _ _ Hnd) as Hd. apply NoDup_cons_1_2 in Hnd.
    pose proof (Hcall d ltac:(left)) as Hg.
    rewrite run_cons, (step_Calling _ _ _ _ d s Hg).
    match goal with
    | |- context [run calls ?s1] =>
        destruct (IH s1) as (s' & Hrun & Hgo & Hr & He & Hp); [done | |]
    end.
    { intros d' Hd'. simpl. rewrite fn_lookup_insert_ne by (intros ->; done).
      apply Hcall. by right. }
    exists s'. split; [exact Hrun |]. simpl in Hgo, Hr, He, Hp.
    split; [| by rewrite Hp, bind_cons, app_assoc].
    intros d'. rewrite Hgo.
    destruct (decide (d' = d)) as [-> | Hne].
    + rewrite bool_decide_false by done. rewrite fn_lookup_insert.
      by rewrite bool_decide_true by left.
    + rewrite fn_lookup_insert_ne by done.
      destruct (decide (d' ∈ calls)).
      * rewrite !bool_decide_true; [done | by right | done].
      * rewrite !bool_decide_false; [done | | done].
        by intros [? | ?]%elem_of_cons.
Qed.

Lemma NoDup_services : NoDup services.
Proof.
  apply NoDup_ListNoDup, (proj2 (NoDup_count_occ Dep_eq_dec _)).
  intros d. by rewrite count_occ_services.
Qed.

Lemma run_merges order : ∀ s,
  NoDup order →
  (∀ d, d ∈ order → goroutines s d = Returned (outcome d)) →
  ∃ s', run order s = Some s'
        ∧ (response s', errors s') = gather order (response s, errors s)
        ∧ (∀ d, goroutines s' d = if bool_decide (d ∈ order) then Done else goroutines s d)
        ∧ posted s' = posted s.
Proof.
  induction order as [| d order IH]; intros s Hnd Hret.
  - exists s. by repeat split.
  - pose proof (NoDup_cons_1_1 _ _ Hnd) as Hd. apply NoDup_cons_1_2 in Hnd.
    pose proof (Hret d ltac:(left)) as Hg.
    rewrite run_cons, (step_Returned _ _ _ _ d _ s Hg).
    match goal with
    | |- context [run order ?s1] =>
        destruct (IH s1) as (s' & Hrun & Hsh & Hgo & Hp); [done | |]
    end.
    { intros d' Hd'. simpl. rewrite fn_lookup_insert_ne by (intros ->; done).
      apply Hret. by right. }
    exists s'. split; [exact Hrun |]. simpl in Hsh, Hgo, Hp.
    split; [by rewrite Hsh, gather_cons, <- surjective_pairing |].
    split; [| done]. intros d'. rewrite Hgo.
    destruct (decide (d' = d)) as [-> | Hne].
    + rewrite bool_decide_false by done. rewrite fn_lookup_insert.
      by rewrite bool_decide_true by left.
    + rewrite fn_lookup_insert_ne by done.
      destruct (decide (d' ∈ order)).
      * rewrite !bool_decide_true; [done | by right | done].
      * rewrite !bool_decide_false; [done | | done].
        by intros [? | ?]%elem_of_cons.
Qed.

Lemma every_order_arrives order :
  order ≡ₚ services →
  fair (services ++ order) = true
  ∧ ∃ s, Main.Wait convOverflow Getenv roundTrip text (services ++ order) = Some s
         ∧ (response s, errors s) = gather order (response (start text), []).
Proof.
  intros Hperm. split.
  { apply fair_spec. intros d. rewrite count_occ_app.
    rewrite (proj1 (Permutation_count_occ Dep_eq_dec _ _) Hperm d).
    by rewrite count_occ_services. }
  destruct (run_calls services (start text)) as (s1 & Hrun1 & Hg1 & Hr1 & He1 & Hp1);
    [apply NoDup_services | done |].
  destruct (run_merges order s1) as (s & Hrun & Hsh & Hgo & Hp).
  { rewrite Hperm. apply NoDup_services. }
  { intros d _. rewrite Hg1, bool_decide_true; [done | apply elem_of_services]. }
  exists s. unfold Main.Wait. rewrite run_app, Hrun1. simpl. rewrite Hrun.
  rewrite (proj2 (joined_spec s)).
  - by rewrite Hsh, Hr1, He1.
  - intros d. rewrite Hgo, bool_decide_true; [done |].
    rewrite Hperm. apply elem_of_services.
Qed.
End Orders.

(** * The claims *)

Section Claims.

Context (convOverflow : float64 → Z) (Getenv : string → string)
        (roundTrip : Dep → HttpPost → HttpReply).

Local Abbreviation int := (int convOverflow).
Local Abbreviation run := (run convOverflow Getenv roundTrip).
Local Abbreviation Wait := (Wait convOverflow Getenv roundTrip).
Local Abbreviation aggregateAnalysis :=
  (aggregateAnalysis convOverflow Getenv roundTrip).
Local Abbreviation handleAnalyze :=
  (handleAnalyze convOverflow Getenv roundTrip).
Local Abbreviation outcome := (outcome Getenv roundTrip).
Local Abbreviation gather := (gather convOverflow Getenv roundTrip).
Local Abbreviation serviceURL := (serviceURL Getenv).

(** The error [aggregateAnalysis] returns is nil. *)
Lemma aggregateAnalysis_nil text sched response err sent :
  aggregateAnalysis text sched = Some (response, err, sent) → err = None.
Proof.
  unfold Main.aggregateAnalysis. destruct (Wait text sched); [| done].
  by intros [= _ <- _].
Qed.

(** A response that [aggregateAnalysis] returns can be encoded. *)
Lemma aggregateAnalysis_encodes text sched response err sent :
  aggregateAnalysis text sched = Some (response, err, sent) →
  CharCount response = Z.of_nat (String.length text)
  ∧ ∃ members,
      EncodeAnalyseResponse response = Ok members
      ∧ ("char_count", VInt (Z.of_nat (String.length text))) ∈ members.
Proof.
  intros H. pose proof (aggregateAnalysis_Some _ _ _ _ _ _ H) as Hfair.
  destruct (aggregateAnalysis_fair convOverflow Getenv roundTrip text sched Hfair)
    as (s & order & calls & _ & _ & _ & _ & _ & _ & Hagg).
  rewrite Hagg in H. injection H as <- _ _.
  pose proof (assembled_finite convOverflow Getenv roundTrip text) as Hfin.
  unfold EncodeAnalyseResponse.
  case_bool_decide; simpl in *; rewrite Hfin;
    (split; [done |]); eexists; (split; [done |]);
    do 6 right; left.
Qed.


(** C2: in every run in which the join completes, the response is
    degraded if and only if the error slice is not empty after the
    join, which is the case if and only if some call failed. *)
Theorem degraded_iff_errors text sched s :
  Wait text sched = Some s →
  ∃ response sent,
    aggregateAnalysis text sched = Some (response, None, sent)
    ∧ (Degraded response = true ↔ errors s ≠ [])
    ∧ Degraded response = bool_decide (0 < length (errors s))%nat
    ∧ (errors s ≠ [] ↔ ∃ d, isErr (outcome text d) = true).
Proof.
  intros HW. pose proof (Wait_fair _ _ _ _ _ _ HW) as Hfair.
  destruct (aggregateAnalysis_fair convOverflow Getenv roundTrip text sched Hfair)
    as (s' & order & calls & HW' & Ho & _ & _ & He & _ & Hagg).
  rewrite HW in HW'. injection HW' as <-.
  eexists _, _. split; [exact Hagg |].
  assert (Hiff : errors s ≠ [] ↔ ∃ d, isErr (outcome text d) = true).
  { rewrite He. split.
    - destruct (omap _ order) as [| e l] eqn:E; [done |]. intros _.
      assert (H : e ∈ omap (failure Getenv roundTrip text) order)
        by (rewrite E; left).
      apply elem_of_errors in H as (d & err & H & _); [| done].
      exists d. by rewrite H.
    - intros [d Hd] Hnil.
      pose proof (proj1 (errors_nil _ _ _ _ Ho) Hnil d) as H.
      by rewrite H in Hd. }
  split; [| split; [| done]].
  - case_bool_decide as Hnil; simpl; split; done.
  - by destruct (errors s).
Qed.

Lemma bind_request text calls :
  calls ≫= request Getenv roundTrip text
  = (λ d, opPost (serviceURL d) text) <$> calls.
Proof.
  induction calls as [| d calls IH]; [done |].
  by rewrite bind_cons, fmap_cons, IH, request_opPost.
Qed.

(** The address the goroutine of a service calls is the address of
    that service. *)
Lemma serviceURL_baseURL d : serviceURL d = baseURL Getenv d.
Proof.
  unfold baseURL.
  destruct d; simpl; unfold Main.serviceURL, normalizerURL, transliteratorURL,
    sluggerURL, tokenizerURL, counterURL, hasherURL, entropyURL, palindromeURL,
    getEnv; repeat case_bool_decide; congruence.
Qed.

Lemma posts_baseURL text (l : list Dep) :
  (λ d, opPost (serviceURL d) text) <$> l
  = (λ d, opPost (baseURL Getenv d) text) <$> l.
Proof.
  induction l as [| d l IH]; [done |].
  by rewrite !fmap_cons, IH, serviceURL_baseURL.
Qed.

(** A request that passes the validation is analysed: the answer is
    200 with the encoded response, and one request has been posted
    for each service. *)
Lemma handleAnalyze_analyses r sched text :
  Method r = "POST" →
  DecodeAnalyseRequest (RequestBody r) = Ok {| AnalyseRequest_Text := text |} →
  text ≠ "" → fair sched = true →
  ∃ members sent,
    handleAnalyze r sched
    = Some ({| Code := StatusOK;
               ContentType := "application/json";
               Wrote := Encoded members |}, sent)
    ∧ sent ≡ₚ (λ d, opPost (serviceURL d) text) <$> services.
Proof.
  intros Hm Hd Htext Hfair.
  destruct (aggregateAnalysis_fair convOverflow Getenv roundTrip text sched Hfair)
    as (s & order & calls & _ & _ & Hc & _ & _ & Hp & Hagg).
  destruct (aggregateAnalysis_encodes _ _ _ _ _ Hagg) as (_ & members & Henc & _).
  eexists members, _. split.
  - unfold Main.handleAnalyze.
    rewrite bool_decide_false by (by intros ?).
    rewrite Hd. simpl. rewrite bool_decide_false by done.
    by rewrite Hagg, Henc.
  - by rewrite Hp, bind_request, Hc.
Qed.

(** Once an error is saved, the object does not decode. *)
Lemma objectAnalyseRequest_saved members v e :
  ∃ v' e', objectAnalyseRequest members v (Some e) = (v', Some e').
Proof.
  revert v. induction members as [| [k j] rest IH]; intros v; [by eexists _, _ |].
  simpl. destruct (findField _ k); [| apply IH].
  destruct j; simpl; apply IH.
Qed.

(** A member for [text] that is neither a string nor null is an error
    of the decoder, wherever in the object it stands. *)
Lemma objectAnalyseRequest_mistyped before k j after v saved :
  findField [("text", tt)] k = Some tt →
  match j with JString _ | JNull => False | _ => True end →
  ∃ v' e',
    objectAnalyseRequest (before ++ (k, j) :: after) v saved = (v', Some e').
Proof.
  intros Hk Hj. revert v saved.
  induction before as [| [k0 j0] before IH]; intros v saved; simpl.
  - rewrite Hk.
    destruct j; try done; destruct saved; simpl;
      apply objectAnalyseRequest_saved.
  - destruct (findField _ k0); [| apply IH].
    destruct j0; apply IH.
Qed.

(** C4: a request that is not a POST is answered 405.  A POST is
    answered 400, under every schedule and with no call posted, when
    its body has no JSON value at its head, when the first value of
    its body does not decode, and when that value decodes with no
    text.  A value that is neither an object nor null does not decode,
    nor does an object whose member for [text] is neither a string nor
    null; an object without a member for [text], or with the empty
    string for it, decodes with no text.  The bytes behind the first
    value are not read: when that value decodes with a text, the
    request is analysed, one request is posted for each service and
    the answer is 200, whatever those bytes are. *)
Theorem validation_comes_first method body sched :
  (method ≠ "POST" →
   handleAnalyze (received method body) sched
   = Some (httpError "Method not allowed" StatusMethodNotAllowed, []))
  ∧ (method = "POST" → body = Garbled →
     handleAnalyze (received method body) sched
     = Some (httpError "Invalid JSON" StatusBadRequest, []))
  ∧ (∀ first rest,
       method = "POST" → body = Leading first rest →
       isErr (DecodeAnalyseRequest (Some first)) = true →
       handleAnalyze (received method body) sched
       = Some (httpError "Invalid JSON" StatusBadRequest, []))
  ∧ (∀ first rest,
       method = "POST" → body = Leading first rest →
       DecodeAnalyseRequest (Some first) = Ok {| AnalyseRequest_Text := "" |} →
       handleAnalyze (received method body) sched
       = Some (httpError "Text field is required" StatusBadRequest, []))
  ∧ (∀ first rest text,
       method = "POST" → body = Leading first rest →
       DecodeAnalyseRequest (Some first) = Ok {| AnalyseRequest_Text := text |} →
       text ≠ "" → fair sched = true →
       ∃ members sent,
         handleAnalyze (received method body) sched
         = Some ({| Code := StatusOK;
                    ContentType := "application/json";
                    Wrote := Encoded members |}, sent)
         ∧ sent ≡ₚ (λ d, opPost (baseURL Getenv d) text) <$> services
         ∧ length sent = 8%nat)
  ∧ (∀ first,
       match first with JObject _ | JNull => False | _ => True end →
       isErr (DecodeAnalyseRequest (Some first)) = true)
  ∧ (∀ before k j after,
       findField [("text", tt)] k = Some tt →
       match j with JString _ | JNull => False | _ => True end →
       isErr (DecodeAnalyseRequest (Some (JObject (before ++ (k, j) :: after))))
       = true)
  ∧ (∀ members,
       (∀ k j, (k, j) ∈ members → findField [("text", tt)] k = None) →
       DecodeAnalyseRequest (Some (JObject members))
       = Ok {| AnalyseRequest_Text := "" |})
  ∧ DecodeAnalyseRequest (Some (JObject [("text", JString "")]))
    = Ok {| AnalyseRequest_Text := "" |}.
Proof.
  split; [| split; [| split; [| split; [| split; [| split; [| split;
    [| split; [| done]]]]]]]].
  - intros Hm. unfold Main.handleAnalyze, received. cbn [Method].
    by rewrite bool_decide_true.
  - intros -> ->. unfold Main.handleAnalyze, received. cbn [Method RequestBody].
    by rewrite bool_decide_false by (by intros ?).
  - intros first rest -> -> Hd.
    unfold Main.handleAnalyze, received. cbn [Method RequestBody].
    rewrite bool_decide_false by (by intros ?).
    by destruct (DecodeAnalyseRequest (Some first)).
  - intros first rest -> -> Hd.
    unfold Main.handleAnalyze, received. cbn [Method RequestBody].
    rewrite bool_decide_false by (by intros ?).
    by rewrite Hd.
  - intros first rest text -> -> Hd Htext Hfair.
    destruct (handleAnalyze_analyses (received "POST" (Leading first rest))
                sched text) as (members & sent & Hh & Hp); [done .. |].
    exists members, sent. split; [done |].
    assert (Hb : sent ≡ₚ (λ d, opPost (baseURL Getenv d) text) <$> services).
    { by rewrite Hp, posts_baseURL. }
    split; [done |]. by rewrite Hb.
  - by intros [].
  - intros before k j after Hk Hj. simpl.
    destruct (objectAnalyseRequest_mistyped before k j after
                {| AnalyseRequest_Text := "" |} None Hk Hj) as (v' & e' & ->).
    done.
  - intros members Hmem. simpl.
    assert (G : ∀ v saved,
               objectAnalyseRequest members v saved = (v, saved)).
    { induction members as [| [k j] rest IH]; intros v saved; [done |].
      simpl. rewrite (Hmem k j) by left.
      apply IH. intros k' j' H. apply (Hmem k' j'). by right. }
    by rewrite G.
Qed.

(** C5: [char_count] is the length of the text in bytes.  It is set
    before any goroutine runs and any request is posted, no step of
    any goroutine changes it, and the encoded response always has it;
    a response is returned under every fair schedule.  The text
    [hello] has 6 bytes and 5 code points. *)
Theorem char_count_is_byte_length text :
  CharCount (response (start text)) = Z.of_nat (String.length text)
  ∧ posted (start text) = []
  ∧ (∀ sched s,
       run text sched (start text) = Some s →
       CharCount (response s) = Z.of_nat (String.length text))
  ∧ (∀ sched, fair sched = true →
       ∃ response sent members,
         aggregateAnalysis text sched = Some (response, None, sent)
         ∧ CharCount response = Z.of_nat (String.length text)
         ∧ EncodeAnalyseResponse response = Ok members
         ∧ ("char_count", VInt (Z.of_nat (String.length text))) ∈ members)
  ∧ (String.length Examples.hello = 6%nat ∧ runeCount Examples.hello = 5%nat).
Proof.
  split; [done |]. split; [done |]. split; [| split; [| done]].
  - intros sched s H. by apply run_CharCount in H as [-> _].
  - intros sched Hfair.
    destruct (aggregateAnalysis_fair convOverflow Getenv roundTrip text sched Hfair)
      as (s & order & calls & _ & _ & _ & _ & _ & _ & Hagg).
    destruct (aggregateAnalysis_encodes _ _ _ _ _ Hagg) as (Hc & members & Henc & Hin).
    eexists _, _, members. eauto.
Qed.

(** What [aggregateAnalysis] adds after the join leaves the fields
    of the services alone. *)
Lemma fieldsZero_degraded d (b : bool) x :
  fieldsZero d x → fieldsZero d (if b then x else set_Degraded true x).
Proof. by destruct b, d. Qed.

Lemma no_error_of_Ok text order d resp err :
  order ≡ₚ services →
  outcome text d = Ok resp →
  Wrap (serviceName d) err ∉ omap (failure Getenv roundTrip text) order.
Proof.
  intros Hperm Hok (d' & err' & H & [= Hname ->])%elem_of_errors; [| done].
  apply serviceName_inj in Hname as <-. by rewrite Hok in H.
Qed.

(** A call that comes back with a value of another shape than its
    goroutine asserts leaves no trace. *)
Lemma mismatch_leaves_no_trace text sched d resp :
  fair sched = true →
  outcome text d = Ok resp →
  expectedShape d (Value resp) = false →
  ∃ s order response sent,
    Wait text sched = Some s
    ∧ order ≡ₚ services
    ∧ errors s = omap (failure Getenv roundTrip text) order
    ∧ aggregateAnalysis text sched = Some (response, None, sent)
    ∧ fieldsZero d response
    ∧ (∀ err, Wrap (serviceName d) err ∉ errors s)
    ∧ ((∀ d', d' ≠ d → isErr (outcome text d') = false) →
       errors s = [] ∧ Degraded response = false).
Proof.
  intros Hfair Hok Hshape.
  destruct (aggregateAnalysis_fair convOverflow Getenv roundTrip text sched Hfair)
    as (s & order & calls & HW & Ho & _ & _ & He & _ & Hagg).
  eexists s, order, _, _. split; [exact HW |]. split; [exact Ho |].
  split; [exact He |]. split; [exact Hagg |]. split; [| split].
  - apply fieldsZero_degraded. by apply assembled_mismatch with resp.
  - intros err. rewrite He. by apply no_error_of_Ok with resp.
  - intros Hothers.
    assert (Hnil : errors s = []).
    { rewrite He. apply errors_nil; [done |]. intros d'.
      destruct (decide (d' = d)) as [-> | Hne]; [by rewrite Hok | by apply Hothers]. }
    split; [done |]. by rewrite bool_decide_true.
Qed.

(** C3: when the call of a service comes back with a value of
    another shape than its goroutine asserts, the fields of that
    service keep their zero values and no error is recorded under its
    name; if no other call fails the response is not degraded.  Every
    error recorded stands for a call that failed in the transport, by
    its status or in decoding. *)
Theorem shape_mismatch_is_silent text sched d resp :
  fair sched = true →
  outcome text d = Ok resp →
  expectedShape d (Value resp) = false →
  ∃ s response sent,
    Wait text sched = Some s
    ∧ aggregateAnalysis text sched = Some (response, None, sent)
    ∧ fieldsZero d response
    ∧ (∀ err, Wrap (serviceName d) err ∉ errors s)
    ∧ ((∀ d', d' ≠ d → isErr (outcome text d') = false) →
       errors s = [] ∧ Degraded response = false)
    ∧ (∀ e, e ∈ errors s →
         ∃ d' err,
           e = Wrap (serviceName d') err
           ∧ CallFailure (roundTrip d' (opPost (serviceURL d') text)) err).
Proof.
  intros Hfair Hok Hshape.
  destruct (mismatch_leaves_no_trace text sched d resp Hfair Hok Hshape)
    as (s & order & response & sent & HW & Ho & He & Hagg & Hz & Hne & Hdeg).
  exists s, response, sent. repeat (split; [done |]).
  intros e. rewrite He. intros (d' & err & H & ->)%elem_of_errors; [| done].
  exists d', err. split; [done |]. by apply outcome_Err.
Qed.

(** The addresses with [/op] behind them, when no variable of the
    environment is set. *)
Lemma unset_endpoints text :
  (∀ key, Getenv key = "") →
  post_url <$> ((λ d, opPost (baseURL Getenv d) text) <$> services)
  = clusterEndpoints.
Proof.
  intros Hunset. unfold baseURL, services. simpl.
  by rewrite !Hunset.
Qed.

(** C6: the goroutine of each service posts one request, to the
    address of that service followed by [/op], with the text as the
    one member of its body and a timeout of ten seconds; the address
    is the value of the variable of the environment named after the
    service or, when that is empty, the address of the service in the
    cluster.  The call fails exactly when the transport, the status or
    the decoding fails.  A run posts one such request for each of the
    eight services, all with the same text; with no variable set they
    go to the eight addresses of the cluster. *)
Theorem one_post_per_service text sched :
  fair sched = true →
  ∃ response sent,
    aggregateAnalysis text sched = Some (response, None, sent)
    ∧ sent ≡ₚ (λ d, opPost (baseURL Getenv d) text) <$> services
    ∧ (∀ d, request Getenv roundTrip text d = [opPost (baseURL Getenv d) text])
    ∧ (∀ d err,
         outcome text d = Err err
         ↔ CallFailure (roundTrip d (opPost (baseURL Getenv d) text)) err)
    ∧ (∀ url,
         post_url (opPost url text) = url +:+ "/op"
         ∧ post_body (opPost url text) = JObject [("text", JString text)]
         ∧ post_timeout (opPost url text) = 10 * 1000000000)
    ∧ Marshal {| OpRequest_Text := Some text; OpRequest_Deps := None |}
      = Ok (JObject [("text", JString text)])
    ∧ (∀ d,
         Getenv (addressVariable d) = "" →
         request Getenv roundTrip text d = [opPost (clusterAddress d) text])
    ∧ (∀ d,
         Getenv (addressVariable d) ≠ "" →
         request Getenv roundTrip text d
         = [opPost (Getenv (addressVariable d)) text])
    ∧ ((∀ key, Getenv key = "") → post_url <$> sent ≡ₚ clusterEndpoints).
Proof.
  intros Hfair.
  destruct (aggregateAnalysis_fair convOverflow Getenv roundTrip text sched Hfair)
    as (s & order & calls & _ & _ & Hc & _ & _ & Hp & Hagg).
  eexists _, _. split; [exact Hagg |].
  assert (Hsent : posted s ≡ₚ (λ d, opPost (baseURL Getenv d) text) <$> services).
  { by rewrite Hp, bind_request, Hc, posts_baseURL. }
  assert (Hreq : ∀ d, request Getenv roundTrip text d
                      = [opPost (baseURL Getenv d) text]).
  { intros d. by rewrite request_opPost, serviceURL_baseURL. }
  split; [done |]. split; [done |].
  split; [| split; [done |]; split; [done |]; split; [| split]].
  - intros d err. rewrite <- serviceURL_baseURL. apply outcome_Err.
  - intros d Hd. rewrite Hreq. unfold baseURL. by rewrite Hd.
  - intros d Hd. rewrite Hreq. unfold baseURL. by rewrite bool_decide_false.
  - intros Hunset. by rewrite Hsent, unset_endpoints.
Qed.

(** C7: the sections under the mutex leave the same response in
    whatever order they are entered, and the same errors up to their
    order; so any two fair schedules end in the same response.  Every
    fair schedule enters the sections in some order of the eight,
    every order of the eight is entered under some fair schedule, and
    the sections of two different goroutines commute, writing fields
    apart from each other. *)
Theorem merge_order_is_irrelevant text order order' :
  order ≡ₚ services → order' ≡ₚ services →
  (gather text order (response (start text), [])).1
  = (gather text order' (response (start text), [])).1
  ∧ (gather text order (response (start text), [])).2
    ≡ₚ (gather text order' (response (start text), [])).2
  ∧ (∀ sched sched',
       fair sched = true → fair sched' = true →
       ∃ response sent sent',
         aggregateAnalysis text sched = Some (response, None, sent)
         ∧ aggregateAnalysis text sched' = Some (response, None, sent'))
  ∧ (∀ sched,
       fair sched = true →
       ∃ s arrival,
         arrival ≡ₚ services
         ∧ Wait text sched = Some s
         ∧ (response s, errors s)
           = gather text arrival (response (start text), []))
  ∧ (fair (services ++ order) = true
     ∧ ∃ s, Wait text (services ++ order) = Some s
            ∧ (response s, errors s)
              = gather text order (response (start text), []))
  ∧ (∀ d1 d2 resp1 resp2 x,
       d1 ≠ d2 →
       assemble convOverflow d1 resp1 (assemble convOverflow d2 resp2 x)
       = assemble convOverflow d2 resp2 (assemble convOverflow d1 resp1 x)).
Proof.
  intros Ho Ho'. split; [| split; [| split; [| split; [| split]]]].
  - apply gather_perm. by rewrite Ho, Ho'.
  - rewrite !gather_snd. simpl. by rewrite Ho, Ho'.
  - intros sched sched' Hfair Hfair'.
    destruct (aggregateAnalysis_fair convOverflow Getenv roundTrip text sched Hfair)
      as (s & o & c & _ & Hpo & _ & _ & He & _ & Hagg).
    destruct (aggregateAnalysis_fair convOverflow Getenv roundTrip text sched' Hfair')
      as (s' & o' & c' & _ & Hpo' & _ & _ & He' & _ & Hagg').
    eexists _, _, _. split; [exact Hagg |]. rewrite Hagg'.
    assert (Hiff : errors s = [] ↔ errors s' = []).
    { rewrite He, He'. by rewrite !errors_nil. }
    do 2 f_equal. f_equal. do 2 case_bool_decide; tauto.
  - intros sched Hfair.
    destruct (aggregateAnalysis_fair convOverflow Getenv roundTrip text sched Hfair)
      as (s & o & c & HW & Hpo & _ & Hr & He & _ & _).
    exists s, o. split; [done |]. split; [done |].
    rewrite (surjective_pairing (gather _ _ _)).
    by rewrite gather_snd, gather_assembled, Hr, He.
  - by apply every_order_arrives.
  - intros. by apply assemble_comm.
Qed.



Lemma final_fields (b : bool) x :
  let r := if b then x else set_Degraded true x in
  Tokens r = Tokens x ∧ UniqueWords r = UniqueWords x
  ∧ BigramCount r = BigramCount x ∧ UniqueChars r = UniqueChars x.
Proof. by destruct b. Qed.


(** C9: when a service answers 200 with the envelope it uses to turn
    its input down, an [error] member next to a [value] that is null
    or of another shape than its goroutine asserts, the call succeeds
    with that value: the fields of the service keep their zero
    values, no error is recorded under its name, and if no other call
    fails the response is not degraded.  A member [error] is skipped
    by the decoder wherever it stands, and a null value has the shape
    no goroutine asserts. *)
Theorem application_error_is_ignored text sched d key value cacheHit msg a :
  fair sched = true →
  roundTrip d (opPost (serviceURL d) text)
  = Response StatusOK (Bytes (Some (envelope key value cacheHit msg))) →
  valueInterface value = Ok a →
  expectedShape d a = false →
  outcome text d = Ok {| Key := key; Value := a; CacheHit := cacheHit |}
  ∧ (∃ s response sent,
       Wait text sched = Some s
       ∧ aggregateAnalysis text sched = Some (response, None, sent)
       ∧ fieldsZero d response
       ∧ (∀ err, Wrap (serviceName d) err ∉ errors s)
       ∧ ((∀ d', d' ≠ d → isErr (outcome text d') = false) →
          errors s = [] ∧ Degraded response = false))
  ∧ (∀ before after j v saved,
       objectOpResponse (before ++ ("error", j) :: after) v saved
       = objectOpResponse (before ++ after) v saved)
  ∧ (valueInterface JNull = Ok Nil ∧ ∀ d', expectedShape d' Nil = false).
Proof.
  intros Hfair Hreply Hvalue Hshape.
  assert (Hok : outcome text d
                = Ok {| Key := key; Value := a; CacheHit := cacheHit |}).
  { apply outcome_Ok. eexists. split; [exact Hreply |].
    by rewrite UnmarshalOpResponse_envelope, Hvalue. }
  split; [done |]. split; [| split].
  - destruct (mismatch_leaves_no_trace text sched d _ Hfair Hok Hshape)
      as (s & order & response & sent & HW & _ & _ & Hagg & Hz & Hne & Hdeg).
    exists s, response, sent. eauto.
  - intros. by apply objectOpResponse_skip.
  - split; [done |]. by intros [].
Qed.

(** C10: when the call of the counter comes back with an object,
    each of [unique_words], [bigram_count] and [unique_chars] is the
    conversion of the member of its name if the object has one and it
    is a number, and 0 otherwise, whatever the other two members are;
    no error is recorded under the name of the counter. *)
Theorem counter_fields_are_independent text sched resp data :
  fair sched = true →
  outcome text counter = Ok resp →
  Value resp = Map data →
  ∃ s response sent,
    Wait text sched = Some s
    ∧ aggregateAnalysis text sched = Some (response, None, sent)
    ∧ UniqueWords response
      = match data !! "unique_words" with
        | Some (Float64 f) => int f
        | _ => 0
        end
    ∧ BigramCount response
      = match data !! "bigram_count" with
        | Some (Float64 f) => int f
        | _ => 0
        end
    ∧ UniqueChars response
      = match data !! "unique_chars" with
        | Some (Float64 f) => int f
        | _ => 0
        end
    ∧ (∀ err, Wrap "counter" err ∉ errors s).
Proof.
  intros Hfair Hok Hmap.
  destruct (aggregateAnalysis_fair convOverflow Getenv roundTrip text sched Hfair)
    as (s & order & calls & HW & Ho & _ & _ & He & _ & Hagg).
  eexists s, _, _. split; [exact HW |]. split; [exact Hagg |].
  destruct (final_fields (bool_decide (errors s = []))
              (assembled convOverflow Getenv roundTrip text))
    as (_ & -> & -> & ->).
  simpl. unfold memberOf, intOf, index. rewrite Hok, Hmap. simpl.
  split; [| split; [| split]].
  - by destruct (data !! "unique_words") as [[] |].
  - by destruct (data !! "bigram_count") as [[] |].
  - by destruct (data !! "unique_chars") as [[] |].
  - intros err. rewrite He.
    by apply (no_error_of_Ok text order counter resp).
Qed.

End Claims.

(** * The claims on concrete runs *)

Import Examples.

(** The end-to-end scenario: every service answers. *)
Example panama_all_up :
  (λ r, r.1) <$> aggregateAnalysis amd64 unset panama panamaText interleaved
  = Some ({| Normalized := "a man a plan a canal panama";
             Transliterated := "a man a plan a canal panama";
             Slug := "a-man-a-plan-a-canal-panama";
             Tokens := 7; UniqueWords := 6; BigramCount := 6;
             CharCount := 30; UniqueChars := 15;
             Hash64 := "89abcdef01234567"; Entropy := f3_25;
             Palindrome := true; Degraded := false |}, None).
Proof. vm_compute. reflexivity. Qed.

(** The palindrome service alone fails: its field stays false, the
    others are set, the response is degraded. *)
Example panama_one_down :
  (λ r, r.1)
    <$> aggregateAnalysis amd64 unset
          (except palindrome (PostFailed "context deadline exceeded"))
          panamaText callsFirst
  = Some ({| Normalized := "a man a plan a canal panama";
             Transliterated := "a man a plan a canal panama";
             Slug := "a-man-a-plan-a-canal-panama";
             Tokens := 7; UniqueWords := 6; BigramCount := 6;
             CharCount := 30; UniqueChars := 15;
             Hash64 := "89abcdef01234567"; Entropy := f3_25;
             Palindrome := false; Degraded := true |}, None).
Proof. vm_compute. reflexivity. Qed.

(** A schedule that leaves a goroutine short of its section never gets
    past [wg.Wait]. *)
Example unfair_never_joins :
  aggregateAnalysis amd64 unset panama panamaText
    [normalizer; normalizer; slugger] = None.
Proof. vm_compute. reflexivity. Qed.

(** Truncation is toward zero on both sides of it; beyond the range of
    [int] the conversion is what the platform makes of it. *)
Example int_examples :
  int amd64 f7_75 = 7 ∧ int amd64 fm7_75 = -7 ∧ int amd64 fHuge = minInt.
Proof. by vm_compute. Qed.

(** The members of an envelope are matched to the fields without
    regard to case; [error] matches none. *)
Example findField_examples :
  findField opResponseFields "value" = Some fValue
  ∧ findField opResponseFields "VALUE" = Some fValue
  ∧ findField opResponseFields "Cache_Hit" = Some fCacheHit
  ∧ findField opResponseFields "error" = None.
Proof. by vm_compute. Qed.


(** With every call failing, the join completes with eight errors and
    the response is degraded. *)
Lemma degraded_iff_errors_witness :
  ∃ s, Wait amd64 unset allDown panamaText interleaved = Some s
       ∧ length (errors s) = 8%nat
       ∧ ∃ response sent,
           aggregateAnalysis amd64 unset allDown panamaText interleaved
           = Some (response, None, sent)
           ∧ Degraded response = true.
Proof.
  assert (H : ∃ s, Wait amd64 unset allDown panamaText interleaved = Some s
                   ∧ length (errors s) = 8%nat).
  { assert (Hlen : (λ s, length (errors s))
                     <$> Wait amd64 unset allDown panamaText interleaved
                   = Some 8%nat) by (vm_compute; reflexivity).
    destruct (Wait amd64 unset allDown panamaText interleaved) as [s |];
      [| discriminate Hlen].
    injection Hlen as Hlen. exists s. split; [reflexivity | exact Hlen]. }
  destruct H as (s & HW & Hlen).
  exists s. split; [exact HW |]. split; [exact Hlen |].
  destruct (degraded_iff_errors amd64 unset allDown panamaText interleaved s HW)
    as (response & sent & Hagg & Hiff & _).
  exists response, sent. split; [exact Hagg |].
  apply Hiff. intros Hnil. rewrite Hnil in Hlen. discriminate Hlen.
Defined.

(** The normalizer answers with a number: [normalized] stays empty and
    the response is not degraded. *)
Lemma shape_mismatch_is_silent_witness :
  let net := except normalizer (reply200 "normalized" (JNumber f7)) in
  fair interleaved = true
  ∧ outcome unset net panamaText normalizer
    = Ok {| Key := "normalized"; Value := Float64 f7; CacheHit := false |}
  ∧ expectedShape normalizer (Float64 f7) = false
  ∧ ∃ response sent,
      aggregateAnalysis amd64 unset net panamaText interleaved
      = Some (response, None, sent)
      ∧ Normalized response = "" ∧ Degraded response = false.
Proof.
  intros net. split; [reflexivity |]. split; [reflexivity |].
  split; [reflexivity |].
  destruct (shape_mismatch_is_silent amd64 unset net panamaText interleaved
              normalizer
              {| Key := "normalized"; Value := Float64 f7; CacheHit := false |})
    as (s & response & sent & _ & Hagg & Hz & _ & Hdeg & _);
    [reflexivity | reflexivity | reflexivity |].
  exists response, sent. split; [exact Hagg |]. split; [exact Hz |].
  apply Hdeg. intros [] _; reflexivity.
Defined.

(** A GET, a POST whose body breaks off, a POST of an array, a POST
    without a text, a POST with an empty text, and a POST of an object
    with bytes behind it. *)
Lemma validation_comes_first_witness :
  handleAnalyze amd64 unset panama (received "GET" brokenOff) interleaved
  = Some (httpError "Method not allowed" 405, [])
  ∧ handleAnalyze amd64 unset panama (received "POST" brokenOff) interleaved
    = Some (httpError "Invalid JSON" 400, [])
  ∧ handleAnalyze amd64 unset panama (received "POST" anArray) interleaved
    = Some (httpError "Invalid JSON" 400, [])
  ∧ handleAnalyze amd64 unset panama
      (received "POST" (Leading (JObject [("name", JString "x")]) ""))
      interleaved
    = Some (httpError "Text field is required" 400, [])
  ∧ handleAnalyze amd64 unset panama
      (received "POST" (Leading (JObject [("text", JString "")]) ""))
      interleaved
    = Some (httpError "Text field is required" 400, [])
  ∧ ∃ members sent,
      handleAnalyze amd64 unset panama (received "POST" trailing) interleaved
      = Some ({| Code := 200;
                 ContentType := "application/json";
                 Wrote := Encoded members |}, sent)
      ∧ length sent = 8%nat.
Proof.
  split; [| split; [| split; [| split; [| split]]]].
  - apply (validation_comes_first amd64 unset panama "GET" brokenOff interleaved).
    discriminate.
  - apply (validation_comes_first amd64 unset panama "POST" brokenOff interleaved);
      reflexivity.
  - destruct (validation_comes_first amd64 unset panama "POST" anArray interleaved)
      as (_ & _ & Hinvalid & _ & _ & Hkind & _).
    apply (Hinvalid (JArray [JString "abc"]) ""); [reflexivity | reflexivity |].
    apply Hkind. exact I.
  - set (body := Leading (JObject [("name", JString "x")]) "").
    destruct (validation_comes_first amd64 unset panama "POST" body interleaved)
      as (_ & _ & _ & Hempty & _ & _ & _ & Hmissing & _).
    apply (Hempty (JObject [("name", JString "x")]) "");
      [reflexivity | reflexivity |].
    apply (Hmissing [("name", JString "x")]).
    intros k j Hin. apply list_elem_of_singleton in Hin.
    injection Hin as -> ->. reflexivity.
  - set (body := Leading (JObject [("text", JString "")]) "").
    destruct (validation_comes_first amd64 unset panama "POST" body interleaved)
      as (_ & _ & _ & Hempty & _).
    apply (Hempty (JObject [("text", JString "")]) ""); reflexivity.
  - destruct (validation_comes_first amd64 unset panama "POST" trailing interleaved)
      as (_ & _ & _ & _ & Hruns & _).
    destruct (Hruns (JObject [("text", JString "abc")]) "]]garbage" "abc")
      as (members & sent & Hh & _ & Hlen);
      [reflexivity | reflexivity | reflexivity | discriminate | reflexivity |].
    exists members, sent. split; [exact Hh | exact Hlen].
Defined.

(** The body [trailing] is no JSON text, and yet the request is not
    turned down: the answer is 200, and eight requests have been
    posted. *)
Lemma trailing_bytes_are_analysed :
  wellFormed trailing = false
  ∧ (λ a, (Code a.1, length a.2))
      <$> handleAnalyze amd64 unset panama (received "POST" trailing) interleaved
    = Some (200, 8%nat)
  ∧ ¬ ∃ w,
        handleAnalyze amd64 unset panama (received "POST" trailing) interleaved
        = Some (w, [])
        ∧ Code w = StatusBadRequest.
Proof.
  assert (H : (λ a, (Code a.1, length a.2))
                <$> handleAnalyze amd64 unset panama (received "POST" trailing)
                      interleaved
              = Some (200, 8%nat)) by (vm_compute; reflexivity).
  split; [reflexivity |]. split; [exact H |].
  intros (w & Hw & _). rewrite Hw in H. discriminate H.
Qed.

(** The six bytes of [hello]. *)
Lemma char_count_is_byte_length_witness :
  fair interleaved = true
  ∧ ∃ response sent,
      aggregateAnalysis amd64 unset panama hello interleaved
      = Some (response, None, sent)
      ∧ CharCount response = 6.
Proof.
  split; [reflexivity |].
  destruct (char_count_is_byte_length amd64 unset panama hello)
    as (_ & _ & _ & H & _).
  destruct (H interleaved) as (response & sent & members & Hagg & Hc & _);
    [reflexivity |].
  exists response, sent. split; [exact Hagg | exact Hc].
Defined.

(** Eight requests are posted, to the eight addresses of the cluster;
    with the variable of the tokenizer set, the request of its
    goroutine goes where the variable says, and that of the counter to
    the address of the counter in the cluster. *)
Lemma one_post_per_service_witness :
  fair oneByOne = true
  ∧ (∃ response sent,
       aggregateAnalysis amd64 unset panama panamaText oneByOne
       = Some (response, None, sent)
       ∧ length sent = 8%nat
       ∧ post_url <$> sent ≡ₚ clusterEndpoints)
  ∧ request tokenizerMoved panama panamaText tokenizer
    = [opPost "http://localhost:9000" panamaText]
  ∧ request tokenizerMoved panama panamaText counter
    = [opPost "http://counter.disablers.svc.cluster.local:8085" panamaText].
Proof.
  split; [reflexivity |]. split; [| split].
  - destruct (one_post_per_service amd64 unset panama panamaText oneByOne)
      as (response & sent & Hagg & Hperm & _ & _ & _ & _ & _ & _ & Hurls);
      [reflexivity |].
    exists response, sent. split; [exact Hagg |]. split.
    + apply Permutation_length in Hperm. exact Hperm.
    + apply Hurls. reflexivity.
  - destruct (one_post_per_service amd64 tokenizerMoved panama panamaText oneByOne)
      as (_ & _ & _ & _ & _ & _ & _ & _ & _ & Hset & _); [reflexivity |].
    apply (Hset tokenizer). discriminate.
  - destruct (one_post_per_service amd64 tokenizerMoved panama panamaText oneByOne)
      as (_ & _ & _ & _ & _ & _ & _ & _ & Hunset & _); [reflexivity |].
    apply (Hunset counter). reflexivity.
Defined.

(** The sections entered in the order of the source, and in the
    opposite order. *)
Lemma merge_order_is_irrelevant_witness :
  services ≡ₚ services ∧ reverse services ≡ₚ services
  ∧ (gather amd64 unset panama panamaText services
       (response (start panamaText), [])).1
    = (gather amd64 unset panama panamaText (reverse services)
         (response (start panamaText), [])).1.
Proof.
  assert (H1 : services ≡ₚ services) by reflexivity.
  assert (H2 : reverse services ≡ₚ services).
  { apply (Permutation_count_occ Dep_eq_dec). intros []; reflexivity. }
  split; [exact H1 |]. split; [exact H2 |].
  destruct (merge_order_is_irrelevant amd64 unset panama panamaText
              services (reverse services) H1 H2) as (H & _).
  exact H.
Defined.


(** The transliterator turns the text down: [transliterated] stays
    empty and the response is not degraded. *)
Lemma application_error_is_ignored_witness :
  let net :=
    except transliterator
      (Response StatusOK
         (Bytes (Some (envelope "transliterated" JNull false
                         "Input text too long (max 10000 characters)")))) in
  fair interleaved = true
  ∧ ∃ response sent,
      aggregateAnalysis amd64 unset net panamaText interleaved
      = Some (response, None, sent)
      ∧ Transliterated response = "" ∧ Degraded response = false.
Proof.
  intros net. split; [reflexivity |].
  destruct (application_error_is_ignored amd64 unset net panamaText interleaved
              transliterator "transliterated" JNull false
              "Input text too long (max 10000 characters)" Nil)
    as (_ & (s & response & sent & _ & Hagg & Hz & _ & Hdeg) & _);
    [reflexivity | reflexivity | reflexivity | reflexivity |].
  exists response, sent. split; [exact Hagg |]. split; [exact Hz |].
  apply Hdeg. intros [] _; reflexivity.
Defined.

(** The counter answers with a number, a string and no third member:
    the first field is set, the other two stay 0. *)
Lemma counter_fields_are_independent_witness :
  let data : gmap string any :=
    <["bigram_count" := Str "six"]> (<["unique_words" := Float64 f6]> ∅) in
  let net :=
    except counter
      (reply200 "counts"
         (JObject [("unique_words", JNumber f6);
                   ("bigram_count", JString "six")])) in
  fair interleaved = true
  ∧ outcome unset net panamaText counter
    = Ok {| Key := "counts"; Value := Map data; CacheHit := false |}
  ∧ ∃ response sent,
      aggregateAnalysis amd64 unset net panamaText interleaved
      = Some (response, None, sent)
      ∧ UniqueWords response = 6
      ∧ BigramCount response = 0
      ∧ UniqueChars response = 0.
Proof.
  intros data net. split; [reflexivity |]. split; [reflexivity |].
  destruct (counter_fields_are_independent amd64 unset net panamaText interleaved
              {| Key := "counts"; Value := Map data; CacheHit := false |} data)
    as (s & response & sent & _ & Hagg & Hw & Hb & Hc & _);
    [reflexivity | reflexivity | reflexivity |].
  exists response, sent. split; [exact Hagg |].
  split; [exact Hw |]. split; [exact Hb | exact Hc].
Defined.


(** * Beyond the claims: the aggregator *)

Section Assembler.

Context (convOverflow : float64 → Z) (Getenv : string → string)
        (roundTrip : Dep → HttpPost → HttpReply).

Local Abbreviation Wait := (Wait convOverflow Getenv roundTrip).
Local Abbreviation aggregateAnalysis :=
  (aggregateAnalysis convOverflow Getenv roundTrip).
Local Abbreviation handleAnalyze :=
  (handleAnalyze convOverflow Getenv roundTrip).
Local Abbreviation outcome := (outcome Getenv roundTrip).
Local Abbreviation assembled := (assembled convOverflow Getenv roundTrip).

Lemma sourced_degraded d (b : bool) x :
  sourced d (if b then x else set_Degraded true x) = sourced d x.
Proof. by destruct b, d. Qed.

Lemma sourced_assembled text d :
  sourced d (assembled text)
  = match outcome text d with
    | Ok resp => default (unsourced d) (stored convOverflow d (Value resp))
    | Err _ => unsourced d
    end.
Proof.
  destruct d; simpl; unfold stringOf, memberOf;
    destruct (outcome text _) as [resp |]; try done;
    by destruct (Value resp).
Qed.

(** X1: the row of the assembler's table for every service: a call that
    comes back with a value of the asserted shape stores it in the
    fields of its service, and a call that comes back with any other
    value leaves them at zero. *)
Theorem successful_call_fills_its_fields text sched d resp :
  fair sched = true →
  outcome text d = Ok resp →
  ∃ s response sent,
    Wait text sched = Some s
    ∧ aggregateAnalysis text sched = Some (response, None, sent)
    ∧ sourced d response
      = default (unsourced d) (stored convOverflow d (Value resp))
    ∧ (∀ err, Wrap (serviceName d) err ∉ errors s).
Proof.
  intros Hfair Hok.
  destruct (aggregateAnalysis_fair convOverflow Getenv roundTrip text sched Hfair)
    as (s & order & calls & HW & Ho & _ & _ & He & _ & Hagg).
  eexists s, _, _. split; [exact HW |]. split; [exact Hagg |]. split.
  - by rewrite sourced_degraded, sourced_assembled, Hok.
  - intros err. rewrite He. by apply no_error_of_Ok with resp.
Qed.

(** X2: a call that fails leaves the fields of its service at zero, is
    recorded under the name of its service with its cause, and makes
    the response degraded. *)
Theorem failed_call_is_recorded text sched d err :
  fair sched = true →
  outcome text d = Err err →
  ∃ s response sent,
    Wait text sched = Some s
    ∧ aggregateAnalysis text sched = Some (response, None, sent)
    ∧ sourced d response = unsourced d
    ∧ Wrap (serviceName d) err ∈ errors s
    ∧ (∀ err', Wrap (serviceName d) err' ∈ errors s → err' = err)
    ∧ Degraded response = true.
Proof.
  intros Hfair Herr.
  destruct (aggregateAnalysis_fair convOverflow Getenv roundTrip text sched Hfair)
    as (s & order & calls & HW & Ho & _ & _ & He & _ & Hagg).
  assert (Hin : Wrap (serviceName d) err ∈ errors s).
  { rewrite He. apply elem_of_errors; [done |]. eauto. }
  eexists s, _, _. split; [exact HW |]. split; [exact Hagg |].
  split; [| split; [done | split]].
  - by rewrite sourced_degraded, sourced_assembled, Herr.
  - intros err'. rewrite He.
    intros (d' & e & H & [= Hname ->])%elem_of_errors; [| done].
    apply serviceName_inj in Hname as <-. congruence.
  - rewrite bool_decide_false; [done |]. intros Hnil.
    rewrite Hnil in Hin. by apply not_elem_of_nil in Hin.
Qed.

(** X3: after the join the error slice holds one error for each call that
    failed and nothing else: it is the list of the failures, in the
    order of arrival. *)
Theorem one_error_per_failed_call text sched s :
  Wait text sched = Some s →
  errors s ≡ₚ omap (failure Getenv roundTrip text) services
  ∧ length (errors s) = length (failed Getenv roundTrip text)
  ∧ (length (errors s) ≤ 8)%nat.
Proof.
  intros HW. pose proof (Wait_fair _ _ _ _ _ _ HW) as Hfair.
  destruct (aggregateAnalysis_fair convOverflow Getenv roundTrip text sched Hfair)
    as (s' & order & calls & HW' & Ho & _ & _ & He & _ & _).
  rewrite HW in HW'. injection HW' as <-.
  assert (Hperm : errors s ≡ₚ omap (failure Getenv roundTrip text) services)
    by by rewrite He, Ho.
  assert (Hlen : ∀ l,
    length (omap (failure Getenv roundTrip text) l)
    = length (filter (λ d, isErr (outcome text d) = true) l)).
  { induction l as [| d l IH]; [done |].
    rewrite filter_cons. simpl (omap _ (_ :: _)). unfold failure at 1.
    destruct (outcome text d); simpl; [exact IH | f_equal; exact IH]. }
  split; [done |]. split.
  - by rewrite Hperm, Hlen.
  - rewrite Hperm, Hlen. apply (length_filter _ services).
Qed.

End Assembler.

Section Isolation.

Context (convOverflow : float64 → Z) (Getenv : string → string).

(** X4: what a service is the source of depends on the reply to the
    request of that service alone: two networks that give that request
    the same reply give those fields the same values, whatever the
    other services answer and however the goroutines are scheduled. *)
Theorem services_do_not_interfere text d roundTrip roundTrip' sched sched' :
  fair sched = true → fair sched' = true →
  roundTrip d (opPost (serviceURL Getenv d) text)
  = roundTrip' d (opPost (serviceURL Getenv d) text) →
  ∃ response sent response' sent',
    aggregateAnalysis convOverflow Getenv roundTrip text sched
    = Some (response, None, sent)
    ∧ aggregateAnalysis convOverflow Getenv roundTrip' text sched'
      = Some (response', None, sent')
    ∧ sourced d response = sourced d response'
    ∧ CharCount response = CharCount response'.
Proof.
  intros Hfair Hfair' Hreply.
  destruct (aggregateAnalysis_fair convOverflow Getenv roundTrip text sched Hfair)
    as (s & order & calls & _ & _ & _ & _ & _ & _ & Hagg).
  destruct (aggregateAnalysis_fair convOverflow Getenv roundTrip' text sched' Hfair')
    as (s' & order' & calls' & _ & _ & _ & _ & _ & _ & Hagg').
  eexists _, _, _, _. split; [exact Hagg |]. split; [exact Hagg' |].
  assert (Hout : outcome Getenv roundTrip text d = outcome Getenv roundTrip' text d).
  { unfold outcome, callMicroservice; simpl.
    fold (opPost (serviceURL Getenv d) text). by rewrite Hreply. }
  split.
  - by rewrite !sourced_degraded, !sourced_assembled, Hout.
  - by do 2 case_bool_decide.
Qed.

End Isolation.

Section Handler.

Context (convOverflow : float64 → Z) (Getenv : string → string)
        (roundTrip : Dep → HttpPost → HttpReply).

Local Abbreviation aggregateAnalysis :=
  (aggregateAnalysis convOverflow Getenv roundTrip).
Local Abbreviation handleAnalyze :=
  (handleAnalyze convOverflow Getenv roundTrip).

(** X5: the answer of the handler does not depend on the schedule: under
    any two schedules that let the goroutines finish it writes the same
    status, header and body, and posts the same requests up to their
    order. *)
Theorem answer_is_schedule_independent r sched sched' :
  fair sched = true → fair sched' = true →
  ∃ w sent sent',
    handleAnalyze r sched = Some (w, sent)
    ∧ handleAnalyze r sched' = Some (w, sent')
    ∧ sent ≡ₚ sent'.
Proof.
  intros Hfair Hfair'. unfold Main.handleAnalyze.
  case_bool_decide; [by eexists _, _, _ |].
  destruct (DecodeAnalyseRequest _) as [req |]; [| by eexists _, _, _].
  case_bool_decide; [by eexists _, _, _ |].
  set (text := AnalyseRequest_Text req).
  destruct (aggregateAnalysis_fair convOverflow Getenv roundTrip text sched Hfair)
    as (s & o & c & _ & Ho & Hc & _ & He & Hp & Hagg).
  destruct (aggregateAnalysis_fair convOverflow Getenv roundTrip text sched' Hfair')
    as (s' & o' & c' & _ & Ho' & Hc' & _ & He' & Hp' & Hagg').
  assert (Hiff : errors s = [] ↔ errors s' = []).
  { rewrite He, He'. by rewrite !errors_nil. }
  rewrite Hagg, Hagg'. eexists _, _, _. split; [done |]. split.
  - do 2 case_bool_decide; try tauto; done.
  - by rewrite Hp, Hp', Hc, Hc'.
Qed.

(** X6: the handler answers 200, 400 or 405 and nothing else; it posts to
    the services exactly when it answers 200, and then one request to
    each of the eight. *)
Theorem posts_exactly_when_200 r sched w sent :
  handleAnalyze r sched = Some (w, sent) →
  (Code w = StatusOK ∧ length sent = 8%nat
   ∧ Method r = "POST" ∧ ContentType w = "application/json")
  ∨ ((Code w = StatusBadRequest ∨ Code w = StatusMethodNotAllowed)
     ∧ sent = [] ∧ ContentType w = "text/plain; charset=utf-8").
Proof.
  unfold Main.handleAnalyze.
  case_bool_decide as Hm; [intros ?; simplify_eq; right; auto |].
  destruct (DecodeAnalyseRequest _) as [req |];
    [| intros ?; simplify_eq; right; auto].
  case_bool_decide; [intros ?; simplify_eq; right; auto |].
  destruct (aggregateAnalysis _ sched) as [[[response err] sent'] |] eqn:E;
    [| done].
  pose proof (aggregateAnalysis_nil _ _ _ _ _ _ _ _ E) as ->.
  intros ?; simplify_eq. left.
  pose proof (aggregateAnalysis_Some _ _ _ _ _ _ E) as Hfair.
  destruct (aggregateAnalysis_fair convOverflow Getenv roundTrip
              (AnalyseRequest_Text req) sched Hfair)
    as (s & o & c & _ & _ & Hc & _ & _ & Hp & Hagg).
  rewrite Hagg in E. injection E as _ <-.
  repeat split; try done.
  by rewrite Hp, bind_request, length_fmap, Hc.
Qed.

End Handler.

(** ** Instances *)

Lemma successful_call_fills_its_fields_witness :
  ∃ s response sent,
    Wait amd64 unset panama panamaText interleaved = Some s
    ∧ aggregateAnalysis amd64 unset panama panamaText interleaved
      = Some (response, None, sent)
    ∧ sourced slugger response = [VString "a-man-a-plan-a-canal-panama"]
    ∧ (∀ err, Wrap "slugger" err ∉ errors s).
Proof.
  exact (successful_call_fills_its_fields amd64 unset panama panamaText
           interleaved slugger
           {| Key := "slug";
              Value := Str "a-man-a-plan-a-canal-panama";
              CacheHit := false |}
           eq_refl eq_refl).
Defined.

Lemma failed_call_is_recorded_witness :
  ∃ s response sent,
    Wait amd64 unset allDown panamaText oneByOne = Some s
    ∧ aggregateAnalysis amd64 unset allDown panamaText oneByOne
      = Some (response, None, sent)
    ∧ sourced hasher response = [VString ""]
    ∧ Wrap "hasher" (TransportError "connection refused") ∈ errors s
    ∧ (∀ err', Wrap "hasher" err' ∈ errors s
               → err' = TransportError "connection refused")
    ∧ Degraded response = true.
Proof.
  exact (failed_call_is_recorded amd64 unset allDown panamaText oneByOne hasher
           (TransportError "connection refused") eq_refl eq_refl).
Defined.

Lemma one_error_per_failed_call_witness :
  ∃ s,
    Wait amd64 unset (except entropy (PostFailed "connection refused"))
      panamaText interleaved = Some s
    ∧ length (errors s) = 1%nat.
Proof.
  assert (H : is_Some ((λ _, tt) <$>
                Wait amd64 unset (except entropy (PostFailed "connection refused"))
                  panamaText interleaved))
    by (vm_compute; eexists; reflexivity).
  destruct (Wait amd64 unset (except entropy (PostFailed "connection refused"))
              panamaText interleaved) as [s|] eqn:HW.
  - exists s. split; [reflexivity|].
    destruct (one_error_per_failed_call amd64 unset
                (except entropy (PostFailed "connection refused"))
                panamaText interleaved s HW) as (_ & Hlen & _).
    rewrite Hlen. vm_compute. reflexivity.
  - destruct H as [x Hx]. discriminate Hx.
Defined.

Lemma services_do_not_interfere_witness :
  ∃ response sent response' sent',
    aggregateAnalysis amd64 unset panama panamaText interleaved
    = Some (response, None, sent)
    ∧ aggregateAnalysis amd64 unset
        (except tokenizer (PostFailed "connection refused")) panamaText oneByOne
      = Some (response', None, sent')
    ∧ sourced slugger response = sourced slugger response'
    ∧ CharCount response = CharCount response'.
Proof.
  exact (services_do_not_interfere amd64 unset panamaText slugger panama
           (except tokenizer (PostFailed "connection refused"))
           interleaved oneByOne eq_refl eq_refl eq_refl).
Defined.

Lemma answer_is_schedule_independent_witness :
  ∃ w sent sent',
    handleAnalyze amd64 unset panama (post panamaText) interleaved
    = Some (w, sent)
    ∧ handleAnalyze amd64 unset panama (post panamaText) callsFirst
      = Some (w, sent')
    ∧ sent ≡ₚ sent'.
Proof.
  exact (answer_is_schedule_independent amd64 unset panama (post panamaText)
           interleaved callsFirst eq_refl eq_refl).
Defined.

Lemma posts_exactly_when_200_witness :
  ∃ w sent,
    handleAnalyze amd64 unset panama (post panamaText) interleaved
    = Some (w, sent)
    ∧ Code w = StatusOK ∧ length sent = 8%nat.
Proof.
  assert (H : (λ ws : ResponseWriter * list HttpPost, Code ws.1) <$>
                handleAnalyze amd64 unset panama (post panamaText) interleaved
              = Some 200)
    by (vm_compute; reflexivity).
  destruct (handleAnalyze amd64 unset panama (post panamaText) interleaved)
    as [[w sent]|] eqn:E; [|discriminate H].
  exists w, sent. split; [reflexivity|].
  injection H as H.
  destruct (posts_exactly_when_200 amd64 unset panama (post panamaText)
              interleaved w sent E) as [(Hc & Hl & _) | ([Hc | Hc] & _)].
  - split; assumption.
  - simpl in H. rewrite H in Hc. discriminate Hc.
  - simpl in H. rewrite H in Hc. discriminate Hc.
Defined.

(** * Beyond the claims: the services behind the aggregator *)

(** ** Strings as bytes and as runes *)

Section Runes.
Import Utf8.

Lemma append_cons c s t : String c s +:+ t = String c (s +:+ t).
Proof. reflexivity. Qed.

Lemma append_nil s : "" +:+ s = s.
Proof. reflexivity. Qed.

Lemma upto_from n s : upto n s +:+ from n s = s.
Proof.
  revert s; induction n as [|n IH]; intros [|c s]; simpl; try done.
  rewrite append_cons. f_equal. apply IH.
Qed.

Lemma length_from n s : String.length (from n s) = (String.length s - n)%nat.
Proof.
  revert s; induction n as [|n IH]; intros [|c s]; simpl; try done.
Qed.

Lemma length_upto n s : (n ≤ String.length s)%nat → String.length (upto n s) = n.
Proof.
  revert s; induction n as [|n IH]; intros [|c s]; simpl; try done; try lia.
  intros ?. rewrite IH; lia.
Qed.

Lemma from_app s t : from (String.length s) (s +:+ t) = t.
Proof. induction s; simpl; rewrite ?append_cons; done. Qed.

Lemma upto_app s t : upto (String.length s) (s +:+ t) = s.
Proof.
  induction s; simpl; [by destruct t|]. rewrite ?append_cons. by f_equal.
Qed.

(** The width of a rune is at least one byte and stays within the string. *)
Lemma DecodeRuneInString_size s :
  s ≠ "" →
  (1 ≤ (DecodeRuneInString s).2 ≤ String.length s)%nat.
Proof.
  destruct s as [|c0 [|c1 [|c2 [|c3 s]]]]; try done; intros _;
    unfold DecodeRuneInString;
    repeat (case_match; try (simpl; lia)).
Qed.

Lemma rangeString_fuel n m s :
  (String.length s ≤ n)%nat → (String.length s ≤ m)%nat →
  rangeString n s = rangeString m s.
Proof.
  revert m s; induction n as [|n IH]; intros m s Hn Hm.
  - destruct s; simpl in *; [by destruct m | lia].
  - destruct m as [|m]; [destruct s; simpl in *; [done | lia] |].
    destruct s as [|c s]; [done|].
    unfold rangeString; fold rangeString.
    pose proof (DecodeRuneInString_size (String c s) ltac:(done)) as Hs.
    destruct (DecodeRuneInString (String c s)) as [r size]; simpl in Hs.
    f_equal. apply IH; rewrite length_from; simpl in *; lia.
Qed.

Lemma range_step s :
  s ≠ "" →
  range s
  = ((DecodeRuneInString s).1, upto (DecodeRuneInString s).2 s)
      :: range (from (DecodeRuneInString s).2 s).
Proof.
  intros Hs. unfold range.
  pose proof (DecodeRuneInString_size s Hs) as Hsize.
  destruct s as [|c s]; [done|].
  change (String.length (String c s)) with (S (String.length s)).
  unfold rangeString at 1; fold rangeString.
  destruct (DecodeRuneInString (String c s)) as [r size]; simpl in *.
  f_equal. apply rangeString_fuel; rewrite ?length_from; simpl; lia.
Qed.

Lemma range_nil : range "" = [].
Proof. reflexivity. Qed.

(** Induction along the runes of a string. *)
Lemma range_ind (P : string → Prop) :
  P "" →
  (∀ s, s ≠ "" → P (from (DecodeRuneInString s).2 s) → P s) →
  ∀ s, P s.
Proof.
  intros H0 Hstep s.
  remember (String.length s) as n eqn:Hn.
  revert s Hn; induction (lt_wf n) as [n _ IH]; intros s ->.
  destruct (decide (s = "")) as [->|Hs]; [done|].
  apply Hstep; [done|].
  pose proof (DecodeRuneInString_size s Hs).
  eapply IH; [|reflexivity]. rewrite length_from. lia.
Qed.

Lemma runes_step s :
  s ≠ "" →
  runes s = (DecodeRuneInString s).1 :: runes (from (DecodeRuneInString s).2 s).
Proof. intros Hs. unfold runes. by rewrite range_step. Qed.

Lemma coerce_step s :
  s ≠ "" →
  coerce s = chunk s +:+ coerce (from (DecodeRuneInString s).2 s).
Proof. intros Hs. unfold coerce. by rewrite range_step. Qed.

(** Decoding looks at the bytes of the first rune only. *)
Lemma DecodeRuneInString_app s t :
  s ≠ "" →
  ¬ ((DecodeRuneInString s).1 = RuneError ∧ (DecodeRuneInString s).2 = 1%nat) →
  DecodeRuneInString (upto (DecodeRuneInString s).2 s +:+ t)
  = DecodeRuneInString s.
Proof.
  destruct s as [|c0 [|c1 [|c2 [|c3 s]]]]; try done; intros _;
    unfold DecodeRuneInString;
    repeat (case_match; simpl; try tauto; try done).
  all: try congruence.
  all: exfalso;
    repeat match goal with
           | H : (_ || _) = true |- _ => apply orb_true_iff in H
           | H : (_ || _) = false |- _ => apply orb_false_iff in H as [? ?]
           | H : (_ <? _) = true |- _ => apply Z.ltb_lt in H
           | H : (_ <? _) = false |- _ => apply Z.ltb_ge in H
           | H : (_ =? _) = true |- _ => apply Z.eqb_eq in H
           | H : (_ =? _) = false |- _ => apply Z.eqb_neq in H
           end; lia.
Qed.

Lemma DecodeRuneInString_RuneError t :
  DecodeRuneInString (EncodeRune RuneError +:+ t) = (RuneError, 3%nat).
Proof. reflexivity. Qed.

Lemma DecodeRuneInString_chunk s t :
  s ≠ "" →
  DecodeRuneInString (chunk s +:+ t)
  = ((DecodeRuneInString s).1, String.length (chunk s)).
Proof.
  intros Hs. unfold chunk.
  pose proof (DecodeRuneInString_size s Hs) as Hsize.
  destruct (Z.eqb_spec (DecodeRuneInString s).1 RuneError) as [He|He]; simpl.
  - case_bool_decide as H1.
    + rewrite DecodeRuneInString_RuneError, He. reflexivity.
    + rewrite length_upto in * by lia.
      rewrite DecodeRuneInString_app by tauto.
      by destruct (DecodeRuneInString s).
  - rewrite length_upto by lia.
    rewrite DecodeRuneInString_app by tauto.
    by destruct (DecodeRuneInString s).
Qed.

Lemma chunk_nonempty s : s ≠ "" → chunk s ≠ "".
Proof.
  intros Hs. unfold chunk.
  pose proof (DecodeRuneInString_size s Hs) as Hsize.
  case_match; [done|].
  intros E. apply (f_equal String.length) in E.
  rewrite length_upto in E by lia. simpl in E. lia.
Qed.

Lemma append_nonempty s t : s ≠ "" → s +:+ t ≠ "".
Proof. by destruct s. Qed.

Lemma runes_app_chunk s t :
  s ≠ "" → runes (chunk s +:+ t) = (DecodeRuneInString s).1 :: runes t.
Proof.
  intros Hs.
  rewrite runes_step by (apply append_nonempty, chunk_nonempty, Hs).
  rewrite DecodeRuneInString_chunk by done. simpl.
  by rewrite from_app.
Qed.

(** On the wire a string has the runes a loop over it goes through. *)
Lemma runes_coerce s : runes (coerce s) = runes s.
Proof.
  induction s as [|s Hs IH] using range_ind; [done|].
  rewrite coerce_step, runes_app_chunk, IH by done.
  by rewrite <- runes_step.
Qed.

Lemma isValidUTF8_coerce s : Op.isValidUTF8 (coerce s) = Op.isValidUTF8 s.
Proof. unfold Op.isValidUTF8. by rewrite runes_coerce. Qed.

(** A string [isValidUTF8] accepts goes over the wire as it is. *)
Lemma coerce_valid s : Op.isValidUTF8 s = true → coerce s = s.
Proof.
  unfold Op.isValidUTF8.
  induction s as [|s Hs IH] using range_ind; [done|].
  rewrite runes_step, coerce_step by done. simpl.
  unfold chunk.
  destruct (Z.eqb_spec (DecodeRuneInString s).1 RuneError); [done|].
  intros Hv. simpl. rewrite IH by done. apply upto_from.
Qed.

Lemma coerce_empty s : coerce s = "" ↔ s = "".
Proof.
  split; [|by intros ->].
  destruct (decide (s = "")) as [|Hs]; [done|].
  rewrite coerce_step by done.
  intros E. by apply append_nonempty in E; [|apply chunk_nonempty].
Qed.

Lemma isValidUTF8_ascii s : isASCII s = true → Op.isValidUTF8 s = true.
Proof.
  unfold Op.isValidUTF8.
  induction s as [|c s IH]; [done|].
  simpl. intros [Hc Hs]%andb_prop.
  rewrite runes_step by done.
  unfold DecodeRuneInString. rewrite Hc. simpl.
  apply Z.ltb_lt in Hc.
  destruct (Z.eqb_spec (byte c) RuneError) as [E|_];
    [unfold RuneError in E; lia | by apply IH].
Qed.
(** X13: [isValidUTF8] looks for U+FFFD among the runes of a string,
    and the encoder of a JSON document writes U+FFFD for every byte
    that starts no well-formed encoding.  So a string has on the wire
    the runes it has in memory and is accepted after the transport
    exactly if it is accepted before; a string that is accepted goes
    over the wire byte for byte; and a string of ASCII is accepted. *)
Theorem isValidUTF8_survives_the_wire s :
  Op.isValidUTF8 (coerce s) = Op.isValidUTF8 s
  ∧ runes (coerce s) = runes s
  ∧ (Op.isValidUTF8 s = true → coerce s = s)
  ∧ (isASCII s = true → Op.isValidUTF8 s = true).
Proof.
  split; [apply isValidUTF8_coerce|]. split; [apply runes_coerce|].
  split; [apply coerce_valid | apply isValidUTF8_ascii].
Qed.

End Runes.

(** ** The validation of a request *)

Lemma tokensLoop_spec tokens i :
  Op.tokensLoop i tokens = "" ↔ Forall (λ token, Op.len token ≤ 100) tokens.
Proof.
  revert i; induction tokens as [|token rest IH]; intros i; simpl.
  - split; [constructor | reflexivity].
  - destruct (Z.ltb_spec 100 (Op.len token)).
    + split; [discriminate |].
      intros H'; apply Forall_cons in H' as [? _]; lia.
    + rewrite IH, Forall_cons; intuition lia.
Qed.

Lemma validateDeps_spec deps :
  Op.validateDeps deps = "" ↔
    (∀ s, Deps_Normalized deps = Some s → Op.len s ≤ 10000)
    ∧ (∀ s, Deps_Transliterated deps = Some s → Op.len s ≤ 10000)
    ∧ (length (Deps_Tokens deps) ≤ 1000)%nat
    ∧ Forall (λ token, Op.len token ≤ 100) (Deps_Tokens deps).
Proof.
  unfold Op.validateDeps.
  destruct (Deps_Normalized deps) as [n|], (Deps_Transliterated deps) as [t|];
    repeat match goal with
           | |- context [?a <? ?b] => destruct (Z.ltb_spec a b)
           end;
    rewrite ?tokensLoop_spec;
    try (split; [discriminate | intros (Hn & Ht & Hl & _)];
         first [specialize (Hn _ eq_refl) | idtac];
         first [specialize (Ht _ eq_refl) | idtac]; lia);
    (split; [intros ?; repeat split; [intros ? [= <-]; lia || discriminate ..| lia | done]
            | intros (_ & _ & _ & ?); done]).
Qed.


Lemma len_zero s : Op.len s = 0 ↔ s = "".
Proof. destruct s; unfold Op.len; simpl; split; (done || lia). Qed.

Lemma validateInput_valid req :
  Op.Valid (Op.validateInput req) = true ↔
    (OpRequest_Text req ≠ None ∨ OpRequest_Deps req ≠ None)
    ∧ (∀ text, OpRequest_Text req = Some text →
         text ≠ "" ∧ Op.isValidUTF8 text = true)
    ∧ (∀ deps, OpRequest_Deps req = Some deps →
         (∀ s, Deps_Normalized deps = Some s → Op.len s ≤ 10000)
         ∧ (∀ s, Deps_Transliterated deps = Some s → Op.len s ≤ 10000)
         ∧ (length (Deps_Tokens deps) ≤ 1000)%nat
         ∧ Forall (λ token, Op.len token ≤ 100) (Deps_Tokens deps)).
Proof.
  unfold Op.validateInput.
  destruct (OpRequest_Text req) as [text|] eqn:Ht,
           (OpRequest_Deps req) as [deps|] eqn:Hd; simpl;
    try destruct (Z.eqb_spec (Op.len text) 0) as [H0|H0];
    try rewrite len_zero in H0;
    try destruct (Op.isValidUTF8 text) eqn:Hv; simpl;
    try case_bool_decide as He;
    try (pose proof (validateDeps_spec deps) as HD);
    simpl.
  all: split;
    [ first
        [ discriminate
        | intros _; split; [auto|]; split;
          [ intros ? ?; simplify_eq; done
          | intros ? ?; simplify_eq; try (apply HD; tauto) ] ]
    | intros (Hsome & Htext & Hdeps); try done;
      try (destruct (Htext _ eq_refl) as [? ?]; congruence);
      try (specialize (Hdeps _ eq_refl); apply HD in Hdeps; congruence);
      try (destruct Hsome; done) ].
Qed.

(** A request that is refused is refused with a message. *)
Lemma validateInput_error req :
  Op.Valid (Op.validateInput req) = false →
  Op.ValidationResult_Error (Op.validateInput req) ≠ "".
Proof.
  unfold Op.validateInput.
  destruct (OpRequest_Text req) as [text|], (OpRequest_Deps req) as [deps|];
    simpl;
    try destruct (Op.len text =? 0); simpl; try done;
    try destruct (Op.isValidUTF8 text); simpl; try done;
    try case_bool_decide; simpl; done.
Qed.

(** X7: [validateInput] accepts a request exactly if it has a text or
    deps; its text, if it has one, is not empty and holds no U+FFFD
    and no byte out of place; and its deps, if it has them, keep
    within the limits of [validateDeps]: ten thousand bytes for the
    normalized and the transliterated text, a thousand tokens, a
    hundred bytes a token.  The text is checked whether or not it will
    be used.  The message is empty exactly for an accepted request. *)
Theorem validateInput_spec req :
  (Op.Valid (Op.validateInput req) = true ↔
     (OpRequest_Text req ≠ None ∨ OpRequest_Deps req ≠ None)
     ∧ (∀ text, OpRequest_Text req = Some text →
          text ≠ "" ∧ Op.isValidUTF8 text = true)
     ∧ (∀ deps, OpRequest_Deps req = Some deps →
          (∀ s, Deps_Normalized deps = Some s → Op.len s ≤ 10000)
          ∧ (∀ s, Deps_Transliterated deps = Some s → Op.len s ≤ 10000)
          ∧ (length (Deps_Tokens deps) ≤ 1000)%nat
          ∧ Forall (λ token, Op.len token ≤ 100) (Deps_Tokens deps)))
  ∧ (Op.Valid (Op.validateInput req) = true ↔
       Op.ValidationResult_Error (Op.validateInput req) = "").
Proof.
  split; [apply validateInput_valid|].
  destruct (Op.Valid (Op.validateInput req)) eqn:HV.
  - split; [intros _ | done].
    revert HV. unfold Op.validateInput.
    destruct (OpRequest_Text req) as [text|], (OpRequest_Deps req) as [deps|];
      simpl;
      try destruct (Op.len text =? 0); simpl; try done;
      try destruct (Op.isValidUTF8 text); simpl; try done;
      try case_bool_decide; simpl; done.
  - split; [done|]. intros E. by apply validateInput_error in E.
Qed.

(** ** The handler of the transliterator *)

Section Transliterating.

Variable errorText : error → string.
Variable tr : string → string.

Local Abbreviation handleOp := (Transliterator.handleOp errorText tr).



(** X8: a POST to [/op] of the transliterator is answered 200 with
    a JSON document whatever its body, also when the body does not
    decode or is refused by the validation; the document has a value
    or an error message, never both and never neither. *)
Theorem op_answers_value_or_error r requestCounter :
  Method r = "POST" →
  ∃ value errorMsg,
    (handleOp r requestCounter).1 = answer value errorMsg
    ∧ (value = None ↔ errorMsg ≠ "").
Proof.
  intros HP. unfold Transliterator.handleOp.
  rewrite bool_decide_eq_false_2 by (intros H; exact (H HP)).
  match goal with
  | |- context [let '(a, b) := ?e in _] =>
      assert (G : e.1 = None ↔ e.2 ≠ ""); [|destruct e as [value msg]]
  end.
  2: { exists value, msg. split; [reflexivity | exact G]. }
  destruct (Op.DecodeOpRequest (RequestBody r)) as [req|err]; simpl.
  2: { split; [intros _; discriminate | done]. }
  destruct (Op.Valid (Op.validateInput req)) eqn:HV; simpl.
  2: { split; [intros _; apply validateInput_error, HV | done]. }
  repeat (case_match; simpl in *; simplify_eq); split; done.
Qed.

(** X9: when a request that passes the validation brings a normalized
    text that is not empty, that text is transliterated and the text
    of the request is not: the limit of ten thousand bytes has been
    checked on the normalized text by the validation, so the answer is
    a value, however long the text of the request is. *)
Theorem usable_normalized_wins r requestCounter req deps normalized :
  Method r = "POST" →
  Op.DecodeOpRequest (RequestBody r) = Ok req →
  Op.Valid (Op.validateInput req) = true →
  OpRequest_Deps req = Some deps →
  Deps_Normalized deps = Some normalized →
  normalized ≠ "" →
  (handleOp r requestCounter).1 = answer (Some (tr normalized)) "".
Proof.
  intros HP HD HV Hdeps Hn Hne. unfold Transliterator.handleOp.
  rewrite bool_decide_eq_false_2 by (intros H; exact (H HP)).
  rewrite HD, HV, Hdeps, Hn. simpl.
  rewrite (bool_decide_eq_true_2 (normalized ≠ "")) by done.
  apply validateInput_valid in HV as (_ & _ & Hlim).
  destruct (Hlim _ Hdeps) as (Hlen & _). specialize (Hlen _ Hn).
  destruct (Z.ltb_spec 10000 (Op.len normalized)); [lia | reflexivity].
Qed.

Lemma wrap64_add a b : Op.wrap64 (Op.wrap64 a + b) = Op.wrap64 (a + b).
Proof.
  unfold Op.wrap64. f_equal.
  replace ((a + 2 ^ 63) `mod` 2 ^ 64 - 2 ^ 63 + b + 2 ^ 63)
    with ((a + 2 ^ 63) `mod` 2 ^ 64 + b) by lia.
  rewrite Zplus_mod_idemp_l. f_equal. lia.
Qed.

Lemma wrap64_id a : - 2 ^ 63 ≤ a < 2 ^ 63 → Op.wrap64 a = a.
Proof. intros H. unfold Op.wrap64. rewrite Z.mod_small; lia. Qed.

Lemma handleOp_counter r requestCounter :
  (handleOp r requestCounter).2 = Op.wrap64 (requestCounter + 1).
Proof.
  unfold Transliterator.handleOp. case_bool_decide; [done|].
  by destruct (match Op.DecodeOpRequest (RequestBody r) with
               | Ok _ => _ | Err _ => _ end).
Qed.

Lemma serve_counter requests requestCounter :
  serve errorText tr requests (Op.wrap64 requestCounter)
  = Op.wrap64 (requestCounter + Z.of_nat (length requests)).
Proof.
  unfold serve. revert requestCounter.
  induction requests as [|r rest IH]; intros c; simpl.
  - f_equal. lia.
  - rewrite handleOp_counter, wrap64_add, IH. f_equal. lia.
Qed.

(** X10: every request to [/op] is counted, whatever its method and
    its body, also the ones answered 405; [/metrics] shows the counter,
    which is an [int64] and wraps around. *)
Theorem every_request_is_counted requests requestCounter r :
  - 2 ^ 63 ≤ requestCounter < 2 ^ 63 →
  Method r = "GET" →
  Op.handleMetrics r (serve errorText tr requests requestCounter)
  = {| Op.Status := StatusOK;
       Op.Header := "text/plain";
       Op.Sent :=
         Op.TextBody
           ("# HELP op_requests_total Total number of requests to /op endpoint"
            +:+ Op.newline
            +:+ "# TYPE op_requests_total counter" +:+ Op.newline
            +:+ "op_requests_total "
            +:+ pretty (Op.wrap64 (requestCounter + Z.of_nat (length requests)))
            +:+ Op.newline) |}.
Proof.
  intros Hc HG. unfold Op.handleMetrics.
  rewrite bool_decide_eq_false_2 by (intros H; exact (H HG)).
  rewrite <- (wrap64_id requestCounter Hc) at 1.
  by rewrite serve_counter.
Qed.
End Transliterating.

(** ** Between the aggregator and a service *)

Section Interop.

Lemma length_coerce_valid s :
  Op.isValidUTF8 s = true → Op.len (Utf8.coerce s) = Op.len s.
Proof. intros H. by rewrite coerce_valid. Qed.

Lemma EncodeOpResponse_decodes resp :
  UnmarshalOpResponse (Some (Op.EncodeOpResponse resp))
  = Ok {| Key := Utf8.coerce (Op.Key resp);
          Value := match Op.Value resp with
                   | Some s => Str (Utf8.coerce s)
                   | None => Nil
                   end;
          CacheHit := Op.CacheHit resp |}.
Proof.
  unfold Op.EncodeOpResponse, UnmarshalOpResponse.
  case_bool_decide.
  - unfold objectOpResponse, app.
    change (findField opResponseFields "key") with (Some fKey).
    change (findField opResponseFields "value") with (Some fValue).
    change (findField opResponseFields "cache_hit") with (Some fCacheHit).
    by destruct (Op.Value resp).
  - unfold objectOpResponse, app.
    change (findField opResponseFields "key") with (Some fKey).
    change (findField opResponseFields "value") with (Some fValue).
    change (findField opResponseFields "cache_hit") with (Some fCacheHit).
    change (findField opResponseFields "error") with (@None OpResponseField).
    by destruct (Op.Value resp).
Qed.

Lemma DecodeOpRequest_text text :
  Op.DecodeOpRequest (Some (Utf8.onWire (JObject [("text", JString text)])))
  = Ok {| OpRequest_Text := Some (Utf8.coerce text); OpRequest_Deps := None |}.
Proof. reflexivity. Qed.

(** X12: what a service encodes, the aggregator decodes.  When a
    service answers 200 with an encoded [OpResponse], the call of the
    aggregator succeeds and yields its key, value and [cache_hit],
    each string as it reads on the wire; the member [error] is
    dropped, whether or not the service wrote one. *)
Theorem encoded_response_decodes remote url text resp :
  remote (opPost url text)
  = Response StatusOK (Bytes (Some (Op.EncodeOpResponse resp))) →
  (callMicroservice remote url text).2
  = Ok {| Key := Utf8.coerce (Op.Key resp);
          Value := match Op.Value resp with
                   | Some s => Str (Utf8.coerce s)
                   | None => Nil
                   end;
          CacheHit := Op.CacheHit resp |}.
Proof.
  intros Hr. apply callMicroservice_Ok.
  eexists. split; [exact Hr|]. apply EncodeOpResponse_decodes.
Qed.

Lemma arrayStrings_strings tokens backing saved :
  Op.arrayStrings (map Utf8.onWire (JString <$> tokens)) backing saved
  = (Utf8.coerce <$> tokens, saved).
Proof.
  revert backing; induction tokens as [|token rest IH]; intros backing; [done|].
  simpl. by rewrite IH.
Qed.

(** X11: what the aggregator marshals, a service decodes: the request
    comes out of the decoder of a service as it went into the encoder
    of the aggregator, field by field, each string with U+FFFD for
    every byte out of place and otherwise byte for byte. *)
Theorem marshalled_request_decodes payload :
  ∃ jsonData,
    Marshal payload = Ok jsonData
    ∧ Op.DecodeOpRequest (Some (Utf8.onWire jsonData)) = Ok (asSent payload).
Proof.
  eexists; split; [reflexivity|].
  destruct payload as [[text|] [[[normalized|] [transliterated|] [|token tokens]]|]];
    try reflexivity.
  all: unfold asSent, marshalDeps, Op.DecodeOpRequest; simpl.
  all: rewrite arrayStrings_strings; reflexivity.
Qed.

End Interop.

(** ** The aggregator in front of the transliterator *)

Section Behind.

Variable convOverflow : float64 → Z.
Variable Getenv : string → string.
Variable roundTrip : Dep → HttpPost → HttpReply.
Variable errorText : error → string.
Variable transliterateText : string → string.
Variable requestCounter : Z.

Local Abbreviation service :=
  (Transliterator.remote errorText transliterateText requestCounter).
Local Abbreviation net := (<[transliterator := service]> roundTrip).

Lemma remote_reply url text :
  ∃ errorMsg,
    service (opPost url text)
    = Response StatusOK
        (Bytes (Some (Op.EncodeOpResponse
                        {| Op.Key := "transliterated";
                           Op.Value := if accepted text
                                       then Some (transliterateText text)
                                       else None;
                           Op.CacheHit := false;
                           Op.Error := errorMsg |}))).
Proof.
  unfold Transliterator.remote, Transliterator.handleOp, opPost.
  cbn [post_body Method RequestBody].
  rewrite (bool_decide_eq_false_2 ("POST" ≠ "POST")) by (intros H; by apply H).
  rewrite DecodeOpRequest_text. unfold accepted.
  cbn [OpRequest_Text OpRequest_Deps].
  destruct (decide (text = "")) as [->|Hne]; [eexists; reflexivity|].
  rewrite (bool_decide_eq_true_2 (text ≠ "")) by done.
  unfold Op.validateInput; simpl.
  destruct (Z.eqb_spec (Op.len (Utf8.coerce text)) 0) as [H0|H0].
  { apply (proj1 (len_zero _)), (proj1 (coerce_empty _)) in H0. done. }
  rewrite isValidUTF8_coerce.
  destruct (Op.isValidUTF8 text) eqn:Hv; simpl; [|eexists; reflexivity].
  rewrite coerce_valid by done.
  rewrite (bool_decide_eq_true_2 (text ≠ "")) by done.
  destruct (Z.ltb_spec 10000 (Op.len text)), (Z.leb_spec (Op.len text) 10000);
    try lia; eexists; reflexivity.
Qed.

Lemma outcome_transliterator text :
  outcome Getenv net text transliterator
  = Ok {| Key := "transliterated";
          Value := if accepted text
                   then Str (Utf8.coerce (transliterateText text))
                   else Nil;
          CacheHit := false |}.
Proof.
  apply outcome_Ok.
  destruct (remote_reply (serviceURL Getenv transliterator +:+ "/op") text)
    as [msg Hr].
  eexists. split.
  - unfold opPost in *. rewrite fn_lookup_insert. exact Hr.
  - rewrite EncodeOpResponse_decodes. simpl. by destruct (accepted text).
Qed.

(** X14: the aggregator in front of the transliterator.  Whatever
    the text, the call of the transliterator succeeds: the response
    has the transliteration of the text if the text is not empty,
    holds no U+FFFD and no byte out of place and is no longer than ten
    thousand bytes, and the empty string otherwise, with no error
    recorded for it; if the response is degraded, another service
    failed. *)
Theorem transliterator_behind_aggregator text sched :
  fair sched = true →
  ∃ response sent,
    aggregateAnalysis convOverflow Getenv net text sched
    = Some (response, None, sent)
    ∧ Transliterated response
      = (if accepted text then Utf8.coerce (transliterateText text) else "")
    ∧ (Degraded response = true →
       ∃ d, d ≠ transliterator ∧ isErr (outcome Getenv net text d) = true).
Proof.
  intros Hfair.
  destruct (aggregateAnalysis_fair convOverflow Getenv net text sched Hfair)
    as (s & order & calls & _ & Ho & _ & _ & He & _ & ->).
  eexists _, _. split; [reflexivity|].
  assert (HT : Transliterated (assembled convOverflow Getenv net text)
               = if accepted text
                 then Utf8.coerce (transliterateText text) else "").
  { simpl. rewrite outcome_transliterator. by destruct (accepted text). }
  case_bool_decide as Hnil; (split; [exact HT|]); [done|].
  intros _. rewrite He in Hnil.
  destruct (omap _ order) as [|e rest] eqn:E; [done|].
  assert (Hin : e ∈ omap (failure Getenv net text) order)
    by (rewrite E; left).
  apply elem_of_errors in Hin as (d & err & Hd & _); [|done].
  exists d. split; [|by rewrite Hd].
  intros ->. rewrite outcome_transliterator in Hd. done.
Qed.

End Behind.

(** ** The ligatures *)

Lemma behaved_ligatures : behaved Transliterator.ligatures.
Proof. apply (bool_decide_eq_true_1 _). vm_compute. reflexivity. Qed.

Section OnePass.
Import Strings.
Local Abbreviation from := Utf8.from.

Lemma from_nil n : from n "" = "".
Proof. by destruct n. Qed.

Lemma length_from' n s : String.length (from n s) = (String.length s - n)%nat.
Proof.
  revert s; induction n as [|n IH]; intros [|c s]; simpl; try done.
Qed.

Lemma from_app' s t : from (String.length s) (s +:+ t) = t.
Proof. induction s; simpl; done. Qed.

Lemma prefix_cons a k c s :
  String.prefix (String a k) (String c s)
  = bool_decide (a = c) && String.prefix k s.
Proof. simpl. destruct (ascii_dec a c); case_bool_decide; done. Qed.

Lemma prefix_nil_r k : String.prefix k "" = true → k = "".
Proof. by destruct k. Qed.

Lemma prefix_split k s :
  String.prefix k s = true → s = k +:+ from (String.length k) s.
Proof.
  revert s; induction k as [|a k IH]; intros [|c s]; try done.
  rewrite prefix_cons. intros [Ha Hk]%andb_prop.
  apply bool_decide_eq_true_1 in Ha as ->.
  simpl. change (String c k +:+ ?t) with (String c (k +:+ t)).
  f_equal. by apply IH.
Qed.

Lemma prefix_append k t : String.prefix k (k +:+ t) = true.
Proof.
  induction k as [|a k IH]; [by destruct t|].
  change (String a k +:+ t) with (String a (k +:+ t)).
  rewrite prefix_cons, IH. by rewrite bool_decide_eq_true_2.
Qed.

Lemma prefix_comparable a b s :
  String.prefix a s = true → String.prefix b s = true →
  String.prefix a b = true ∨ String.prefix b a = true.
Proof.
  revert b s; induction a as [|x a IH]; intros [|y b] [|c s]; try done;
    try (by left); try (by right).
  rewrite !prefix_cons.
  intros [Hx Ha]%andb_prop [Hy Hb]%andb_prop.
  apply bool_decide_eq_true_1 in Hx as ->.
  apply bool_decide_eq_true_1 in Hy as ->.
  rewrite bool_decide_eq_true_2 by done. simpl. by eapply IH.
Qed.

Lemma prefix_first k c s :
  String.prefix k (String c s) = true → k = "" ∨ firstByte k = Some c.
Proof.
  destruct k as [|a k]; [by left|]. rewrite prefix_cons.
  intros [Ha _]%andb_prop. apply bool_decide_eq_true_1 in Ha as ->. by right.
Qed.

(** *** [strings.ReplaceAll] *)

Lemma replaceFrom_skip old new n s :
  replaceFrom old new n s = replaceFrom old new 0 (from n s).
Proof.
  revert s; induction n as [|n IH]; intros [|c s]; try done. simpl. apply IH.
Qed.

Lemma ReplaceAll_cons old new c rest :
  ReplaceAll (String c rest) old new
  = if String.prefix old (String c rest)
    then new +:+ ReplaceAll (from (String.length old - 1) rest) old new
    else String c (ReplaceAll rest old new).
Proof.
  unfold ReplaceAll. cbn [replaceFrom].
  destruct (String.prefix old (String c rest)); [|done].
  by rewrite replaceFrom_skip.
Qed.

Lemma ReplaceAll_hit l kt new t :
  ReplaceAll (String l kt +:+ t) (String l kt) new
  = new +:+ ReplaceAll t (String l kt) new.
Proof.
  change (String l kt +:+ t) with (String l (kt +:+ t)).
  rewrite ReplaceAll_cons.
  change (String l (kt +:+ t)) with (String l kt +:+ t).
  rewrite prefix_append. simpl. by rewrite Nat.sub_0_r, from_app'.
Qed.

Lemma ReplaceAll_pass a old new t :
  Forall (λ b, firstByte old ≠ Some b) (String.list_ascii_of_string a) →
  old ≠ "" →
  ReplaceAll (a +:+ t) old new = a +:+ ReplaceAll t old new.
Proof.
  intros Ha Hold. induction a as [|c a IH]; [done|].
  simpl in Ha. apply Forall_cons in Ha as [Hc Ha].
  change (String c a +:+ ?t) with (String c (a +:+ t)).
  rewrite ReplaceAll_cons.
  destruct (String.prefix old (String c (a +:+ t))) eqn:E.
  - by apply prefix_first in E as [?|?].
  - f_equal. by apply IH.
Qed.

Lemma ReplaceAll_same k s : k ≠ "" → ReplaceAll s k k = s.
Proof.
  intros Hk.
  remember (String.length s) as n eqn:Hn.
  revert s Hn; induction (lt_wf n) as [n _ IH]; intros s ->.
  destruct s as [|c rest]; [done|].
  rewrite ReplaceAll_cons.
  destruct (String.prefix k (String c rest)) eqn:E.
  - rewrite (IH (String.length (from (String.length k - 1) rest))); try done.
    + apply prefix_split in E. etrans; [|symmetry; exact E].
      destruct k as [|a k]; [done|]. simpl. by rewrite Nat.sub_0_r.
    + rewrite length_from'. simpl. lia.
  - f_equal. eapply IH; [|done]. simpl. lia.
Qed.

(** *** One pass *)

Lemma onePassFrom_skip table n s :
  onePassFrom table n s = onePassFrom table 0 (from n s).
Proof.
  revert s; induction n as [|n IH]; intros [|c s]; try done. simpl. apply IH.
Qed.

Lemma onePass_cons table c rest :
  onePass table (String c rest)
  = match firstMatch table (String c rest) with
    | Some (k, v) => v +:+ onePass table (from (String.length k - 1) rest)
    | None => String c (onePass table rest)
    end.
Proof.
  unfold onePass. cbn [onePassFrom].
  destruct (firstMatch table (String c rest)) as [[k v]|]; [|done].
  by rewrite onePassFrom_skip.
Qed.

Lemma firstMatch_app T e s :
  firstMatch (T ++ [e]) s
  = match firstMatch T s with
    | Some x => Some x
    | None => if String.prefix e.1 s then Some e else None
    end.
Proof.
  unfold firstMatch. induction T as [|x T IH]; simpl; [done|].
  by destruct (String.prefix x.1 s).
Qed.

Lemma firstMatch_Some T s kv :
  firstMatch T s = Some kv → kv ∈ T ∧ String.prefix kv.1 s = true.
Proof.
  unfold firstMatch. intros [H1 H2]%find_some. split; [|done].
  by apply list_elem_of_In.
Qed.

Lemma firstMatch_None T s kv :
  firstMatch T s = None → kv ∈ T → String.prefix kv.1 s = false.
Proof.
  unfold firstMatch. intros H Hin. eapply find_none in H; [done|].
  by apply list_elem_of_In.
Qed.

Section Table.

Variable table : list (string * string).
Hypothesis Hbehaved : behaved table.

Lemma key_nonempty kv : kv ∈ table → kv.1 ≠ "".
Proof.
  destruct Hbehaved as [H _]. rewrite Forall_forall in H. intros ?. by apply H.
Qed.

Lemma replacement_nonempty kv : kv ∈ table → kv.2 ≠ "".
Proof.
  destruct Hbehaved as [H _]. rewrite Forall_forall in H. intros ?. by apply H.
Qed.

Lemma pairwise kv kv' :
  kv ∈ table → kv' ∈ table →
  Forall (λ b, firstByte kv'.1 ≠ Some b) (laterBytes kv.1)
  ∧ (kv.1 ≠ kv.2 →
     Forall (λ b, firstByte kv.1 ≠ Some b) (String.list_ascii_of_string kv'.2)
     ∧ Forall (λ b, firstByte kv'.2 ≠ Some b) (laterBytes kv.1))
  ∧ (String.prefix kv.1 kv'.1 = true → kv = kv').
Proof.
  destruct Hbehaved as [_ H]. rewrite Forall_forall in H. intros H1 H2.
  specialize (H _ H1). rewrite Forall_forall in H. by apply H.
Qed.

(** No key starts at a byte from the inside of a key. *)
Lemma firstMatch_inert T kv b t :
  T ⊆ table → kv ∈ table → b ∈ laterBytes kv.1 →
  firstMatch T (String b t) = None.
Proof.
  intros HT Hkv Hb.
  destruct (firstMatch T (String b t)) as [kv'|] eqn:E; [|done].
  apply firstMatch_Some in E as [Hin Hp].
  destruct (pairwise kv kv' Hkv (HT _ Hin)) as (H & _).
  rewrite Forall_forall in H. specialize (H _ Hb).
  apply prefix_first in Hp as [Hp|Hp]; [|done].
  by apply key_nonempty in Hp; [|apply HT].
Qed.

Lemma onePass_inside T kv a t :
  T ⊆ table → kv ∈ table →
  String.list_ascii_of_string a ⊆ laterBytes kv.1 →
  onePass T (a +:+ t) = a +:+ onePass T t.
Proof.
  intros HT Hkv. induction a as [|b a IH]; intros Ha; [done|].
  change (String b a +:+ ?t) with (String b (a +:+ t)).
  rewrite onePass_cons, (firstMatch_inert T kv) by (try done; apply Ha; left).
  f_equal. apply IH. intros x Hx. apply Ha. simpl. by right.
Qed.

(** Where no key of [T] starts but the key of [kv] does, the pass
    with [T] copies that key. *)
Lemma onePass_copies T kv s :
  T ⊆ table → kv ∈ table →
  firstMatch T s = None → String.prefix kv.1 s = true →
  onePass T s = kv.1 +:+ onePass T (from (String.length kv.1) s).
Proof.
  intros HT Hkv HN Hp.
  pose proof (key_nonempty kv Hkv) as Hne.
  apply prefix_split in Hp.
  destruct kv.1 as [|l kt] eqn:Ek; [done|].
  rewrite Hp at 1.
  change (String l kt +:+ ?t) with (String l (kt +:+ t)).
  rewrite onePass_cons.
  change (String l (kt +:+ ?t)) with (String l kt +:+ t).
  rewrite <- Hp, HN.
  change (String l kt +:+ ?t) with (String l (kt +:+ t)). f_equal.
  apply (onePass_inside T kv); try done. by rewrite Ek.
Qed.

(** A replacement written by the pass does not complete a key. *)
Lemma prefix_onePass T kv kt s :
  T ⊆ table → kv ∈ table → kv.1 ≠ kv.2 →
  String.list_ascii_of_string kt ⊆ laterBytes kv.1 →
  String.prefix kt (onePass T s) = true → String.prefix kt s = true.
Proof.
  intros HT Hkv Hne. revert s; induction kt as [|b kt IH]; intros s Hkt;
    [by destruct s|].
  destruct s as [|c rest]; [done|].
  rewrite onePass_cons.
  destruct (firstMatch T (String c rest)) as [[k' v']|] eqn:E.
  - apply firstMatch_Some in E as [Hin _].
    destruct (pairwise kv (k', v') Hkv (HT _ Hin)) as (_ & H & _).
    destruct (H Hne) as [_ H']. rewrite Forall_forall in H'.
    pose proof (replacement_nonempty _ (HT _ Hin)) as Hv. simpl in *.
    destruct v' as [|x v']; [done|].
    change (String x v' +:+ ?t) with (String x (v' +:+ t)).
    rewrite prefix_cons. intros [Hx _]%andb_prop.
    apply bool_decide_eq_true_1 in Hx as ->.
    exfalso. eapply H'; [|done]. apply Hkt. by left.
  - rewrite !prefix_cons. intros [Hb Hr]%andb_prop.
    rewrite Hb. simpl. apply IH; [|done].
    intros x Hx. apply Hkt. simpl. by right.
Qed.

(** Replacing one more key after a pass is the pass with that key
    added. *)
Lemma ReplaceAll_onePass T kv s :
  T ⊆ table → kv ∈ table → kv.1 ≠ kv.2 →
  ReplaceAll (onePass T s) kv.1 kv.2 = onePass (T ++ [kv]) s.
Proof.
  intros HT Hkv Hne.
  pose proof (key_nonempty kv Hkv) as Hk.
  remember (String.length s) as n eqn:Hn.
  revert s Hn; induction (lt_wf n) as [n _ IH]; intros s ->.
  destruct s as [|c rest]; [done|].
  rewrite (onePass_cons (T ++ [kv])), firstMatch_app.
  destruct (firstMatch T (String c rest)) as [[k' v']|] eqn:E.
  - rewrite onePass_cons, E.
    apply firstMatch_Some in E as [Hin Hp].
    destruct (pairwise kv (k', v') Hkv (HT _ Hin)) as (_ & H & _).
    destruct (H Hne) as [H' _]. simpl in H'.
    rewrite ReplaceAll_pass by done. f_equal.
    eapply IH; [|done]. rewrite length_from'. simpl. lia.
  - destruct (String.prefix kv.1 (String c rest)) eqn:Hp.
    + rewrite (onePass_copies T kv) by done.
      destruct kv as [k v]; simpl in *.
      destruct k as [|l kt]; [done|].
      rewrite ReplaceAll_hit. f_equal. simpl. rewrite Nat.sub_0_r.
      eapply IH; [|done]. rewrite length_from'. simpl. lia.
    + rewrite onePass_cons, E, ReplaceAll_cons.
      destruct (String.prefix kv.1 (String c (onePass T rest))) eqn:Hq.
      * exfalso. destruct kv.1 as [|l kt] eqn:Ek; [done|].
        rewrite prefix_cons in Hp, Hq.
        apply andb_prop in Hq as [Hl Hq]. rewrite Hl in Hp. simpl in Hp.
        assert (Hq' : String.prefix kt rest = true)
          by (apply (prefix_onePass T kv kt); try done; by rewrite Ek).
        congruence.
      * f_equal. eapply IH; [|done]. simpl. lia.
Qed.

(** An entry that replaces a key by itself adds nothing to a pass. *)
Lemma onePass_same T kv s :
  T ⊆ table → kv ∈ table → kv.1 = kv.2 →
  onePass (T ++ [kv]) s = onePass T s.
Proof.
  intros HT Hkv He.
  remember (String.length s) as n eqn:Hn.
  revert s Hn; induction (lt_wf n) as [n _ IH]; intros s ->.
  destruct s as [|c rest]; [done|].
  rewrite (onePass_cons (T ++ [kv])), firstMatch_app.
  destruct (firstMatch T (String c rest)) as [[k' v']|] eqn:E.
  - rewrite onePass_cons, E. f_equal.
    eapply IH; [|done]. rewrite length_from'. simpl. lia.
  - destruct (String.prefix kv.1 (String c rest)) eqn:Hp.
    + rewrite (onePass_copies T kv) by done.
      pose proof (key_nonempty kv Hkv) as Hk.
      destruct kv as [k v]; simpl in *. subst v. f_equal.
      destruct k as [|l kt]; [done|]. simpl. rewrite Nat.sub_0_r.
      eapply IH; [|done]. rewrite length_from'. simpl. lia.
    + rewrite onePass_cons, E. f_equal.
      eapply IH; [|done]. simpl. lia.
Qed.

Lemma foldl_ReplaceAll T s :
  T ⊆ table →
  foldl (λ result '(ligature, replacement),
           ReplaceAll result ligature replacement) s T
  = onePass T s.
Proof.
  induction T as [|kv T IH] using rev_ind; intros HT.
  - simpl. induction s as [|c s IHs]; [done|].
    rewrite onePass_cons. simpl. by f_equal.
  - rewrite foldl_app. simpl.
    assert (HT' : T ⊆ table) by (intros x Hx; apply HT, elem_of_app; by left).
    assert (Hkv : kv ∈ table) by (apply HT, elem_of_app; right; by left).
    rewrite IH by done. destruct kv as [k v] eqn:Ekv.
    destruct (decide (k = v)) as [->|Hne].
    + rewrite ReplaceAll_same by (by apply (key_nonempty (v, v))).
      symmetry. by apply onePass_same.
    + by apply (ReplaceAll_onePass T (k, v)).
Qed.

(** At most one key of the table starts at a place. *)
Lemma firstMatch_unique T s :
  T ⊆ table → table ⊆ T → firstMatch T s = firstMatch table s.
Proof.
  intros H1 H2.
  destruct (firstMatch T s) as [kv|] eqn:E, (firstMatch table s) as [kv'|] eqn:E';
    try done.
  - apply firstMatch_Some in E as [Hin Hp], E' as [Hin' Hp'].
    destruct (prefix_comparable _ _ _ Hp Hp') as [H|H].
    + f_equal. by apply (pairwise kv kv'); [apply H1|..].
    + f_equal. symmetry. by apply (pairwise kv' kv); [|apply H1|].
  - apply firstMatch_Some in E as [Hin Hp].
    by rewrite (firstMatch_None table s kv E' (H1 _ Hin)) in Hp.
  - apply firstMatch_Some in E' as [Hin Hp].
    by rewrite (firstMatch_None T s kv' E (H2 _ Hin)) in Hp.
Qed.

Lemma onePass_order T s :
  T ⊆ table → table ⊆ T → onePass T s = onePass table s.
Proof.
  intros H1 H2.
  remember (String.length s) as n eqn:Hn.
  revert s Hn; induction (lt_wf n) as [n _ IH]; intros s ->.
  destruct s as [|c rest]; [done|].
  rewrite !onePass_cons, (firstMatch_unique T) by done.
  destruct (firstMatch table (String c rest)) as [[k v]|] eqn:E.
  - f_equal. eapply IH; [|done]. rewrite length_from'. simpl. lia.
  - f_equal. eapply IH; [|done]. simpl. lia.
Qed.

End Table.

Lemma replaceLigatures_onePass order s :
  order ≡ₚ Transliterator.ligatures →
  Transliterator.replaceLigatures order s
  = onePass Transliterator.ligatures s.
Proof.
  intros Hperm. unfold Transliterator.replaceLigatures.
  rewrite (foldl_ReplaceAll _ behaved_ligatures)
    by (intros x; by rewrite Hperm).
  apply (onePass_order _ behaved_ligatures); intros x; by rewrite Hperm.
Qed.

(** X15: [replaceLigatures] ranges over a map, in an order the
    runtime chooses anew each time.  In whatever order the entries
    come, each once, the result is the same: that of one pass over the
    string from the left in which every ligature of the table is
    replaced where it stands and no replacement is looked at again. *)
Theorem replaceLigatures_is_one_pass order order' s :
  order ≡ₚ Transliterator.ligatures →
  order' ≡ₚ Transliterator.ligatures →
  Transliterator.replaceLigatures order s
  = Transliterator.replaceLigatures order' s
  ∧ Transliterator.replaceLigatures order s
    = onePass Transliterator.ligatures s.
Proof.
  intros Ho Ho'. split; [|by apply replaceLigatures_onePass].
  rewrite (replaceLigatures_onePass order) by done.
  by rewrite (replaceLigatures_onePass order').
Qed.

End OnePass.

(** ** ASCII *)

Section Ascii.
Import Utf8 Transliterator.

Lemma char_byte c : char (byte c) = c.
Proof. unfold char, byte. by rewrite N2Z.id, ascii_N_embedding. Qed.

Lemma DecodeRuneInString_ascii c rest :
  byte c < 128 → DecodeRuneInString (String c rest) = (byte c, 1%nat).
Proof.
  intros Hc. unfold DecodeRuneInString.
  by rewrite (proj2 (Z.ltb_lt _ _) Hc).
Qed.

Lemma isASCII_cons c rest :
  isASCII (String c rest) = true ↔ byte c < 128 ∧ isASCII rest = true.
Proof. simpl. rewrite andb_true_iff, Z.ltb_lt. done. Qed.

Lemma isASCII_from n s : isASCII s = true → isASCII (from n s) = true.
Proof.
  revert s; induction n as [|n IH]; intros [|c s]; try done.
  intros [_ H]%isASCII_cons. by apply IH.
Qed.

Lemma range_ascii c rest :
  byte c < 128 → range (String c rest) = (byte c, String c "") :: range rest.
Proof.
  intros Hc. rewrite range_step by done.
  rewrite DecodeRuneInString_ascii by done. simpl. by destruct rest.
Qed.

Lemma ascii_keys :
  Forall (λ kv : string * string,
            match kv.1 with
            | String c _ => byte c <? 128
            | EmptyString => true
            end = true → kv.1 = kv.2) ligatures.
Proof. apply (bool_decide_eq_true_1 _). vm_compute. reflexivity. Qed.

Lemma onePass_ascii s : isASCII s = true → onePass ligatures s = s.
Proof.
  remember (String.length s) as n eqn:Hn.
  revert s Hn; induction (lt_wf n) as [n _ IH]; intros s -> Hs.
  destruct s as [|c rest]; [done|].
  rewrite onePass_cons.
  destruct (firstMatch ligatures (String c rest)) as [[k v]|] eqn:E.
  - apply firstMatch_Some in E as [Hin Hp]. cbn [fst] in Hp.
    pose proof ascii_keys as HA. rewrite Forall_forall in HA.
    specialize (HA _ Hin). simpl in HA.
    pose proof (key_nonempty _ behaved_ligatures _ Hin) as Hk. simpl in Hk.
    destruct k as [|a k]; [done|].
    pose proof Hp as Hp'. rewrite prefix_cons in Hp'.
    apply andb_prop in Hp' as [Ha _]. apply bool_decide_eq_true_1 in Ha as ->.
    apply isASCII_cons in Hs as [Hc Hs].
    rewrite <- HA by (by apply Z.ltb_lt).
    rewrite (IH (String.length (Utf8.from (String.length (String c k) - 1) rest)));
      try done.
    + apply prefix_split in Hp. simpl in *. by rewrite Nat.sub_0_r.
    + rewrite length_from. simpl. lia.
    + by apply isASCII_from.
  - apply isASCII_cons in Hs as [Hc Hs]. f_equal.
    eapply IH; [|done..]. simpl. lia.
Qed.

Lemma transliteration_keys :
  Forall (λ kv : Z * string, 913 ≤ kv.1) transliterations.
Proof. apply (bool_decide_eq_true_1 _). vm_compute. reflexivity. Qed.

Lemma transliteration_ascii r : r < 128 → transliteration r = None.
Proof.
  intros Hr. unfold transliteration.
  replace (list_find (λ kv : Z * string, kv.1 = r) transliterations)
    with (@None (nat * (Z * string))); [done|].
  symmetry. apply list_find_None.
  eapply Forall_impl; [apply transliteration_keys|]. simpl. lia.
Qed.

Section Tables.

Variables (NFD NFC : string → string) (isMn : Z → bool).
Variable order : list (string * string).

Hypothesis NFD_ascii : ∀ s, isASCII s = true → NFD s = s.
Hypothesis NFC_ascii : ∀ s, isASCII s = true → NFC s = s.
Hypothesis isMn_ascii : ∀ r, 0 ≤ r < 128 → isMn r = false.
Hypothesis Horder : order ≡ₚ ligatures.

Lemma byte_range c : 0 ≤ byte c < 256.
Proof.
  unfold byte. pose proof (N_ascii_bounded c). lia.
Qed.

Lemma RemoveFunc_ascii s : isASCII s = true → RemoveFunc isMn s = s.
Proof.
  unfold RemoveFunc. induction s as [|c rest IH]; [done|].
  intros [Hc Hs]%isASCII_cons.
  rewrite range_ascii by done. simpl.
  pose proof (byte_range c).
  rewrite isMn_ascii by lia.
  destruct (Z.eqb_spec (byte c) RuneError) as [E|_];
    [unfold RuneError in E; lia|].
  simpl. f_equal. by apply IH.
Qed.

Lemma applyASCIITransliterations_ascii s :
  isASCII s = true → applyASCIITransliterations s = s.
Proof.
  unfold applyASCIITransliterations, runes. induction s as [|c rest IH]; [done|].
  intros [Hc Hs]%isASCII_cons.
  rewrite range_ascii by done. simpl.
  pose proof (byte_range c).
  rewrite transliteration_ascii by done.
  assert (HE : EncodeRune (byte c) = String c "").
  { unfold EncodeRune.
    rewrite (proj2 (Z.leb_le 0 _)), (proj2 (Z.leb_le _ 127)) by lia.
    simpl. by rewrite char_byte. }
  destruct (byte c <=? 127); rewrite HE; simpl; f_equal; by apply IH.
Qed.

(** X16: a text of ASCII comes out of [transliterateText] as it went
    in, in whatever order the ligatures are replaced, given of the
    tables of Unicode that the two normal forms leave ASCII alone and
    that no ASCII character is a nonspacing mark. *)
Theorem ascii_is_left_alone s :
  isASCII s = true →
  transliterateText NFD NFC isMn order s = s.
Proof.
  intros Hs. unfold transliterateText, removeDiacritics.
  rewrite (NFD_ascii s Hs).
  rewrite replaceLigatures_onePass by done.
  rewrite (onePass_ascii s Hs).
  rewrite (NFD_ascii s Hs), (RemoveFunc_ascii s Hs), (NFC_ascii s Hs).
  by apply applyASCIITransliterations_ascii.
Qed.

End Tables.
End Ascii.

(** * Beyond the claims: the slugger *)

Section Slugs.
Import Strings Slugger.

Lemma alphanumeric_not_hyphen c : alphanumeric c = true → c ≠ hyphen.
Proof. intros H ->. done. Qed.

Lemma alphanumeric_not_space c : alphanumeric c = true → asciiSpace c = false.
Proof.
  unfold alphanumeric, asciiSpace. cbv zeta. intros H.
  apply orb_true_iff in H.
  repeat match goal with
         | |- context [?a <=? ?b] => destruct (Z.leb_spec a b)
         | |- context [?a =? ?b] => destruct (Z.eqb_spec a b)
         | H : context [?a <=? ?b] |- _ => destruct (Z.leb_spec a b)
         end; simpl in *; try done; try lia; destruct H; done.
Qed.

Lemma alphanumeric_ascii c : alphanumeric c = true → Utf8.byte c < 128.
Proof.
  unfold alphanumeric. cbv zeta. intros H.
  apply orb_true_iff in H as [H|H]; apply andb_prop in H as [_ H];
    apply Z.leb_le in H; lia.
Qed.

Lemma perlSpace_asciiSpace c : perlSpace c = true → asciiSpace c = true.
Proof.
  unfold perlSpace, asciiSpace. cbv zeta. intros H.
  repeat match goal with
         | |- context [?a <=? ?b] => destruct (Z.leb_spec a b)
         | |- context [?a =? ?b] => destruct (Z.eqb_spec a b)
         | H : context [?a =? ?b] |- _ => destruct (Z.eqb_spec a b)
         end; simpl in *; try done; lia.
Qed.

Lemma perlSpace_ascii c : perlSpace c = true → Utf8.byte c < 128.
Proof.
  unfold perlSpace. cbv zeta. intros H.
  repeat match goal with
         | H : context [?a =? ?b] |- _ => destruct (Z.eqb_spec a b)
         end; simpl in *; try done; lia.
Qed.


Lemma every_app class s t :
  every class (s +:+ t) = every class s && every class t.
Proof.
  induction s as [|c s IH]; [done|].
  change (String c s +:+ t) with (String c (s +:+ t)).
  simpl. by rewrite IH, andb_assoc.
Qed.

Lemma every_impl (class class' : ascii → bool) s :
  (∀ c, class c = true → class' c = true) →
  every class s = true → every class' s = true.
Proof.
  intros H. induction s as [|c s IH]; [done|]. simpl.
  intros [Hc Hs]%andb_prop. by rewrite (H _ Hc), IH.
Qed.

(** *** The regular expression and the fields *)

Lemma replaceAllFrom_kept b text :
  every (λ c, alphanumeric c || perlSpace c) (replaceAllFrom b text) = true.
Proof.
  revert b; induction text as [|c rest IH]; intros b; [done|]. simpl.
  destruct (alphanumeric c || perlSpace c) eqn:E.
  - simpl. by rewrite E, IH.
  - destruct b; [apply IH|]. simpl. apply IH.
Qed.

Lemma kept_isASCII text :
  every (λ c, alphanumeric c || perlSpace c) text = true →
  Utf8.isASCII text = true.
Proof.
  induction text as [|c rest IH]; [done|]. simpl.
  intros [Hc Hs]%andb_prop. rewrite IH by done.
  apply orb_true_iff in Hc as [Hc|Hc];
    [apply alphanumeric_ascii in Hc | apply perlSpace_ascii in Hc];
    by rewrite (proj2 (Z.ltb_lt _ _) Hc).
Qed.

Lemma fieldsFrom_words word text :
  every alphanumeric word = true →
  every (λ c, alphanumeric c || perlSpace c) text = true →
  Forall (λ w, w ≠ "" ∧ every alphanumeric w = true) (fieldsFrom word text).
Proof.
  revert word; induction text as [|c rest IH]; intros word Hw; simpl.
  - intros _. case_bool_decide; [constructor|]. by repeat constructor.
  - intros [Hc Hs]%andb_prop.
    destruct (asciiSpace c) eqn:Esp.
    + case_bool_decide; [by apply IH|]. constructor; [done|]. by apply IH.
    + apply IH; [|done]. rewrite every_app, Hw. simpl.
      apply orb_true_iff in Hc as [Hc|Hc]; [by rewrite Hc|].
      apply perlSpace_asciiSpace in Hc. congruence.
Qed.

Lemma MatchString_word w :
  w ≠ "" → every alphanumeric w = true → MatchString w = true.
Proof.
  destruct w as [|c w]; [done|]. simpl. intros _ [Hc _]%andb_prop.
  by rewrite Hc.
Qed.

Lemma filter_all {A} (P : A → Prop) `{∀ x, Decision (P x)} (l : list A) :
  Forall P l → filter P l = l.
Proof.
  induction 1 as [|x l Hx Hl IH]; [done|].
  rewrite filter_cons. destruct (decide (P x)); [|done]. by rewrite IH.
Qed.

Section Words.

Variable mapToLower : string → string.
Variable fieldsIsSpace : string → list string.

Lemma wordsOf_words s :
  Forall (λ w, w ≠ "" ∧ every alphanumeric w = true)
    (wordsOf mapToLower fieldsIsSpace s).
Proof.
  unfold wordsOf, Fields, ReplaceAllString.
  pose proof (replaceAllFrom_kept false (ToLower mapToLower s)) as Hk.
  rewrite (kept_isASCII _ Hk). by apply fieldsFrom_words.
Qed.

Lemma wordsOf_valid s :
  filter (λ word, MatchString word = true) (wordsOf mapToLower fieldsIsSpace s)
  = wordsOf mapToLower fieldsIsSpace s.
Proof.
  apply filter_all. eapply Forall_impl; [apply wordsOf_words|].
  intros w [? ?]. by apply MatchString_word.
Qed.

End Words.

(** *** The shape of a slug *)

Lemma shaped_word b w t :
  every alphanumeric w = true →
  shaped b (w +:+ t) = shaped (b || bool_decide (w ≠ "")) t.
Proof.
  revert b; induction w as [|c w IH]; intros b Hw.
  - change ("" +:+ t) with t. by rewrite orb_false_r.
  - simpl in Hw. apply andb_prop in Hw as [Hc Hw].
    change (String c w +:+ t) with (String c (w +:+ t)).
    simpl. rewrite Hc, IH by done. simpl.
    by rewrite orb_true_r.
Qed.

Lemma append_empty s : s +:+ "" = s.
Proof.
  induction s as [|c s IH]; [done|].
  change (String c s +:+ "") with (String c (s +:+ "")). by rewrite IH.
Qed.

Lemma shaped_Join ws :
  ws ≠ [] →
  Forall (λ w, w ≠ "" ∧ every alphanumeric w = true) ws →
  shaped false (Join ws "-") = true.
Proof.
  intros Hne Hws. induction Hws as [|w ws [Hw Ha] Hws IH]; [done|].
  destruct ws as [|w' ws].
  - simpl. rewrite <- (append_empty w).
    rewrite shaped_word by done. simpl. by rewrite bool_decide_eq_true_2.
  - change (Join (w :: w' :: ws) "-") with (w +:+ "-" +:+ Join (w' :: ws) "-").
    rewrite shaped_word by done. simpl.
    rewrite bool_decide_eq_true_2 by done. simpl. by apply IH.
Qed.

Lemma shaped_bytes b s : shaped b s = true → every slugByte s = true.
Proof.
  revert b; induction s as [|c s IH]; intros b; [done|]. simpl.
  unfold slugByte at 1.
  destruct (alphanumeric c); simpl; [apply IH|].
  case_bool_decide as Hc; [|done]. intros [_ Hs]%andb_prop. by apply IH in Hs.
Qed.

Lemma shaped_first s : shaped false s = true → String.prefix "-" s = false.
Proof.
  destruct s as [|c s]; [done|]. rewrite prefix_cons. cbn [shaped].
  destruct (alphanumeric c) eqn:E.
  - intros _. case_bool_decide as Hc; [|done]. subst c.
    by apply alphanumeric_not_hyphen in E.
  - by case_bool_decide.
Qed.

Lemma shaped_no_double b s : shaped b s = true → Contains s "--" = false.
Proof.
  revert b; induction s as [|c s IH]; intros b; [done|].
  intros H. cbn [Contains]. apply orb_false_iff. split.
  - rewrite prefix_cons. case_bool_decide as Hc; [subst c|done].
    destruct s as [|c' s]; [done|].
    rewrite prefix_cons. case_bool_decide as Hc'; [subst c'|done].
    cbn [shaped] in H.
    change (alphanumeric "-") with false in H.
    rewrite (bool_decide_eq_true_2 ("-"%char = hyphen)) in H by done.
    simpl in H. by rewrite andb_false_r in H.
  - cbn [shaped] in H. destruct (alphanumeric c); [by eapply IH|].
    case_bool_decide as Hc; [|done]. apply andb_prop in H as [_ H].
    by eapply IH.
Qed.

Lemma inCutset_hyphen c : inCutset "-" c = bool_decide (c = hyphen).
Proof.
  unfold inCutset. apply bool_decide_ext. simpl. apply list_elem_of_singleton.
Qed.

Lemma shaped_last b s : shaped b s = true → TrimRight s "-" = s.
Proof.
  revert b; induction s as [|c s IH]; intros b; [done|].
  cbn [shaped TrimRight]. rewrite inCutset_hyphen.
  destruct (alphanumeric c) eqn:E.
  - intros H. rewrite (IH _ H).
    rewrite (bool_decide_eq_false_2 (c = hyphen))
      by (by apply alphanumeric_not_hyphen).
    by rewrite andb_false_r.
  - case_bool_decide as Hc; [|done]. intros [_ H]%andb_prop.
    rewrite (IH _ H). destruct s; [discriminate H|].
    by rewrite (bool_decide_eq_false_2 (String _ _ = "")).
Qed.

Lemma shaped_Trim s : shaped false s = true → Trim s "-" = s.
Proof.
  intros H. unfold Trim. rewrite (shaped_last _ _ H).
  destruct s as [|c s]; [done|]. cbn [TrimLeft]. rewrite inCutset_hyphen.
  apply shaped_first in H. rewrite prefix_cons in H.
  destruct (decide (c = hyphen)) as [->|Hc].
  - rewrite bool_decide_eq_true_2 in H by done. by destruct s.
  - by rewrite bool_decide_eq_false_2.
Qed.

Lemma removeDuplicateHyphens_none n s :
  Contains s "--" = false → removeDuplicateHyphens n s = s.
Proof. intros H. destruct n; [done|]. simpl. by rewrite H. Qed.

(** [cleanupSlug] finds nothing to do on a slug. *)
Lemma cleanupSlug_shaped s : shaped false s = true → cleanupSlug s = s.
Proof.
  intros H. unfold cleanupSlug.
  rewrite removeDuplicateHyphens_none by (by eapply shaped_no_double).
  by apply shaped_Trim.
Qed.

(** *** Cutting a slug *)

Lemma shaped_alphanumeric b w :
  every alphanumeric w = true → w ≠ "" → shaped b w = true.
Proof.
  intros Hw Hne. rewrite <- (append_empty w), shaped_word by done.
  simpl. rewrite bool_decide_eq_true_2 by done. by rewrite orb_true_r.
Qed.

Lemma shaped_upto b s n :
  shaped b s = true →
  String.prefix "-" (Utf8.from n s) = true →
  shaped b (Utf8.upto n s) = true.
Proof.
  revert b s; induction n as [|n IH]; intros b s H Hp.
  - destruct s as [|c s]; [done|]. cbn [Utf8.from] in Hp. cbn [Utf8.upto shaped].
    rewrite prefix_cons in Hp. apply andb_prop in Hp as [Hc _].
    apply bool_decide_eq_true_1 in Hc. subst c.
    cbn [shaped] in H. change (alphanumeric "-") with false in H.
    rewrite (bool_decide_eq_true_2 ("-"%char = hyphen)) in H by done.
    by apply andb_prop in H as [-> _].
  - destruct s as [|c s]; [done|]. cbn [Utf8.from] in Hp.
    cbn [Utf8.upto shaped] in *.
    destruct (alphanumeric c); [by apply IH|].
    case_bool_decide as Hc; [|done]. apply andb_prop in H as [-> H].
    simpl. by apply IH.
Qed.

Lemma lastIndexFrom_spec i found s :
  (every (λ c, negb (bool_decide (c = hyphen))) s = true
   ∧ lastIndexFrom i found s "-" = found)
  ∨ (i ≤ lastIndexFrom i found s "-" < i + Op.len s
     ∧ String.prefix "-"
         (Utf8.from (Z.to_nat (lastIndexFrom i found s "-" - i)) s) = true).
Proof.
  revert i found; induction s as [|c s IH]; intros i found.
  - left. done.
  - cbn [lastIndexFrom every]. rewrite prefix_cons.
    replace (String.prefix "" s) with true by (by destruct s).
    rewrite andb_true_r.
    unfold Op.len. cbn [String.length]. rewrite Nat2Z.inj_succ.
    destruct (IH (i + 1) (if bool_decide ("-"%char = c) then i else found))
      as [[Hs Hr]|[Hr Hp]].
    + rewrite Hr. case_bool_decide as Hc.
      * right. split; [lia|]. rewrite Z.sub_diag.
        change (Z.to_nat 0) with 0%nat. cbn [Utf8.from].
        rewrite prefix_cons. subst c. rewrite bool_decide_eq_true_2 by done.
        by destruct s.
      * left. rewrite Hs, bool_decide_eq_false_2 by (intros ->; done). done.
    + right. unfold Op.len in Hr. split; [lia|].
      replace (Z.to_nat (lastIndexFrom (i + 1)
                 (if bool_decide ("-"%char = c) then i else found) s "-" - i))
        with (S (Z.to_nat (lastIndexFrom (i + 1)
                 (if bool_decide ("-"%char = c) then i else found) s "-"
                 - (i + 1)))) by lia.
      exact Hp.
Qed.


Lemma length_upto' n s :
  (n ≤ String.length s)%nat → String.length (Utf8.upto n s) = n.
Proof.
  revert s; induction n as [|n IH]; intros [|c s]; simpl; try done; try lia.
  intros ?. rewrite IH; lia.
Qed.

Lemma prefix_from_upto n m s :
  (n < m)%nat →
  String.prefix "-" (Utf8.from n (Utf8.upto m s)) = true →
  String.prefix "-" (Utf8.from n s) = true.
Proof.
  revert m s; induction n as [|n IH]; intros m s Hnm.
  - destruct m as [|m]; [lia|]. destruct s as [|c s]; [done|].
    cbn [Utf8.from Utf8.upto]. rewrite !prefix_cons.
    intros [-> _]%andb_prop. by destruct s.
  - destruct m as [|m]; [lia|]. destruct s as [|c s]; [done|].
    cbn [Utf8.from Utf8.upto]. apply IH. lia.
Qed.

Lemma every_upto class n s :
  every class s = true → every class (Utf8.upto n s) = true.
Proof.
  revert s; induction n as [|n IH]; intros [|c s]; try done.
  cbn [Utf8.upto every]. intros [-> Hs]%andb_prop. by apply IH.
Qed.

Lemma slugByte_alphanumeric s :
  every slugByte s = true →
  every (λ c, negb (bool_decide (c = hyphen))) s = true →
  every alphanumeric s = true.
Proof.
  induction s as [|c s IH]; [done|]. cbn [every]. unfold slugByte at 1.
  intros [Hc Hs]%andb_prop [Hn Hs']%andb_prop.
  rewrite IH by done.
  destruct (alphanumeric c); [done|]. simpl in Hc. by rewrite Hc in Hn.
Qed.

(** A slug that is too long is cut before a hyphen or, where its
    first 64 bytes have none, after 64 bytes; no slice is out of
    range, and what is left is a slug of 64 bytes at most. *)
Lemma truncate_shaped slug :
  shaped false slug = true → 64 < Op.len slug →
  truncateSlugAtWordBoundary slug 64 = Some (cut slug)
  ∧ shaped false (cut slug) = true
  ∧ Op.len (cut slug) ≤ 64.
Proof.
  intros Hs Hlen. unfold truncateSlugAtWordBoundary, cut.
  rewrite (proj2 (Z.ltb_lt _ _) Hlen).
  destruct (Z.leb_spec (Op.len slug) 64) as [?|_]; [lia|].
  assert (H64 : slice slug 64 = Some (Utf8.upto 64 slug)).
  { unfold slice. fold (Op.len slug).
    by rewrite (proj2 (Z.leb_le 0 64)), (proj2 (Z.leb_le 64 (Op.len slug)))
      by lia. }
  rewrite H64. clear H64. cbn [mbind option_bind].
  unfold LastIndex.
  assert (Hlong : (64 < String.length slug)%nat).
  { unfold Op.len in Hlen. lia. }
  assert (Hl64 : String.length (Utf8.upto 64 slug) = 64%nat).
  { apply length_upto'. lia. }
  destruct (lastIndexFrom_spec 0 (-1) (Utf8.upto 64 slug)) as [[Hno Hr]|[Hr Hp]].
  - rewrite Hr. change (0 <? -1) with false. cbv iota.
    split; [done|]. split; [|unfold Op.len; rewrite Hl64; lia].
    apply shaped_alphanumeric.
    + apply slugByte_alphanumeric; [|done].
      apply every_upto. by eapply shaped_bytes.
    + intros E. rewrite E in Hl64. done.
  - set (r := lastIndexFrom 0 (-1) (Utf8.upto 64 slug) "-") in *.
    unfold Op.len in Hr. rewrite Hl64 in Hr. rewrite Z.sub_0_r in Hp.
    assert (Hp' : String.prefix "-" (Utf8.from (Z.to_nat r) slug) = true)
      by (apply (prefix_from_upto _ 64); [lia | done]).
    destruct (Z.ltb_spec 0 r) as [Hpos|Hzero]; cbv iota.
    + unfold slice. fold (Op.len slug).
      rewrite (proj2 (Z.leb_le 0 r)), (proj2 (Z.leb_le r (Op.len slug))) by lia.
      split; [done|]. split; [by apply shaped_upto|].
      unfold Op.len. rewrite length_upto' by lia. lia.
    + assert (r = 0) as Hr0 by lia. rewrite Hr0 in Hp'.
      change (Z.to_nat 0) with 0%nat in Hp'. cbn [Utf8.from] in Hp'.
      by rewrite (shaped_first _ Hs) in Hp'.
Qed.

Lemma HasSuffix_cons c s :
  s ≠ "" → HasSuffix (String c s) "-" = HasSuffix s "-".
Proof.
  intros Hs. unfold HasSuffix. destruct s as [|c' s]; [done|].
  cbn [String.length]. rewrite !Nat.sub_succ, !Nat.sub_0_r.
  cbn [Utf8.from]. done.
Qed.

Lemma shaped_suffix b s : shaped b s = true → HasSuffix s "-" = false.
Proof.
  revert b; induction s as [|c s IH]; intros b H; [done|].
  destruct (decide (s = "")) as [->|Hne].
  - unfold HasSuffix. simpl. apply bool_decide_eq_false_2. intros [= ->].
    cbn [shaped] in H. change (alphanumeric "-") with false in H.
    rewrite (bool_decide_eq_true_2 ("-"%char = hyphen)) in H by done.
    simpl in H. by rewrite andb_false_r in H.
  - rewrite HasSuffix_cons by done. cbn [shaped] in H.
    destruct (alphanumeric c); [by eapply IH|].
    case_bool_decide as Hc; [|done]. apply andb_prop in H as [_ H].
    by eapply IH.
Qed.

(** *** A slug is its own slug *)

Lemma slugByte_lower c : slugByte c = true → lowerByte c = c.
Proof.
  unfold slugByte, alphanumeric, lowerByte. cbv zeta. intros H.
  destruct ((65 <=? Utf8.byte c) && (Utf8.byte c <=? 90)) eqn:E; [|done].
  apply andb_prop in E as [E1 E2]. apply Z.leb_le in E1, E2.
  apply orb_true_iff in H as [H|H].
  - apply orb_true_iff in H as [H|H]; apply andb_prop in H as [H1 H2];
      apply Z.leb_le in H1, H2; lia.
  - apply bool_decide_eq_true_1 in H. subst c. vm_compute in E1. done.
Qed.

Lemma slugByte_ascii c : slugByte c = true → Utf8.byte c < 128.
Proof.
  unfold slugByte. intros [H|H]%orb_true_iff.
  - by apply alphanumeric_ascii.
  - apply bool_decide_eq_true_1 in H. by subst c.
Qed.

Lemma slug_isASCII s : every slugByte s = true → Utf8.isASCII s = true.
Proof.
  induction s as [|c s IH]; [done|]. cbn [every Utf8.isASCII].
  intros [Hc Hs]%andb_prop. rewrite IH by done.
  apply slugByte_ascii in Hc. by rewrite (proj2 (Z.ltb_lt _ _) Hc).
Qed.

Lemma slug_lowerBytes s : every slugByte s = true → lowerBytes s = s.
Proof.
  induction s as [|c s IH]; [done|]. cbn [every lowerBytes].
  intros [Hc Hs]%andb_prop. by rewrite slugByte_lower, IH.
Qed.

Lemma replaceAllFrom_word b s :
  shaped false s = true → replaceAllFrom b s = replaceAllFrom false s.
Proof.
  destruct s as [|c s]; [done|]. cbn [shaped replaceAllFrom].
  destruct (alphanumeric c); [done|]. by case_bool_decide.
Qed.

Lemma append_snoc w c t : (w +:+ String c "") +:+ t = w +:+ String c t.
Proof.
  induction w as [|a w IH]; [done|].
  change (String a w +:+ ?x) with (String a (w +:+ x)).
  change (String a (w +:+ String c "") +:+ t)
    with (String a ((w +:+ String c "") +:+ t)).
  by rewrite IH.
Qed.

Lemma Join_cons w ws :
  ws ≠ [] → Join (w :: ws) "-" = w +:+ "-" +:+ Join ws "-".
Proof. by destruct ws. Qed.

(** The words of a slug, put together again, are the slug. *)
Lemma fieldsFrom_slug t : ∀ w b,
  shaped b t = true →
  b = bool_decide (w ≠ "") →
  every alphanumeric w = true →
  fieldsFrom w (replaceAllFrom false t) ≠ []
  ∧ Join (fieldsFrom w (replaceAllFrom false t)) "-" = w +:+ t.
Proof.
  induction t as [|c t IH]; intros w b Hs Hb Hw.
  - cbn [shaped] in Hs. rewrite Hb in Hs. apply bool_decide_eq_true_1 in Hs.
    simpl. rewrite bool_decide_eq_false_2 by done.
    split; [done|]. simpl. by rewrite append_empty.
  - cbn [shaped replaceAllFrom] in *.
    destruct (alphanumeric c) eqn:Ec.
    + cbn [orb fieldsFrom]. rewrite alphanumeric_not_space by done.
      destruct (IH (w +:+ String c "") true Hs) as [Hne HJ].
      * symmetry. apply bool_decide_eq_true_2. by destruct w.
      * by rewrite every_app, Hw; simpl; rewrite Ec.
      * split; [done|]. by rewrite HJ, append_snoc.
    + destruct (decide (c = hyphen)) as [->|Hc];
        [|by rewrite (bool_decide_eq_false_2 (c = hyphen)) in Hs].
      rewrite (bool_decide_eq_true_2 (hyphen = hyphen)) in Hs by done.
      apply andb_prop in Hs as [Hb' Hs]. rewrite Hb in Hb'.
      apply bool_decide_eq_true_1 in Hb'.
      change (perlSpace hyphen) with false. cbn [orb fieldsFrom].
      change (asciiSpace " ") with true. cbv iota.
      rewrite bool_decide_eq_false_2 by done.
      rewrite replaceAllFrom_word by done.
      destruct (IH "" false Hs eq_refl eq_refl) as [Hne HJ].
      split; [done|]. rewrite Join_cons by done. by rewrite HJ.
Qed.

Section Generate.

Variable mapToLower : string → string.
Variable fieldsIsSpace : string → list string.

Local Abbreviation generateSlug := (generateSlug mapToLower fieldsIsSpace).
Local Abbreviation words := (wordsOf mapToLower fieldsIsSpace).

Lemma Join_nonempty ws :
  ws ≠ [] → Forall (λ w, w ≠ "" ∧ every alphanumeric w = true) ws →
  Join ws "-" ≠ "".
Proof.
  intros Hne Hws E. pose proof (shaped_Join ws Hne Hws) as H.
  by rewrite E in H.
Qed.

(** What [generateSlug] comes to. *)
Lemma generateSlug_cut s :
  generateSlug s
  = Some (if bool_decide (words s = []) then ""
          else cut (Join (words s) "-"))
  ∧ (words s ≠ [] →
     shaped false (cut (Join (words s) "-")) = true
     ∧ Op.len (cut (Join (words s) "-")) ≤ 64).
Proof.
  unfold Slugger.generateSlug. fold (words s). rewrite wordsOf_valid.
  pose proof (wordsOf_words mapToLower fieldsIsSpace s) as Hws.
  destruct (decide (words s = [])) as [E|Hne].
  - rewrite E. split; [done|]. congruence.
  - rewrite (bool_decide_eq_false_2 (words s = [])) by done.
    rewrite (bool_decide_eq_false_2 (length (words s) = 0%nat))
      by (by destruct (words s)).
    pose proof (shaped_Join _ Hne Hws) as Hshape.
    destruct (Z.ltb_spec 64 (Op.len (Join (words s) "-"))) as [Hlong|Hshort].
    + destruct (truncate_shaped _ Hshape Hlong) as (-> & Hs & Hl).
      cbn [mbind option_bind].
      destruct (Z.ltb_spec 64 (Op.len (cut (Join (words s) "-"))));
        [lia|].
      cbn [mbind option_bind]. rewrite cleanupSlug_shaped by done.
      split; [done|]. intros _. by split.
    + cbn [mbind option_bind]. rewrite cleanupSlug_shaped by done.
      assert (Hcut : cut (Join (words s) "-") = Join (words s) "-").
      { unfold cut. destruct (Z.ltb_spec 64 (Op.len (Join (words s) "-")));
          [lia|done]. }
      rewrite Hcut. split; [done|]. intros _. by split.
Qed.

Lemma wordsOf_slug t :
  shaped false t = true →
  words t ≠ [] ∧ Join (words t) "-" = t.
Proof.
  intros Hs. unfold wordsOf, Fields, ToLower, ReplaceAllString.
  pose proof (shaped_bytes _ _ Hs) as Hb.
  rewrite (slug_isASCII _ Hb), (slug_lowerBytes _ Hb).
  rewrite (kept_isASCII _ (replaceAllFrom_kept false t)).
  by apply (fieldsFrom_slug t "" false).
Qed.

(** X17: whatever the text, [generateSlug] returns, and what it
    returns is a slug: 64 bytes at most, of lower-case letters, digits
    and hyphens only, with no hyphen at its start or its end and no
    two hyphens in a row; it is empty exactly when the lowered text
    has no letter and no digit of ASCII. *)
Theorem generateSlug_is_a_slug s :
  ∃ slug,
    generateSlug s = Some slug
    ∧ Op.len slug ≤ 64
    ∧ every slugByte slug = true
    ∧ String.prefix "-" slug = false
    ∧ HasSuffix slug "-" = false
    ∧ Contains slug "--" = false
    ∧ (slug = "" ↔ words s = []).
Proof.
  destruct (generateSlug_cut s) as [Hg Hw]. eexists. split; [exact Hg|].
  case_bool_decide as Hnil; [by rewrite Hnil|].
  destruct (Hw Hnil) as [Hs Hl].
  split; [done|]. split; [by eapply shaped_bytes|].
  split; [by apply shaped_first|]. split; [by eapply shaped_suffix|].
  split; [by eapply shaped_no_double|].
  split; [|done]. intros E. by rewrite E in Hs.
Qed.

(** X18: what [generateSlug] never does.  Every word that
    [strings.Fields] finds has a letter or a digit, so the filter
    keeps them all; [truncateSlugAtWordBoundary] leaves 64 bytes at
    most, so the hard truncation behind it is dead; no slice is out of
    range; and [cleanupSlug] is handed a slug and changes nothing.
    The slug is the words joined by hyphens, cut before the last
    hyphen among its first 64 bytes if it is longer than that. *)
Theorem generateSlug_never_cleans_up s :
  generateSlug s
  = Some (if bool_decide (words s = []) then ""
          else cut (Join (words s) "-"))
  ∧ filter (λ word, MatchString word = true) (words s) = words s
  ∧ (words s ≠ [] →
     ∃ slug,
       (if 64 <? Op.len (Join (words s) "-")
        then truncateSlugAtWordBoundary (Join (words s) "-") 64
        else Some (Join (words s) "-")) = Some slug
       ∧ Op.len slug ≤ 64
       ∧ cleanupSlug slug = slug).
Proof.
  split; [apply generateSlug_cut|]. split; [apply wordsOf_valid|].
  intros Hne.
  pose proof (wordsOf_words mapToLower fieldsIsSpace s) as Hws.
  pose proof (shaped_Join _ Hne Hws) as Hshape.
  destruct (Z.ltb_spec 64 (Op.len (Join (words s) "-"))) as [Hlong|Hshort].
  - destruct (truncate_shaped _ Hshape Hlong) as (-> & Hs & Hl).
    eexists. split; [done|]. split; [done|]. by apply cleanupSlug_shaped.
  - eexists. split; [done|]. split; [done|]. by apply cleanupSlug_shaped.
Qed.

(** X20: [generateSlug] is idempotent: the slug of a slug is that
    slug. *)
Theorem generateSlug_is_idempotent s :
  ∃ slug, generateSlug s = Some slug ∧ generateSlug slug = Some slug.
Proof.
  destruct (generateSlug_cut s) as [Hg Hw]. eexists. split; [exact Hg|].
  case_bool_decide as Hnil; [reflexivity|].
  destruct (Hw Hnil) as [Hs Hl].
  set (slug := cut (Join (words s) "-")) in *.
  destruct (wordsOf_slug slug Hs) as [Hne HJ].
  destruct (generateSlug_cut slug) as [-> _].
  rewrite bool_decide_eq_false_2 by done. rewrite HJ.
  unfold cut at 1. by destruct (Z.ltb_spec 64 (Op.len slug)); [lia|].
Qed.

End Generate.
End Slugs.

Section Cleanup.
Import Strings Slugger.

Lemma length_append s t :
  String.length (s +:+ t) = (String.length s + String.length t)%nat.
Proof.
  induction s as [|c s IH]; [done|].
  change (String c s +:+ t) with (String c (s +:+ t)). simpl. by rewrite IH.
Qed.

Lemma prefix_hyphens c rest :
  String.prefix "--" (String c rest) = true →
  c = hyphen ∧ ∃ rest', rest = String hyphen rest'.
Proof.
  rewrite prefix_cons. intros [Hc Hr]%andb_prop.
  apply bool_decide_eq_true_1 in Hc. subst c. split; [done|].
  destruct rest as [|c' rest']; [done|]. rewrite prefix_cons in Hr.
  apply andb_prop in Hr as [Hc' _]. apply bool_decide_eq_true_1 in Hc'.
  subst c'. by eexists.
Qed.

(** A round of the loop takes a byte at least. *)
Lemma length_ReplaceAll s :
  (String.length (ReplaceAll s "--" "-") ≤ String.length s)%nat
  ∧ (Contains s "--" = true →
     (String.length (ReplaceAll s "--" "-") < String.length s)%nat).
Proof.
  remember (String.length s) as n eqn:Hn.
  revert s Hn; induction (lt_wf n) as [n _ IH]; intros s ->.
  destruct s as [|c rest]; [done|].
  rewrite ReplaceAll_cons. cbn [Contains].
  destruct (String.prefix "--" (String c rest)) eqn:Hp.
  - apply prefix_hyphens in Hp as [-> [rest' ->]].
    change (String.length "--" - 1)%nat with 1%nat. cbn [Utf8.from].
    rewrite length_append.
    destruct (IH (String.length rest')) with (s := rest') as [Hle _];
      [simpl; lia | done |].
    simpl. simpl in Hle. split; [lia|]. intros _. lia.
  - destruct (IH (String.length rest)) with (s := rest) as [Hle Hlt];
      [simpl; lia | done |].
    simpl. split; [lia|]. intros H. apply Hlt in H. lia.
Qed.

(** The loop ends with no two hyphens in a row left. *)
Lemma removeDuplicateHyphens_spec n s :
  (String.length s ≤ n)%nat →
  Contains (removeDuplicateHyphens n s) "--" = false.
Proof.
  revert s; induction n as [|n IH]; intros s Hn.
  - destruct s; [done|]. simpl in Hn. lia.
  - cbn [removeDuplicateHyphens].
    destruct (Contains s "--") eqn:E; [|done].
    apply IH. destruct (length_ReplaceAll s) as [_ Hlt].
    specialize (Hlt E). lia.
Qed.

Lemma TrimRight_first s a R :
  TrimRight s "-" = String a R → ∃ s', s = String a s'.
Proof.
  destruct s as [|c s]; [done|]. cbn [TrimRight].
  destruct (bool_decide (TrimRight s "-" = "") && inCutset "-" c); [done|].
  intros [= -> _]. by eexists.
Qed.

Lemma Contains_TrimRight s :
  Contains s "--" = false → Contains (TrimRight s "-") "--" = false.
Proof.
  induction s as [|c s IH]; [done|]. cbn [Contains TrimRight].
  intros [Hp Hs]%orb_false_iff.
  destruct (bool_decide (TrimRight s "-" = "") && inCutset "-" c); [done|].
  cbn [Contains]. rewrite IH by done. rewrite orb_false_r.
  destruct (String.prefix "--" (String c (TrimRight s "-"))) eqn:E; [|done].
  apply prefix_hyphens in E as [-> [R HR]].
  apply TrimRight_first in HR as [s' ->].
  by destruct s'.
Qed.

Lemma Contains_TrimLeft s :
  Contains s "--" = false → Contains (TrimLeft s "-") "--" = false.
Proof.
  induction s as [|c s IH]; [done|]. cbn [TrimLeft].
  destruct (inCutset "-" c); [|done].
  cbn [Contains]. intros [_ Hs]%orb_false_iff. by apply IH.
Qed.

Lemma TrimLeft_first s : String.prefix "-" (TrimLeft s "-") = false.
Proof.
  induction s as [|c s IH]; [done|]. cbn [TrimLeft].
  rewrite inCutset_hyphen. destruct (decide (c = hyphen)) as [->|Hc].
  - by rewrite bool_decide_eq_true_2.
  - rewrite (bool_decide_eq_false_2 (c = hyphen)) by done.
    rewrite prefix_cons. by rewrite bool_decide_eq_false_2.
Qed.

Lemma TrimRight_last s : HasSuffix (TrimRight s "-") "-" = false.
Proof.
  induction s as [|c s IH]; [done|]. cbn [TrimRight].
  rewrite inCutset_hyphen.
  destruct (decide (TrimRight s "-" = "")) as [E|Hne].
  - rewrite E, (bool_decide_eq_true_2 ("" = "")) by done. cbn [andb].
    destruct (decide (c = hyphen)) as [->|Hc].
    + by rewrite bool_decide_eq_true_2.
    + rewrite (bool_decide_eq_false_2 (c = hyphen)) by done.
      unfold HasSuffix. simpl. apply bool_decide_eq_false_2. by intros [= ->].
  - rewrite (bool_decide_eq_false_2 (TrimRight s "-" = "")) by done.
    cbn [andb]. by rewrite HasSuffix_cons.
Qed.

Lemma HasSuffix_TrimLeft s :
  HasSuffix s "-" = false → HasSuffix (TrimLeft s "-") "-" = false.
Proof.
  induction s as [|c s IH]; [done|]. cbn [TrimLeft].
  destruct (inCutset "-" c); [|done].
  destruct (decide (s = "")) as [->|Hne]; [done|].
  rewrite HasSuffix_cons by done. apply IH.
Qed.

Lemma TrimRight_same s : HasSuffix s "-" = false → TrimRight s "-" = s.
Proof.
  induction s as [|c s IH]; [done|]. cbn [TrimRight].
  rewrite inCutset_hyphen.
  destruct (decide (s = "")) as [->|Hne].
  - intros H. cbn [TrimRight].
    rewrite (bool_decide_eq_false_2 (c = hyphen)); [by rewrite andb_false_r|].
    intros ->. done.
  - rewrite HasSuffix_cons by done. intros H. rewrite IH by done.
    by rewrite (bool_decide_eq_false_2 (s = "")).
Qed.

Lemma TrimLeft_same s : String.prefix "-" s = false → TrimLeft s "-" = s.
Proof.
  destruct s as [|c s]; [done|]. cbn [TrimLeft]. rewrite inCutset_hyphen.
  rewrite prefix_cons. destruct (decide (c = hyphen)) as [->|Hc].
  - rewrite (bool_decide_eq_true_2 ("-"%char = hyphen)) by done.
    by destruct s.
  - by rewrite (bool_decide_eq_false_2 (c = hyphen)).
Qed.

(** X19: [cleanupSlug] on any string: the loop ends, and the result
    has no two hyphens in a row, no hyphen at its start and none at
    its end; cleaning up twice is cleaning up once. *)
Theorem cleanupSlug_cleans_up slug :
  Contains (cleanupSlug slug) "--" = false
  ∧ String.prefix "-" (cleanupSlug slug) = false
  ∧ HasSuffix (cleanupSlug slug) "-" = false
  ∧ cleanupSlug (cleanupSlug slug) = cleanupSlug slug.
Proof.
  assert (H : Contains (cleanupSlug slug) "--" = false
              ∧ String.prefix "-" (cleanupSlug slug) = false
              ∧ HasSuffix (cleanupSlug slug) "-" = false).
  { unfold cleanupSlug, Trim. split; [|split].
    - apply Contains_TrimLeft, Contains_TrimRight.
      by apply removeDuplicateHyphens_spec.
    - apply TrimLeft_first.
    - apply HasSuffix_TrimLeft, TrimRight_last. }
  destruct H as (Hc & Hp & Hs). repeat split; try done.
  unfold cleanupSlug at 1, Trim.
  rewrite removeDuplicateHyphens_none by done.
  rewrite TrimRight_same by done. by apply TrimLeft_same.
Qed.

End Cleanup.

Section SlugHandler.

Variable errorText : error → string.
Variable mapToLower : string → string.
Variable fieldsIsSpace : string → list string.

Local Abbreviation generateSlug :=
  (Slugger.generateSlug mapToLower fieldsIsSpace).
Local Abbreviation handleOp := (Slugger.handleOp errorText generateSlug).

(** X21: the handler of the slugger answers every request: no
    request makes it panic.  A request that is no POST is answered
    405; a POST is answered 200 with a JSON document that has a slug or
    an error message, never both and never neither, and a slug it has
    is not empty, 64 bytes at most and of letters, digits and hyphens
    only. *)
Theorem slugger_always_answers r requestCounter :
  ∃ reply,
    (handleOp r requestCounter).1 = Some reply
    ∧ (Method r ≠ "POST" →
       reply = Op.httpError "Method not allowed" StatusMethodNotAllowed)
    ∧ (Method r = "POST" →
       ∃ value errorMsg,
         reply
         = {| Op.Status := StatusOK;
              Op.Header := "application/json";
              Op.Sent :=
                Op.JsonBody
                  (Op.EncodeOpResponse
                     {| Op.Key := "slug";
                        Op.Value := value;
                        Op.CacheHit := false;
                        Op.Error := errorMsg |}) |}
         ∧ (value = None ↔ errorMsg ≠ "")
         ∧ (∀ slug, value = Some slug →
              slug ≠ "" ∧ Op.len slug ≤ 64 ∧ every slugByte slug = true)).
Proof.
  unfold Slugger.handleOp. case_bool_decide as HP.
  { eexists. split; [done|]. split; [done|]. intros E. by rewrite E in HP. }
  match goal with
  | |- context [match ?e with Some _ => _ | None => _ end] =>
      assert (G : ∃ value msg,
                e = Some (value, msg)
                ∧ (value = None ↔ msg ≠ "")
                ∧ (∀ slug, value = Some slug →
                     slug ≠ "" ∧ Op.len slug ≤ 64
                     ∧ every slugByte slug = true));
        [|destruct G as (value & msg & -> & G1 & G2)]
  end.
  2: { eexists. split; [done|]. split; [done|]. intros _.
       exists value, msg. done. }
  destruct (Op.DecodeOpRequest (RequestBody r)) as [req|err].
  2: { eexists _, _. split; [done|]. split; [|done].
       split; [intros _; discriminate | done]. }
  destruct (Op.Valid (Op.validateInput req)) eqn:HV; cbn [negb].
  2: { eexists _, _. split; [done|]. split; [|done].
       split; [intros _; by apply validateInput_error | done]. }
  assert (Hgen : ∀ input,
    ∃ value msg,
      (slug ← generateSlug input;
       if bool_decide (slug = "") then
         Some (None, "No valid characters found for slug generation")
       else Some (Some slug, ""))
      = Some (value, msg)
      ∧ (value = None ↔ msg ≠ "")
      ∧ (∀ slug, value = Some slug →
           slug ≠ "" ∧ Op.len slug ≤ 64 ∧ every slugByte slug = true)).
  { intros input.
    destruct (generateSlug_is_a_slug mapToLower fieldsIsSpace input)
      as (slug & -> & Hl & Hb & _).
    cbn [mbind option_bind]. case_bool_decide as Hs.
    - eexists _, _. split; [done|]. split; [|done]. done.
    - eexists _, _. split; [done|]. split; [done|].
      by intros ? [= <-]. }
  repeat (case_match; simplify_eq; try apply Hgen);
    eexists _, _; (split; [done|]); (split; [|done]); done.
Qed.

End SlugHandler.

Section BehindSlug.

Variable convOverflow : float64 → Z.
Variable Getenv : string → string.
Variable roundTrip : Dep → HttpPost → HttpReply.
Variable errorText : error → string.
Variable mapToLower : string → string.
Variable fieldsIsSpace : string → list string.
Variable requestCounter : Z.

Local Abbreviation generateSlug :=
  (Slugger.generateSlug mapToLower fieldsIsSpace).
Local Abbreviation service :=
  (Slugger.remote errorText generateSlug requestCounter).
Local Abbreviation net := (<[slugger := service]> roundTrip).

Lemma slug_travels slug :
  every slugByte slug = true → Utf8.coerce slug = slug.
Proof.
  intros H. by apply coerce_valid, isValidUTF8_ascii, slug_isASCII.
Qed.

Lemma slugger_reply url text :
  ∃ errorMsg,
    service (opPost url text)
    = Response StatusOK
        (Bytes (Some (Op.EncodeOpResponse
                        {| Op.Key := "slug";
                           Op.Value :=
                             if accepted text
                             then match default "" (generateSlug text) with
                                  | "" => None
                                  | slug => Some slug
                                  end
                             else None;
                           Op.CacheHit := false;
                           Op.Error := errorMsg |}))).
Proof.
  unfold Slugger.remote, Slugger.handleOp, opPost.
  cbn [post_body Method RequestBody].
  rewrite (bool_decide_eq_false_2 ("POST" ≠ "POST")) by (intros H; by apply H).
  rewrite DecodeOpRequest_text. unfold accepted.
  cbn [OpRequest_Text OpRequest_Deps].
  destruct (decide (text = "")) as [->|Hne]; [eexists; reflexivity|].
  rewrite (bool_decide_eq_true_2 (text ≠ "")) by done.
  unfold Op.validateInput; simpl.
  destruct (Z.eqb_spec (Op.len (Utf8.coerce text)) 0) as [H0|H0].
  { apply (proj1 (len_zero _)), (proj1 (coerce_empty _)) in H0. done. }
  rewrite isValidUTF8_coerce.
  destruct (Op.isValidUTF8 text) eqn:Hv; simpl; [|eexists; reflexivity].
  rewrite coerce_valid by done.
  rewrite (bool_decide_eq_true_2 (text ≠ "")) by done.
  destruct (Z.ltb_spec 10000 (Op.len text)), (Z.leb_spec (Op.len text) 10000);
    try lia; [eexists; reflexivity|].
  destruct (generateSlug_cut mapToLower fieldsIsSpace text) as [-> _].
  simpl. case_bool_decide as Hs.
  - rewrite Hs. eexists; reflexivity.
  - destruct (if bool_decide _ then _ else _) as [|c slug] eqn:E; [done|].
    eexists; reflexivity.
Qed.

Lemma outcome_slugger text :
  outcome Getenv net text slugger
  = Ok {| Key := "slug";
          Value := if accepted text
                   then match default "" (generateSlug text) with
                        | "" => Nil
                        | slug => Str slug
                        end
                   else Nil;
          CacheHit := false |}.
Proof.
  apply outcome_Ok.
  destruct (slugger_reply (serviceURL Getenv slugger +:+ "/op") text)
    as [msg Hr].
  eexists. split.
  - unfold opPost in *. rewrite fn_lookup_insert. exact Hr.
  - rewrite EncodeOpResponse_decodes. cbn [Op.Key Op.Value Op.CacheHit].
    destruct (generateSlug_is_a_slug mapToLower fieldsIsSpace text)
      as (slug & -> & _ & Hb & _).
    destruct (accepted text); [|done]. simpl.
    destruct slug as [|c slug]; [done|]. by rewrite (slug_travels _ Hb).
Qed.

(** X22: the aggregator in front of the slugger.  Whatever the text,
    the call of the slugger succeeds: the response has the slug of the
    text if the text is not empty, holds no U+FFFD and no byte out of
    place and is no longer than ten thousand bytes, and the empty
    string otherwise, also when the text has no letter and no digit;
    the slug in the response is 64 bytes at most, of letters, digits
    and hyphens only; if the response is degraded, another service
    failed. *)
Theorem slugger_behind_aggregator text sched :
  fair sched = true →
  ∃ response sent,
    aggregateAnalysis convOverflow Getenv net text sched
    = Some (response, None, sent)
    ∧ Slug response
      = (if accepted text then default "" (generateSlug text) else "")
    ∧ Op.len (Slug response) ≤ 64
    ∧ every slugByte (Slug response) = true
    ∧ (Degraded response = true →
       ∃ d, d ≠ slugger ∧ isErr (outcome Getenv net text d) = true).
Proof.
  intros Hfair.
  destruct (aggregateAnalysis_fair convOverflow Getenv net text sched Hfair)
    as (s & order & calls & _ & Ho & _ & _ & He & _ & ->).
  eexists _, _. split; [reflexivity|].
  assert (HS : Slug (assembled convOverflow Getenv net text)
               = if accepted text then default "" (generateSlug text) else "").
  { simpl. rewrite outcome_slugger. simpl.
    destruct (accepted text); [|done].
    by destruct (default "" (generateSlug text)). }
  assert (HB : Op.len (Slug (assembled convOverflow Getenv net text)) ≤ 64
               ∧ every slugByte (Slug (assembled convOverflow Getenv net text))
                 = true).
  { rewrite HS. destruct (accepted text); [|done].
    destruct (generateSlug_is_a_slug mapToLower fieldsIsSpace text)
      as (slug & -> & Hl & Hb & _). done. }
  destruct HB as [HL HB].
  case_bool_decide as Hnil; (split; [exact HS|]); (split; [exact HL|]);
    (split; [exact HB|]); [done|].
  intros _. rewrite He in Hnil.
  destruct (omap _ order) as [|e rest] eqn:E; [done|].
  assert (Hin : e ∈ omap (failure Getenv net text) order)
    by (rewrite E; left).
  apply elem_of_errors in Hin as (d & err & Hd & _); [|done].
  exists d. split; [|by rewrite Hd].
  intros ->. rewrite outcome_slugger in Hd. done.
Qed.

End BehindSlug.

(** * Beyond the claims: the letters of the transliterator *)

Section Encoding.
Import Utf8.

Lemma land_low x k : 0 ≤ k → Z.land x (Z.ones k) = x `mod` 2 ^ k.
Proof. intros. by apply Z.land_ones. Qed.

Lemma lor_high x y k :
  0 ≤ k → 0 ≤ y < 2 ^ k → Z.lor (Z.shiftl x k) y = x * 2 ^ k + y.
Proof.
  intros Hk Hy.
  assert (Hland : Z.land (Z.shiftl x k) y = 0).
  { apply Z.bits_inj'. intros i Hi. rewrite Z.land_spec, Z.bits_0.
    destruct (Z.lt_ge_cases i k) as [Hlt|Hge].
    - by rewrite Z.shiftl_spec_low.
    - rewrite andb_false_iff. right.
      destruct (Z.eq_dec y 0) as [->|Hy0]; [apply Z.bits_0|].
      apply Z.bits_above_log2; [lia|].
      apply Z.log2_lt_pow2; [lia|].
      pose proof (Z.pow_le_mono_r 2 k i). lia. }
  rewrite <- Z.lxor_lor by done. rewrite <- Z.add_nocarry_lxor by done.
  by rewrite Z.shiftl_mul_pow2.
Qed.

Lemma byte_bounds c : 0 ≤ byte c < 256.
Proof. unfold byte. pose proof (N_ascii_bounded c). lia. Qed.

Lemma char_of_byte c z : z = byte c → char z = c.
Proof. intros ->. unfold char, byte. by rewrite N2Z.id, ascii_N_embedding. Qed.


Lemma lor_lead2 y : 0 ≤ y < 64 → Z.lor 192 y = 192 + y.
Proof. intros. change 192 with (Z.shiftl 3 6) at 1. by rewrite lor_high. Qed.

Lemma lor_cont y : 0 ≤ y < 64 → Z.lor 128 y = 128 + y.
Proof. intros. change 128 with (Z.shiftl 2 6) at 1. by rewrite lor_high. Qed.

Lemma lor_lead3 y : 0 ≤ y < 16 → Z.lor 224 y = 224 + y.
Proof. intros. change 224 with (Z.shiftl 14 4) at 1. by rewrite lor_high. Qed.

Lemma lor_lead4 y : 0 ≤ y < 8 → Z.lor 240 y = 240 + y.
Proof. intros. change 240 with (Z.shiftl 30 3) at 1. by rewrite lor_high. Qed.

Lemma land_63 x : Z.land x 63 = x `mod` 64.
Proof. change 63 with (Z.ones 6). by rewrite land_low. Qed.

Lemma land_31 x : Z.land x 31 = x `mod` 32.
Proof. change 31 with (Z.ones 5). by rewrite land_low. Qed.

Lemma land_15 x : Z.land x 15 = x `mod` 16.
Proof. change 15 with (Z.ones 4). by rewrite land_low. Qed.

Lemma land_7 x : Z.land x 7 = x `mod` 8.
Proof. change 7 with (Z.ones 3). by rewrite land_low. Qed.

Lemma shiftr_6 x : Z.shiftr x 6 = x `div` 64.
Proof. by rewrite Z.shiftr_div_pow2. Qed.

Lemma shiftr_12 x : Z.shiftr x 12 = x `div` 4096.
Proof. by rewrite Z.shiftr_div_pow2. Qed.

Lemma shiftr_18 x : Z.shiftr x 18 = x `div` 262144.
Proof. by rewrite Z.shiftr_div_pow2. Qed.

(** The encodings of two, three and four bytes, from the bits they
    carry. *)
Lemma EncodeRune_2 a b :
  2 ≤ a < 32 → 0 ≤ b < 64 →
  EncodeRune (Z.lor (Z.shiftl a 6) b)
  = String (char (192 + a)) (String (char (128 + b)) "").
Proof.
  intros Ha Hb. rewrite (lor_high a b 6) by lia. change (2 ^ 6) with 64.
  set (r := a * 64 + b). assert (Hr : 128 ≤ r ≤ 2047) by lia.
  assert (H6 : r `div` 64 = a) by (subst r; Z.div_mod_to_equations; lia).
  assert (H0 : r `mod` 64 = b) by (subst r; Z.div_mod_to_equations; lia).
  unfold EncodeRune.
  destruct (Z.leb_spec 0 r); [|lia]. destruct (Z.leb_spec r 127); [lia|].
  destruct (Z.leb_spec r 2047); [|lia]. cbn [andb].
  rewrite shiftr_6, land_63, H6, H0.
  by rewrite lor_lead2, lor_cont by lia.
Qed.

Lemma EncodeRune_3 a b c :
  0 ≤ a < 16 → 0 ≤ b < 64 → 0 ≤ c < 64 →
  (a = 0 → 32 ≤ b) → (a = 13 → b < 32) →
  EncodeRune (Z.lor (Z.shiftl a 12) (Z.lor (Z.shiftl b 6) c))
  = String (char (224 + a))
      (String (char (128 + b)) (String (char (128 + c)) "")).
Proof.
  intros Ha Hb Hc Hlow Hsur.
  rewrite (lor_high b c 6) by lia. change (2 ^ 6) with 64.
  rewrite (lor_high a (b * 64 + c) 12) by lia. change (2 ^ 12) with 4096.
  set (r := a * 4096 + (b * 64 + c)).
  assert (Hr : 2048 ≤ r ≤ 65535) by lia.
  assert (Hs : ¬ (55296 ≤ r ≤ 57343)) by lia.
  assert (H12 : r `div` 4096 = a) by (subst r; Z.div_mod_to_equations; lia).
  assert (H6 : (r `div` 64) `mod` 64 = b)
    by (subst r; Z.div_mod_to_equations; lia).
  assert (H0 : r `mod` 64 = c) by (subst r; Z.div_mod_to_equations; lia).
  unfold EncodeRune.
  destruct (Z.leb_spec 0 r); [|lia]. destruct (Z.leb_spec r 127); [lia|].
  destruct (Z.leb_spec r 2047); [lia|]. cbn [andb].
  destruct (Z.ltb_spec r 0); [lia|]. destruct (Z.ltb_spec 1114111 r); [lia|].
  cbn [orb].
  replace ((55296 <=? r) && (r <=? 57343)) with false
    by (symmetry; apply andb_false_iff;
        destruct (Z.leb_spec 55296 r), (Z.leb_spec r 57343); auto; lia).
  cbv iota. destruct (Z.leb_spec r 65535); [|lia].
  rewrite shiftr_12, shiftr_6, !land_63, H12, H6, H0.
  by rewrite lor_lead3, !lor_cont by lia.
Qed.

Lemma EncodeRune_4 a b c d :
  0 ≤ a ≤ 4 → 0 ≤ b < 64 → 0 ≤ c < 64 → 0 ≤ d < 64 →
  (a = 0 → 16 ≤ b) → (a = 4 → b < 16) →
  EncodeRune
    (Z.lor (Z.shiftl a 18)
       (Z.lor (Z.shiftl b 12) (Z.lor (Z.shiftl c 6) d)))
  = String (char (240 + a))
      (String (char (128 + b))
         (String (char (128 + c)) (String (char (128 + d)) ""))).
Proof.
  intros Ha Hb Hc Hd Hlow Hhigh.
  rewrite (lor_high c d 6) by lia. change (2 ^ 6) with 64.
  rewrite (lor_high b (c * 64 + d) 12) by lia. change (2 ^ 12) with 4096.
  rewrite (lor_high a (b * 4096 + (c * 64 + d)) 18) by lia.
  change (2 ^ 18) with 262144.
  set (r := a * 262144 + (b * 4096 + (c * 64 + d))).
  assert (Hr : 65536 ≤ r ≤ 1114111) by lia.
  assert (H18 : r `div` 262144 = a) by (subst r; Z.div_mod_to_equations; lia).
  assert (H12 : (r `div` 4096) `mod` 64 = b)
    by (subst r; Z.div_mod_to_equations; lia).
  assert (H6 : (r `div` 64) `mod` 64 = c)
    by (subst r; Z.div_mod_to_equations; lia).
  assert (H0 : r `mod` 64 = d) by (subst r; Z.div_mod_to_equations; lia).
  unfold EncodeRune.
  destruct (Z.leb_spec 0 r); [|lia]. destruct (Z.leb_spec r 127); [lia|].
  destruct (Z.leb_spec r 2047); [lia|]. cbn [andb].
  destruct (Z.ltb_spec r 0); [lia|]. destruct (Z.ltb_spec 1114111 r); [lia|].
  cbn [orb].
  replace ((55296 <=? r) && (r <=? 57343)) with false
    by (symmetry; apply andb_false_iff;
        destruct (Z.leb_spec 55296 r), (Z.leb_spec r 57343); auto; lia).
  cbv iota. destruct (Z.leb_spec r 65535); [lia|].
  rewrite shiftr_18, shiftr_12, shiftr_6, !land_63, H18, H12, H6, H0.
  by rewrite lor_lead4, !lor_cont by lia.
Qed.


Lemma EncodeRune_byte c : byte c < 128 → EncodeRune (byte c) = String c "".
Proof.
  intros Hc. pose proof (byte_bounds c). unfold EncodeRune.
  destruct (Z.leb_spec 0 (byte c)); [|lia].
  destruct (Z.leb_spec (byte c) 127); [|lia]. cbn [andb].
  by rewrite (char_of_byte c).
Qed.

(** A rune read off a well-formed encoding is written as the bytes it
    was read off. *)
Lemma EncodeRune_DecodeRuneInString s :
  s ≠ "" →
  ¬ ((DecodeRuneInString s).1 = RuneError ∧ (DecodeRuneInString s).2 = 1%nat) →
  EncodeRune (DecodeRuneInString s).1 = upto (DecodeRuneInString s).2 s.
Proof.
  destruct s as [|c0 [|c1 [|c2 [|c3 s]]]]; try done; intros _;
    unfold DecodeRuneInString;
    repeat (case_match; cbn [fst snd upto]; try tauto); intros _.
  all: unfold continues in *.
  all: repeat match goal with
           | H : negb _ = true |- _ => apply negb_true_iff in H
           | H : negb _ = false |- _ => apply negb_false_iff in H
           | H : (_ && _) = true |- _ => apply andb_prop in H as [? ?]
           | H : (_ || _) = false |- _ => apply orb_false_iff in H as [? ?]
           | H : (_ <? _) = true |- _ => apply Z.ltb_lt in H
           | H : (_ <? _) = false |- _ => apply Z.ltb_ge in H
           | H : (_ <=? _) = true |- _ => apply Z.leb_le in H
           | H : (_ <=? _) = false |- _ => apply Z.leb_gt in H
           | H : (_ =? _) = true |- _ => apply Z.eqb_eq in H
           | H : (_ =? _) = false |- _ => apply Z.eqb_neq in H
           end.
  all: try (exfalso; lia).
  all: try (by apply EncodeRune_byte).
  all: pose proof (byte_bounds c0).
  all: try pose proof (byte_bounds c1).
  all: try pose proof (byte_bounds c2).
  all: try pose proof (byte_bounds c3).
  all: rewrite ?land_31, ?land_15, ?land_7, ?land_63.
  all: first
         [ rewrite EncodeRune_2 by (Z.div_mod_to_equations; lia)
         | rewrite EncodeRune_3 by (Z.div_mod_to_equations; lia)
         | rewrite EncodeRune_4 by (Z.div_mod_to_equations; lia) ].
  all: repeat f_equal; apply char_of_byte; Z.div_mod_to_equations; lia.
Qed.


Lemma EncodeRune_chunk s :
  s ≠ "" → EncodeRune (DecodeRuneInString s).1 = chunk s.
Proof.
  intros Hs. unfold chunk.
  pose proof (DecodeRuneInString_size s Hs) as Hsize.
  rewrite length_upto by lia.
  destruct (Z.eqb_spec (DecodeRuneInString s).1 RuneError) as [E|E].
  - case_bool_decide as H1; cbn [andb].
    + by rewrite E.
    + apply EncodeRune_DecodeRuneInString; [done|]. tauto.
  - apply EncodeRune_DecodeRuneInString; [done|]. tauto.
Qed.

Section Letters.

Import Transliterator.

Lemma applyASCIITransliterations_step s :
  s ≠ "" →
  applyASCIITransliterations s
  = latin s +:+ applyASCIITransliterations (from (DecodeRuneInString s).2 s).
Proof.
  intros Hs. unfold applyASCIITransliterations at 1.
  rewrite runes_step by done. cbn [foldr]. unfold latin.
  fold (applyASCIITransliterations (from (DecodeRuneInString s).2 s)).
  destruct (transliteration (DecodeRuneInString s).1) as [rep|]; [done|].
  cbn [default]. rewrite <- EncodeRune_chunk by done.
  by destruct ((DecodeRuneInString s).1 <=? 127).
Qed.

Lemma runes_ascii_app a t :
  isASCII a = true →
  runes (a +:+ t) = (byte <$> String.list_ascii_of_string a) ++ runes t.
Proof.
  induction a as [|c a IH]; [done|].
  intros [Hc Ha]%isASCII_cons.
  change (String c a +:+ t) with (String c (a +:+ t)).
  rewrite runes_step by done.
  rewrite DecodeRuneInString_ascii by done. cbn [fst snd from].
  simpl. f_equal. by apply IH.
Qed.

Lemma replacements_ascii :
  Forall (λ kv : Z * string, isASCII kv.2 = true) transliterations.
Proof. apply (bool_decide_eq_true_1 _). vm_compute. reflexivity. Qed.

Lemma transliteration_Some r rep :
  transliteration r = Some rep → isASCII rep = true.
Proof.
  unfold transliteration.
  destruct (list_find _ transliterations) as [[i kv]|] eqn:E; [|done].
  cbn. intros [= <-].
  apply list_find_Some in E as (Hi & _ & _).
  pose proof replacements_ascii as H. rewrite Forall_forall in H.
  apply H. by eapply list_elem_of_lookup_2.
Qed.

Lemma isASCII_bytes a :
  isASCII a = true →
  Forall (λ r, transliteration r = None)
    (byte <$> String.list_ascii_of_string a).
Proof.
  induction a as [|c a IH]; [constructor|].
  intros [Hc Ha]%isASCII_cons. simpl. constructor; [|by apply IH].
  by apply transliteration_ascii.
Qed.

Lemma runes_latin s t :
  s ≠ "" →
  runes (latin s +:+ t)
  = match transliteration (DecodeRuneInString s).1 with
    | Some rep => byte <$> String.list_ascii_of_string rep
    | None => [(DecodeRuneInString s).1]
    end ++ runes t.
Proof.
  intros Hs. unfold latin.
  destruct (transliteration (DecodeRuneInString s).1) as [rep|] eqn:E.
  - cbn [default]. apply runes_ascii_app. by eapply transliteration_Some.
  - cbn [default]. by rewrite runes_app_chunk.
Qed.

Lemma runes_applyASCIITransliterations s :
  runes (applyASCIITransliterations s) = runes s ≫= letters.
Proof.
  induction s as [|s Hs IH] using range_ind; [done|].
  rewrite applyASCIITransliterations_step, runes_latin, IH by done.
  rewrite (runes_step s) by done. by rewrite bind_cons.
Qed.

Lemma letters_clean r : Forall (λ r', transliteration r' = None) (letters r).
Proof.
  unfold letters. destruct (transliteration r) as [rep|] eqn:E.
  - apply isASCII_bytes. by eapply transliteration_Some.
  - by repeat constructor.
Qed.

Lemma transliteration_RuneError : transliteration RuneError = None.
Proof. reflexivity. Qed.

Lemma noReplacementChar_app l k :
  Op.noReplacementChar (l ++ k)
  = Op.noReplacementChar l && Op.noReplacementChar k.
Proof.
  induction l as [|r l IH]; [done|]. simpl.
  by destruct (r =? RuneError).
Qed.

Lemma noReplacementChar_letters r :
  Op.noReplacementChar (letters r) = negb (r =? RuneError).
Proof.
  unfold letters. destruct (transliteration r) as [rep|] eqn:E.
  - destruct (Z.eqb_spec r RuneError) as [->|_];
      [by rewrite transliteration_RuneError in E|].
    apply transliteration_Some in E. cbn [negb].
    induction rep as [|c rep IH]; [done|].
    apply isASCII_cons in E as [Hc Hr]. simpl.
    destruct (Z.eqb_spec (byte c) RuneError) as [E'|_];
      [unfold RuneError in E'; lia | by apply IH].
  - simpl. by destruct (r =? RuneError).
Qed.

Lemma noReplacementChar_bind l :
  Op.noReplacementChar (l ≫= letters) = Op.noReplacementChar l.
Proof.
  induction l as [|r l IH]; [done|].
  rewrite bind_cons, noReplacementChar_app, noReplacementChar_letters, IH.
  simpl. by destruct (r =? RuneError).
Qed.

Lemma applyASCIITransliterations_same s :
  Op.isValidUTF8 s = true →
  Forall (λ r, transliteration r = None) (runes s) →
  applyASCIITransliterations s = s.
Proof.
  unfold Op.isValidUTF8.
  induction s as [|s Hs IH] using range_ind; [done|].
  rewrite runes_step by done. cbn [Op.noReplacementChar].
  destruct (Z.eqb_spec (DecodeRuneInString s).1 RuneError) as [|Hr]; [done|].
  intros Hv [Hn Hrest]%Forall_cons.
  rewrite applyASCIITransliterations_step by done.
  rewrite IH by done. unfold latin. rewrite Hn. cbn [default].
  unfold chunk.
  rewrite (proj2 (Z.eqb_neq _ _) Hr). cbn [andb]. apply upto_from.
Qed.

(** X23: what [applyASCIITransliterations] does, rune by rune: a
    letter of the table is written as its Latin replacement and every
    other rune as itself, a byte out of place as U+FFFD.  So no letter
    of the table is left in the result; the result holds U+FFFD
    exactly if the text does; and a text that [isValidUTF8] accepts
    and that has no letter of the table comes out byte for byte. *)
Theorem applyASCIITransliterations_spec s :
  runes (applyASCIITransliterations s) = runes s ≫= letters
  ∧ Forall (λ r, transliteration r = None)
      (runes (applyASCIITransliterations s))
  ∧ Op.isValidUTF8 (applyASCIITransliterations s) = Op.isValidUTF8 s
  ∧ (Op.isValidUTF8 s = true →
     Forall (λ r, transliteration r = None) (runes s) →
     applyASCIITransliterations s = s).
Proof.
  split; [apply runes_applyASCIITransliterations|]. split; [|split].
  - rewrite runes_applyASCIITransliterations.
    induction (runes s) as [|r l IH]; [constructor|].
    rewrite bind_cons. apply Forall_app. split; [apply letters_clean | done].
  - unfold Op.isValidUTF8.
    by rewrite runes_applyASCIITransliterations, noReplacementChar_bind.
  - apply applyASCIITransliterations_same.
Qed.

End Letters.
End Encoding.

(** * Beyond the claims: the normalizers *)

Section Normal.
Import Utf8 Strings Normalize.

Lemma byte_char z : 0 ≤ z < 256 → byte (char z) = z.
Proof.
  intros Hz. unfold byte, char.
  rewrite N_ascii_embedding by lia. lia.
Qed.

Lemma lowerByte_ascii c : byte c < 128 → byte (lowerByte c) < 128.
Proof.
  intros Hc. unfold lowerByte. cbv zeta.
  destruct ((65 <=? byte c) && (byte c <=? 90)) eqn:E; [|done].
  apply andb_prop in E as [E1 E2]. apply Z.leb_le in E1, E2.
  rewrite byte_char; lia.
Qed.

Lemma lowerByte_lowerByte c : lowerByte (lowerByte c) = lowerByte c.
Proof.
  destruct ((65 <=? byte c) && (byte c <=? 90)) eqn:E.
  - assert (Hl : lowerByte c = char (byte c + 32))
      by (unfold lowerByte; cbv zeta; by rewrite E).
    apply andb_prop in E as [E1 E2]. apply Z.leb_le in E1, E2.
    rewrite Hl. unfold lowerByte. cbv zeta. rewrite byte_char by lia.
    destruct (Z.leb_spec 65 (byte c + 32)), (Z.leb_spec (byte c + 32) 90);
      try done; lia.
  - assert (Hl : lowerByte c = c)
      by (unfold lowerByte; cbv zeta; by rewrite E).
    by rewrite !Hl.
Qed.

Lemma lowerByte_space c : asciiSpace (lowerByte c) = asciiSpace c.
Proof.
  unfold lowerByte. cbv zeta.
  destruct ((65 <=? byte c) && (byte c <=? 90)) eqn:E; [|done].
  apply andb_prop in E as [E1 E2]. apply Z.leb_le in E1, E2.
  unfold asciiSpace. cbv zeta. rewrite byte_char by lia.
  repeat match goal with
         | |- context [?a <=? ?b] => destruct (Z.leb_spec a b)
         | |- context [?a =? ?b] => destruct (Z.eqb_spec a b)
         end; simpl; try done; lia.
Qed.

Lemma lowerBytes_lowered s :
  isASCII s = true → every lowered (lowerBytes s) = true.
Proof.
  induction s as [|c s IH]; [done|].
  intros [Hc Hs]%isASCII_cons. cbn [lowerBytes every].
  rewrite IH by done. unfold lowered.
  rewrite (proj2 (Z.ltb_lt _ _) (lowerByte_ascii c Hc)).
  by rewrite bool_decide_eq_true_2 by apply lowerByte_lowerByte.
Qed.

Lemma lowered_lowerBytes s : every lowered s = true → lowerBytes s = s.
Proof.
  induction s as [|c s IH]; [done|]. cbn [every lowerBytes].
  intros [Hc Hs]%andb_prop. rewrite IH by done.
  apply andb_prop in Hc as [_ Hc]. apply bool_decide_eq_true_1 in Hc.
  by rewrite Hc.
Qed.

Lemma lowered_isASCII s : every lowered s = true → isASCII s = true.
Proof.
  induction s as [|c s IH]; [done|]. cbn [every isASCII].
  intros [Hc Hs]%andb_prop. rewrite IH by done.
  apply andb_prop in Hc as [Hc _]. by rewrite Hc.
Qed.

(** The fields of a string are words: not empty, without white
    space, of bytes of the string. *)
Lemma fieldsFrom_every class word s :
  every class word = true → every (λ c, negb (asciiSpace c)) word = true →
  every class s = true →
  Forall (λ w, w ≠ "" ∧ every class w = true
               ∧ every (λ c, negb (asciiSpace c)) w = true)
    (fieldsFrom word s).
Proof.
  revert word; induction s as [|c s IH]; intros word Hw Hn; cbn [fieldsFrom every].
  - intros _. case_bool_decide; [constructor|]. by repeat constructor.
  - intros [Hc Hs]%andb_prop. destruct (asciiSpace c) eqn:E.
    + case_bool_decide.
      * by apply IH.
      * constructor; [done|]. by apply IH.
    + apply IH; [| |done]; rewrite every_app; cbn [every].
      * by rewrite Hw, Hc.
      * by rewrite Hn, E.
Qed.

Lemma fieldsFrom_word acc w t :
  every (λ c, negb (asciiSpace c)) w = true →
  fieldsFrom acc (w +:+ t) = fieldsFrom (acc +:+ w) t.
Proof.
  revert acc; induction w as [|c w IH]; intros acc.
  - intros _. by rewrite append_empty.
  - cbn [every]. intros [Hc Hw]%andb_prop.
    change (String c w +:+ t) with (String c (w +:+ t)).
    cbn [fieldsFrom]. apply negb_true_iff in Hc. rewrite Hc.
    rewrite IH by done. by rewrite append_snoc.
Qed.

Lemma fieldsFrom_Join ws :
  Forall (λ w, w ≠ "" ∧ every (λ c, negb (asciiSpace c)) w = true) ws →
  fieldsFrom "" (Join ws " ") = ws.
Proof.
  induction 1 as [|w ws [Hne Hw] Hws IH]; [done|].
  destruct ws as [|w' ws].
  - cbn [Join]. rewrite <- (append_empty w) at 1.
    rewrite fieldsFrom_word by done. cbn [fieldsFrom].
    by rewrite bool_decide_eq_false_2.
  - change (Join (w :: w' :: ws) " ") with (w +:+ " " +:+ Join (w' :: ws) " ").
    rewrite fieldsFrom_word by done.
    change (" " +:+ ?t) with (String " " t). cbn [fieldsFrom].
    change (asciiSpace " ") with true. cbv iota.
    rewrite bool_decide_eq_false_2 by done. by rewrite IH.
Qed.

Lemma every_Join class ws :
  class " "%char = true →
  Forall (λ w, every class w = true) ws → every class (Join ws " ") = true.
Proof.
  intros Hsp. induction 1 as [|w ws Hw Hws IH]; [done|].
  destruct ws as [|w' ws]; [done|].
  change (Join (w :: w' :: ws) " ") with (w +:+ " " +:+ Join (w' :: ws) " ").
  rewrite !every_app, Hw, IH. cbn [every]. by rewrite Hsp.
Qed.

Lemma runes_of_ascii s :
  isASCII s = true → runes s = byte <$> String.list_ascii_of_string s.
Proof.
  intros Hs. rewrite <- (append_empty s) at 1.
  rewrite runes_ascii_app by done. by rewrite app_nil_r.
Qed.

Section Tables.

Variables (NFKC NFD : string → string) (isMn : Z → bool).
Variable mapToLower : string → string.
Variable fieldsIsSpace : string → list string.

Hypothesis NFKC_ascii : ∀ s, isASCII s = true → NFKC s = s.
Hypothesis NFD_ascii : ∀ s, isASCII s = true → NFD s = s.
Hypothesis isMn_ascii : ∀ r, 0 ≤ r < 128 → isMn r = false.

Local Abbreviation normalizeText :=
  (normalizeText NFKC NFD isMn mapToLower fieldsIsSpace).

Lemma stripDiacritics_ascii s :
  isASCII s = true → stripDiacritics NFD isMn s = s.
Proof.
  intros Hs. unfold stripDiacritics, withoutMarks.
  rewrite NFD_ascii, runes_of_ascii by done.
  induction s as [|c s IH]; [done|].
  apply isASCII_cons in Hs as [Hc Hs]. cbn [String.list_ascii_of_string fmap list_fmap foldr].
  pose proof (byte_bounds c). rewrite isMn_ascii by lia.
  cbn [stringOfRunes foldr]. rewrite EncodeRune_byte by done.
  change (String c "" +:+ ?t) with (String c t). f_equal. by apply IH.
Qed.

Lemma normalizeText_lowered s :
  every lowered s = true →
  normalizeText s = Join (fieldsFrom "" s) " "
  ∧ every lowered (normalizeText s) = true.
Proof.
  intros Hs. pose proof (lowered_isASCII s Hs) as Ha.
  unfold Normalize.normalizeText. rewrite NFKC_ascii by done.
  unfold ToLower, Fields. rewrite Ha, lowered_lowerBytes, Ha by done.
  assert (HJ : every lowered (Join (fieldsFrom "" s) " ") = true).
  { apply every_Join; [done|].
    eapply Forall_impl; [by apply (fieldsFrom_every lowered "" s)|].
    by intros w (_ & ? & _). }
  by rewrite stripDiacritics_ascii by (by apply lowered_isASCII).
Qed.

(** X24: [normalizeText] on a text of ASCII, given of the tables of
    Unicode that the normal forms leave ASCII alone and that no ASCII
    character is a nonspacing mark: the letters are lowered and the
    words put one space apart, with no white space before the first
    and after the last.  The words of the result are the words of the
    lowered text, lowering the result changes nothing, and normalizing
    twice is normalizing once. *)
Theorem normalizeText_ascii s :
  isASCII s = true →
  normalizeText s = Join (fieldsFrom "" (lowerBytes s)) " "
  ∧ Fields fieldsIsSpace (normalizeText s) = fieldsFrom "" (lowerBytes s)
  ∧ lowerBytes (normalizeText s) = normalizeText s
  ∧ normalizeText (normalizeText s) = normalizeText s.
Proof.
  intros Ha. pose proof (lowerBytes_lowered s Ha) as Hl.
  assert (H1 : normalizeText s = Join (fieldsFrom "" (lowerBytes s)) " ").
  { unfold Normalize.normalizeText. rewrite NFKC_ascii by done.
    unfold ToLower, Fields. rewrite Ha, (lowered_isASCII _ Hl).
    apply stripDiacritics_ascii, lowered_isASCII, every_Join; [done|].
    eapply Forall_impl; [by apply (fieldsFrom_every lowered "" _)|].
    by intros w (_ & ? & _). }
  assert (Hws : Forall (λ w, w ≠ "" ∧ every lowered w = true
                             ∧ every (λ c, negb (asciiSpace c)) w = true)
                  (fieldsFrom "" (lowerBytes s)))
    by (by apply fieldsFrom_every).
  assert (HJ : every lowered (normalizeText s) = true).
  { rewrite H1. apply every_Join; [done|].
    eapply Forall_impl; [exact Hws|]. by intros w (_ & ? & _). }
  assert (HF : fieldsFrom "" (normalizeText s) = fieldsFrom "" (lowerBytes s)).
  { rewrite H1. apply fieldsFrom_Join.
    eapply Forall_impl; [exact Hws|]. by intros w (? & _ & ?). }
  split; [done|]. split; [|split].
  - unfold Fields. by rewrite (lowered_isASCII _ HJ).
  - by apply lowered_lowerBytes.
  - destruct (normalizeText_lowered _ HJ) as [-> _]. by rewrite HF.
Qed.

End Tables.
End Normal.

Section BehindNormalizer.

Variable convOverflow : float64 → Z.
Variable Getenv : string → string.
Variable roundTrip : Dep → HttpPost → HttpReply.
Variable errorText : error → string.
Variable normalizeText : string → string.
Variable requestCounter : Z.

Local Abbreviation validating :=
  (<[normalizer :=
       Normalizer.remote errorText normalizeText requestCounter]> roundTrip).
Local Abbreviation simple :=
  (<[normalizer :=
       SimpleNormalizer.remote normalizeText requestCounter]> roundTrip).

Lemma normalizer_reply url text :
  ∃ errorMsg,
    Normalizer.remote errorText normalizeText requestCounter (opPost url text)
    = Response StatusOK
        (Bytes (Some (Op.EncodeOpResponse
                        {| Op.Key := "normalized";
                           Op.Value := if accepted text
                                       then Some (normalizeText text)
                                       else None;
                           Op.CacheHit := false;
                           Op.Error := errorMsg |}))).
Proof.
  unfold Normalizer.remote, Normalizer.handleOp, opPost.
  cbn [post_body Method RequestBody].
  rewrite (bool_decide_eq_false_2 ("POST" ≠ "POST")) by (intros H; by apply H).
  rewrite DecodeOpRequest_text. unfold accepted.
  cbn [OpRequest_Text OpRequest_Deps].
  destruct (decide (text = "")) as [->|Hne]; [eexists; reflexivity|].
  rewrite (bool_decide_eq_true_2 (text ≠ "")) by done.
  unfold Op.validateInput; simpl.
  destruct (Z.eqb_spec (Op.len (Utf8.coerce text)) 0) as [H0|H0].
  { apply (proj1 (len_zero _)), (proj1 (coerce_empty _)) in H0. done. }
  rewrite isValidUTF8_coerce.
  destruct (Op.isValidUTF8 text) eqn:Hv; simpl; [|eexists; reflexivity].
  rewrite coerce_valid by done.
  rewrite (bool_decide_eq_true_2 (text ≠ "")) by done.
  destruct (Z.ltb_spec 10000 (Op.len text)), (Z.leb_spec (Op.len text) 10000);
    try lia; eexists; reflexivity.
Qed.

Lemma outcome_normalizer text :
  outcome Getenv validating text normalizer
  = Ok {| Key := "normalized";
          Value := if accepted text
                   then Str (Utf8.coerce (normalizeText text))
                   else Nil;
          CacheHit := false |}.
Proof.
  apply outcome_Ok.
  destruct (normalizer_reply (serviceURL Getenv normalizer +:+ "/op") text)
    as [msg Hr].
  eexists. split.
  - unfold opPost in *. rewrite fn_lookup_insert. exact Hr.
  - rewrite EncodeOpResponse_decodes. simpl. by destruct (accepted text).
Qed.

Lemma simple_reply url text :
  SimpleNormalizer.remote normalizeText requestCounter (opPost url text)
  = Response StatusOK
      (Bytes (Some (Op.EncodeOpResponse
                      {| Op.Key := "normalized";
                         Op.Value := Some (normalizeText (Utf8.coerce text));
                         Op.CacheHit := false;
                         Op.Error := "" |}))).
Proof.
  unfold SimpleNormalizer.remote, SimpleNormalizer.handleOp, opPost.
  cbn [post_body Method RequestBody].
  rewrite (bool_decide_eq_false_2 ("POST" ≠ "POST")) by (intros H; by apply H).
  by rewrite DecodeOpRequest_text.
Qed.

Lemma outcome_simple text :
  outcome Getenv simple text normalizer
  = Ok {| Key := "normalized";
          Value := Str (Utf8.coerce (normalizeText (Utf8.coerce text)));
          CacheHit := false |}.
Proof.
  apply outcome_Ok. eexists. split.
  - unfold opPost. rewrite fn_lookup_insert. apply simple_reply.
  - by rewrite EncodeOpResponse_decodes.
Qed.

Lemma no_error_from net text d resp s order :
  outcome Getenv net text d = Ok resp →
  order ≡ₚ services →
  errors s = omap (failure Getenv net text) order →
  errors s ≠ [] →
  ∃ d', d' ≠ d ∧ isErr (outcome Getenv net text d') = true.
Proof.
  intros Hd Ho He Hnil. rewrite He in Hnil.
  destruct (omap _ order) as [|e rest] eqn:E; [done|].
  assert (Hin : e ∈ omap (failure Getenv net text) order)
    by (rewrite E; left).
  apply elem_of_errors in Hin as (d' & err & Hd' & _); [|done].
  exists d'. split; [|by rewrite Hd'].
  intros ->. congruence.
Qed.

(** X25: the aggregator in front of a normalizer.  The normalizer
    that validates gives the response the normalized text if the text
    is not empty, holds no U+FFFD and no byte out of place and is no
    longer than ten thousand bytes, and the empty string otherwise;
    the normalizer that does not validate normalizes every text, as it
    reads on the wire.  With either the call succeeds: if the response
    is degraded, another service failed. *)
Theorem normalizers_behind_aggregator text sched :
  fair sched = true →
  (∃ response sent,
     aggregateAnalysis convOverflow Getenv validating text sched
     = Some (response, None, sent)
     ∧ Normalized response
       = (if accepted text then Utf8.coerce (normalizeText text) else "")
     ∧ (Degraded response = true →
        ∃ d, d ≠ normalizer
             ∧ isErr (outcome Getenv validating text d) = true))
  ∧ (∃ response sent,
       aggregateAnalysis convOverflow Getenv simple text sched
       = Some (response, None, sent)
       ∧ Normalized response
         = Utf8.coerce (normalizeText (Utf8.coerce text))
       ∧ (Degraded response = true →
          ∃ d, d ≠ normalizer
               ∧ isErr (outcome Getenv simple text d) = true)).
Proof.
  intros Hfair. split.
  - destruct (aggregateAnalysis_fair convOverflow Getenv validating text sched
                Hfair)
      as (s & order & calls & _ & Ho & _ & _ & He & _ & ->).
    eexists _, _. split; [reflexivity|].
    assert (HN : Normalized (assembled convOverflow Getenv validating text)
                 = if accepted text
                   then Utf8.coerce (normalizeText text) else "").
    { unfold assembled. cbn [Normalized]. rewrite outcome_normalizer.
      by destruct (accepted text). }
    case_bool_decide as Hnil; (split; [exact HN|]); [done|].
    intros _. by eapply no_error_from; [apply outcome_normalizer|..].
  - destruct (aggregateAnalysis_fair convOverflow Getenv simple text sched
                Hfair)
      as (s & order & calls & _ & Ho & _ & _ & He & _ & ->).
    eexists _, _. split; [reflexivity|].
    assert (HN : Normalized (assembled convOverflow Getenv simple text)
                 = Utf8.coerce (normalizeText (Utf8.coerce text))).
    { unfold assembled. cbn [Normalized]. by rewrite outcome_simple. }
    case_bool_decide as Hnil; (split; [exact HN|]); [done|].
    intros _. by eapply no_error_from; [apply outcome_simple|..].
Qed.

End BehindNormalizer.

(** ** Instances *)

Lemma op_answers_value_or_error_witness :
  ∃ value errorMsg,
    (Transliterator.handleOp Samples.plainly Samples.plain Samples.empty 0).1
    = answer value errorMsg
    ∧ (value = None ↔ errorMsg ≠ "").
Proof.
  exact (op_answers_value_or_error Samples.plainly Samples.plain
           Samples.empty 0 eq_refl).
Defined.

Lemma usable_normalized_wins_witness :
  (Transliterator.handleOp Samples.plainly Samples.plain Samples.chained 0).1
  = answer (Some (Samples.plain "straße")) "".
Proof.
  apply (usable_normalized_wins Samples.plainly Samples.plain Samples.chained 0
           {| OpRequest_Text := Some "Straße";
              OpRequest_Deps :=
                Some {| Deps_Normalized := Some "straße";
                        Deps_Transliterated := None;
                        Deps_Tokens := [] |} |}
           {| Deps_Normalized := Some "straße";
              Deps_Transliterated := None;
              Deps_Tokens := [] |}
           "straße");
    [reflexivity | reflexivity | vm_compute; reflexivity | reflexivity
    | reflexivity | discriminate].
Defined.

Lemma every_request_is_counted_witness :
  Op.handleMetrics Samples.get
    (serve Samples.plainly Samples.plain
       [Samples.chained; Samples.get; Samples.empty] (2 ^ 63 - 2))
  = {| Op.Status := StatusOK;
       Op.Header := "text/plain";
       Op.Sent :=
         Op.TextBody
           ("# HELP op_requests_total Total number of requests to /op endpoint"
            +:+ Op.newline
            +:+ "# TYPE op_requests_total counter" +:+ Op.newline
            +:+ "op_requests_total "
            +:+ pretty (Op.wrap64 (2 ^ 63 - 2 + 3))
            +:+ Op.newline) |}.
Proof.
  apply (every_request_is_counted Samples.plainly Samples.plain
           [Samples.chained; Samples.get; Samples.empty] (2 ^ 63 - 2)
           Samples.get);
    [vm_compute; split; [discriminate | reflexivity] | reflexivity].
Defined.

Lemma transliterator_behind_aggregator_witness :
  ∃ response sent,
    aggregateAnalysis amd64 unset
      (<[transliterator :=
           Transliterator.remote Samples.plainly Samples.plain 0]> panama)
      hello interleaved
    = Some (response, None, sent)
    ∧ Transliterated response
      = (if accepted hello then Utf8.coerce (Samples.plain hello) else "")
    ∧ (Degraded response = true →
       ∃ d, d ≠ transliterator
            ∧ isErr (outcome unset
                       (<[transliterator :=
                            Transliterator.remote Samples.plainly
                              Samples.plain 0]> panama)
                       hello d) = true).
Proof.
  exact (transliterator_behind_aggregator amd64 unset panama Samples.plainly
           Samples.plain 0 hello interleaved eq_refl).
Defined.

Lemma replaceLigatures_is_one_pass_witness :
  Transliterator.replaceLigatures (reverse Transliterator.ligatures)
    "Æsop ﬁnds the œuvre of Þór in the straße"
  = Transliterator.replaceLigatures Transliterator.ligatures
      "Æsop ﬁnds the œuvre of Þór in the straße"
  ∧ Transliterator.replaceLigatures (reverse Transliterator.ligatures)
      "Æsop ﬁnds the œuvre of Þór in the straße"
    = onePass Transliterator.ligatures
        "Æsop ﬁnds the œuvre of Þór in the straße".
Proof.
  apply (replaceLigatures_is_one_pass (reverse Transliterator.ligatures)
           Transliterator.ligatures).
  - apply reverse_Permutation.
  - reflexivity.
Defined.

Lemma encoded_response_decodes_witness :
  (callMicroservice
     (Transliterator.remote Samples.plainly Samples.plain 0)
     "http://transliterator:8080" "").2
  = Ok {| Key := "transliterated"; Value := Nil; CacheHit := false |}.
Proof.
  apply (encoded_response_decodes
           (Transliterator.remote Samples.plainly Samples.plain 0)
           "http://transliterator:8080" ""
           {| Op.Key := "transliterated";
              Op.Value := None;
              Op.CacheHit := false;
              Op.Error := "Text field cannot be empty string" |}).
  reflexivity.
Defined.

Lemma ascii_is_left_alone_witness :
  Samples.plain panamaText = panamaText.
Proof.
  apply (ascii_is_left_alone Samples.asIs Samples.asIs Samples.noMark
           Transliterator.ligatures);
    [reflexivity | reflexivity | reflexivity | reflexivity | reflexivity].
Defined.

(** ** Instances *)

Lemma slugger_behind_aggregator_witness :
  ∃ response sent,
    aggregateAnalysis amd64 unset
      (<[slugger := Slugger.remote Samples.plainly SlugSamples.slugs 0]>
         panama)
      panamaText interleaved
    = Some (response, None, sent)
    ∧ Slug response
      = (if accepted panamaText
         then default "" (SlugSamples.slugs panamaText) else "")
    ∧ Op.len (Slug response) ≤ 64
    ∧ every slugByte (Slug response) = true
    ∧ (Degraded response = true →
       ∃ d, d ≠ slugger
            ∧ isErr (outcome unset
                       (<[slugger :=
                            Slugger.remote Samples.plainly
                              SlugSamples.slugs 0]> panama)
                       panamaText d) = true).
Proof.
  exact (slugger_behind_aggregator amd64 unset panama Samples.plainly
           Samples.asIs SlugSamples.noFields 0 panamaText interleaved eq_refl).
Defined.

Lemma normalizeText_ascii_witness :
  NormSamples.normal panamaText
  = Strings.Join
      (Strings.fieldsFrom "" (Strings.lowerBytes panamaText)) " "
  ∧ NormSamples.normal (NormSamples.normal panamaText)
    = NormSamples.normal panamaText.
Proof.
  destruct (normalizeText_ascii Samples.asIs Samples.asIs Samples.noMark
              Samples.asIs (λ _, [])
              (λ _ _, eq_refl) (λ _ _, eq_refl) (λ _ _, eq_refl)
              panamaText eq_refl)
    as (H1 & _ & _ & H4).
  split; [exact H1 | exact H4].
Defined.

Lemma normalizers_behind_aggregator_witness :
  ∃ response sent,
    aggregateAnalysis amd64 unset
      (<[normalizer :=
           Normalizer.remote Samples.plainly NormSamples.normal 0]> panama)
      hello interleaved
    = Some (response, None, sent)
    ∧ Normalized response
      = (if accepted hello
         then Utf8.coerce (NormSamples.normal hello) else "").
Proof.
  destruct (normalizers_behind_aggregator amd64 unset panama Samples.plainly
              NormSamples.normal 0 hello interleaved eq_refl)
    as [(response & sent & H1 & H2 & _) _].
  exists response, sent. split; [exact H1 | exact H2].
Defined.
